(** * Mazegame: a shallow embedding of [Mazegame.py]

    The maze generator ([Maze.generate_maze]), the neighbour query
    ([Maze.get_neighbors]), the player ([Player.is_alive], [Player.combat])
    and the turn loop ([play_game]) are embedded as Rocq functions.

    - Python integers are [Z]; lists are [list]; indexing follows Python
      (negative indices count from the end, out of range raises).
    - Exceptions are the [Raise] results of a small error monad.
    - The module-level [random] state is an explicit stream of draws that
      is threaded through every call; every theorem quantifies over it.
    - [input()] reads from an explicit list of lines; the empty list is
      end-of-stream ([EOFError]).  [print] appends to a list of lines. *)

From Stdlib Require Import ZArith List Lia Bool String Ascii.
From stdpp Require Import base tactics option list gmap strings pretty.

Local Open Scope Z_scope.

(* ================================================================== *)
(** * Part I: definitions *)
(* ================================================================== *)

(** ** Exceptions and results *)

Inductive exn := IndexError | ValueError.

Inductive result (A : Type) : Type :=
| Ret (a : A)
| Raise (e : exn)
| OutOfFuel.

Arguments Ret {A} a.
Arguments Raise {A} e.
Arguments OutOfFuel {A}.

#[global] Instance result_ret : MRet result := @Ret.
#[global] Instance result_bind : MBind result := fun A B f m =>
  match m with
  | Ret a => f a
  | Raise e => Raise e
  | OutOfFuel => OutOfFuel
  end.

(** ** Python list indexing *)

(** The position designated by index [i] in a list of length [n]:
    [i] itself when [0 <= i < n], [n + i] when [-n <= i < 0]. *)
Definition norm_index (n : nat) (i : Z) : option nat :=
  let j := if i <? 0 then i + Z.of_nat n else i in
  if (0 <=? j) && (j <? Z.of_nat n) then Some (Z.to_nat j) else None.

(** [l[i]] *)
Definition index {A} (l : list A) (i : Z) : result A :=
  match norm_index (length l) i with
  | Some k => match l !! k with Some a => Ret a | None => Raise IndexError end
  | None => Raise IndexError
  end.

(** [l[i] = a] *)
Definition store {A} (l : list A) (i : Z) (a : A) : result (list A) :=
  match norm_index (length l) i with
  | Some k => Ret (<[k := a]> l)
  | None => Raise IndexError
  end.

(** [g[y][x]] *)
Definition grid_get {A} (g : list (list A)) (y x : Z) : result A :=
  row ← index g y; index row x.

(** [g[y][x] = a].  The rows of the grids built by [Maze.__init__] are
    distinct objects (one list per comprehension step), so an update
    touches one row only. *)
Definition grid_set {A} (g : list (list A)) (y x : Z) (a : A)
  : result (list (list A)) :=
  row ← index g y; row' ← store row x a; store g y row'.

(** [g[y][x].append(d)] *)
Definition grid_append {A} (g : list (list (list A))) (y x : Z) (d : A)
  : result (list (list (list A))) :=
  c ← grid_get g y x; grid_set g y x (c ++ [d]).

(** [range(n)] *)
Definition range (n : Z) : list Z := seqZ 0 n.

(** A [for] loop over [l] whose body may raise. *)
Fixpoint for_each {A S} (l : list A) (body : A → S → result S) (s : S)
  : result S :=
  match l with
  | [] => Ret s
  | a :: l' => s' ← body a s; for_each l' body s'
  end.

(** ** The random module *)

(** The generator state is the stream of the draws still to come.  Every
    library call below consumes draws from the front and reduces them into
    the range it needs, so that each possible outcome of the call is
    produced by some stream, whatever the other calls returned.  How many
    draws a call consumes is a choice of the model; the theorems hold for
    every stream, hence for every sequence of outcomes. *)
Definition rng := nat → Z.

Definition draw (r : rng) : Z * rng := (r 0%nat, fun n => r (S n)).

(** A number in [0, n), for [n > 0]. *)
Definition randbelow (n : nat) (r : rng) : nat * rng :=
  let '(v, r') := draw r in (Z.to_nat (v mod Z.of_nat n), r').

(** [random.randint(a, b)]: [a <= N <= b]; empty range raises. *)
Definition randint (a b : Z) (r : rng) : result (Z * rng) :=
  if b <? a then Raise ValueError
  else let '(v, r') := draw r in Ret (a + v mod (b - a + 1), r').

(** [random.choice(l)]: raises [IndexError] on the empty sequence. *)
Definition choice {A} (l : list A) (r : rng) : result (A * rng) :=
  match l with
  | [] => Raise IndexError
  | _ =>
      let '(k, r') := randbelow (length l) r in
      match l !! k with
      | Some a => Ret (a, r')
      | None => Raise IndexError
      end
  end.

(** [random.shuffle(l)]: the next element of the result is drawn among the
    elements that remain.  [n] bounds the number of elements. *)
Fixpoint shuffle_n {A} (n : nat) (l : list A) (r : rng) : list A * rng :=
  match n with
  | O => ([], r)
  | S n' =>
      match l with
      | [] => ([], r)
      | _ =>
          let '(k, r1) := randbelow (length l) r in
          match l !! k with
          | Some a =>
              let '(rest, r2) := shuffle_n n' (delete k l) r1 in
              (a :: rest, r2)
          | None => ([], r1)
          end
      end
  end.

Definition shuffle {A} (l : list A) (r : rng) : list A * rng :=
  shuffle_n (length l) l r.

(** [random.random()]: a float [N / 2^53] with [0 <= N < 2^53]; the model
    returns the numerator [N]. *)
Definition random (r : rng) : Z * rng :=
  let '(v, r') := draw r in (v mod 2 ^ 53, r').

(** ** The maze *)

Record Maze := {
  width : Z;
  height : Z;
  cells : list (list (list Z));
  visited : list (list bool);
  exit_room : Z * Z
}.

(** [(dy, dx, dir, opp_dir)] *)
Definition directions : list (Z * Z * Z * Z) :=
  [(-1, 0, 0, 1); (1, 0, 1, 0); (0, 1, 2, 3); (0, -1, 3, 2)].

(** [0 <= ny < self.height and 0 <= nx < self.width] *)
Definition in_bounds (w h ny nx : Z) : bool :=
  (0 <=? ny) && (ny <? h) && (0 <=? nx) && (nx <? w).

(** Lines 20-24: the unvisited grid neighbours of [(y, x)], in the order
    of [directions].  [visited[ny][nx]] is read only once the bounds test
    has passed (short-circuit [and]). *)
Fixpoint unvisited_neighbors (w h : Z) (vis : list (list bool)) (y x : Z)
  (ds : list (Z * Z * Z * Z)) : result (list (Z * Z * Z * Z)) :=
  match ds with
  | [] => Ret []
  | (dy, dx, d, opp) :: ds' =>
      let ny := y + dy in
      let nx := x + dx in
      keep ← (if in_bounds w h ny nx
              then b ← grid_get vis ny nx; Ret (negb b)
              else Ret false);
      rest ← unvisited_neighbors w h vis y x ds';
      Ret (if keep : bool then (ny, nx, d, opp) :: rest else rest)
  end.

(** Lines 28-29 and 49-50: a door [d] out of [(y, x)] and the door [opp]
    back from [(ny, nx)]. *)
Definition carve (cs : list (list (list Z))) (y x ny nx d opp : Z)
  : result (list (list (list Z))) :=
  cs1 ← grid_append cs y x d; grid_append cs1 ny nx opp.

(** Lines 18-33: the [while stack:] loop.  The head of [stack] is
    [stack[-1]]; [fuel] bounds the number of iterations. *)
Fixpoint dfs_loop (fuel : nat) (w h : Z) (cs : list (list (list Z)))
  (vis : list (list bool)) (stack : list (Z * Z)) (r : rng)
  : result (list (list (list Z)) * list (list bool) * rng) :=
  match stack with
  | [] => Ret (cs, vis, r)
  | (y, x) :: rest =>
      match fuel with
      | O => OutOfFuel
      | S fuel' =>
          un ← unvisited_neighbors w h vis y x directions;
          match un with
          | [] => dfs_loop fuel' w h cs vis rest r
          | _ =>
              '(ny, nx, d, opp, r') ← choice un r;
              cs' ← carve cs y x ny nx d opp;
              vis' ← grid_set vis ny nx true;
              dfs_loop fuel' w h cs' vis' ((ny, nx) :: stack) r'
          end
      end
  end.

(** [d in cell] *)
Definition mem (d : Z) (cell : list Z) : bool := existsb (Z.eqb d) cell.

(** Lines 40-44: the in-bounds directions that [(y, x)] has no door for. *)
Definition possible_adds (w h : Z) (cell : list Z) (y x : Z)
  : list (Z * Z * Z * Z) :=
  omap (fun '(dy, dx, d, opp) =>
          if in_bounds w h (y + dy) (x + dx) && negb (mem d cell)
          then Some (y + dy, x + dx, d, opp) else None)
       directions.

(** Lines 47-50: [for i in range(adds)] over the shuffled candidates. *)
Definition carve_all (y x : Z) (adds : list (Z * Z * Z * Z))
  (cs : list (list (list Z))) : result (list (list (list Z))) :=
  for_each adds (fun '(ny, nx, d, opp) cs => carve cs y x ny nx d opp) cs.

(** Lines 38-50: the body of the densification loops for one cell. *)
Definition densify_cell (w h y x : Z) (st : list (list (list Z)) * rng)
  : result (list (list (list Z)) * rng) :=
  let '(cs, r) := st in
  cell ← grid_get cs y x;
  let current_degree := Z.of_nat (length cell) in
  if current_degree <? 4 then
    let '(shuffled, r') := shuffle (possible_adds w h cell y x) r in
    let adds := Z.min (Z.max (2 - current_degree) 0)
                      (Z.of_nat (length shuffled)) in
    cs' ← carve_all y x (take (Z.to_nat adds) shuffled) cs;
    Ret (cs', r')
  else Ret (cs, r).

(** Lines 36-50. *)
Definition densify (w h : Z) (st : list (list (list Z)) * rng)
  : result (list (list (list Z)) * rng) :=
  for_each (range h)
    (fun y st => for_each (range w) (fun x st => densify_cell w h y x st) st)
    st.

(** [Maze.generate_maze], with the iterations of its [while] loop bounded
    by [fuel]. *)
Definition generate_maze_fuel (fuel : nat) (self : Maze) (r : rng)
  : result (Maze * rng) :=
  vis0 ← grid_set (visited self) 0 0 true;
  '(cs1, vis1, r1) ← dfs_loop fuel (width self) (height self)
                       (cells self) vis0 [(0, 0)] r;
  '(cs2, r2) ← densify (width self) (height self) (cs1, r1);
  Ret ({| width := width self; height := height self; cells := cs2;
          visited := vis1; exit_room := exit_room self |}, r2).

(** Each iteration of the [while] loop either marks a room visited and
    pushes it, or pops: twice the number of rooms is enough. *)
Definition dfs_fuel (w h : Z) : nat := (2 * Z.to_nat w * Z.to_nat h)%nat.

Definition generate_maze (self : Maze) (r : rng) : result (Maze * rng) :=
  generate_maze_fuel (dfs_fuel (width self) (height self)) self r.

(** [Maze.__init__].  The attribute [exit_room] is assigned last; until
    then the field holds a placeholder that nothing reads. *)
Definition Maze_init (w h : Z) (r : rng) : result (Maze * rng) :=
  let self := {| width := w; height := h;
                 cells := replicate (Z.to_nat h) (replicate (Z.to_nat w) []);
                 visited := replicate (Z.to_nat h) (replicate (Z.to_nat w) false);
                 exit_room := (0, 0) |} in
  '(self, r1) ← generate_maze self r;
  '(ey, r2) ← randint 0 (h - 1) r1;
  '(ex, r3) ← randint 0 (w - 1) r2;
  Ret ({| width := width self; height := height self; cells := cells self;
          visited := visited self; exit_room := (ey, ex) |}, r3).

(** The loop body of [get_neighbors] for one stored direction [d]: the
    tuple it appends, if any. *)
Definition neighbor_of (self : Maze) (y x d : Z) : option (string * Z * Z) :=
  if (d =? 0) && (y - 1 >=? 0) then Some ("North"%string, y - 1, x)
  else if (d =? 1) && (y + 1 <? height self) then Some ("South"%string, y + 1, x)
  else if (d =? 2) && (x + 1 <? width self) then Some ("East"%string, y, x + 1)
  else if (d =? 3) && (x - 1 >=? 0) then Some ("West"%string, y, x - 1)
  else None.

(** [Maze.get_neighbors]: one pass over [self.cells[y][x]], in list order. *)
Definition get_neighbors (self : Maze) (y x : Z)
  : result (list (string * Z * Z)) :=
  cell ← grid_get (cells self) y x;
  Ret (omap (M:=list) (neighbor_of self y x) cell).

(** A concrete stream: the draws of [l], then zeros. *)
Definition stream_of (l : list Z) : rng := fun n => nth n l 0.


(** ** Python strings *)

Local Open Scope string_scope.

(** [sub] is a prefix of [s]. *)
Fixpoint starts_with (sub s : string) : bool :=
  match sub, s with
  | EmptyString, _ => true
  | String a sub', String b s' => if Ascii.eqb a b then starts_with sub' s' else false
  | String _ _, EmptyString => false
  end.

(** [sub in s] *)
Fixpoint contains (sub s : string) : bool :=
  starts_with sub s ||
  match s with
  | EmptyString => false
  | String _ s' => contains sub s'
  end.

(** [s.split(sep)] for a non-empty [sep]: [cur] is the piece being read and
    [skip] the number of characters of a matched separator still to pass. *)
Fixpoint split_go (sep : string) (skip : nat) (cur s : string) : list string :=
  match s with
  | EmptyString => [cur]
  | String c s' =>
      match skip with
      | S k => split_go sep k cur s'
      | O =>
          if starts_with sep s
          then cur :: split_go sep (String.length sep - 1) EmptyString s'
          else split_go sep O (cur ++ String c EmptyString) s'
      end
  end.

Definition split (sep s : string) : list string := split_go sep O EmptyString s.

Definition is_digit (c : ascii) : bool :=
  let n := nat_of_ascii c in (48 <=? n)%nat && (n <=? 57)%nat.

Fixpoint int_go (acc : Z) (s : string) : option Z :=
  match s with
  | EmptyString => Some acc
  | String c s' =>
      if is_digit c
      then int_go (10 * acc + Z.of_nat (nat_of_ascii c - 48)) s'
      else None
  end.

(** [int(s)] on a plain run of decimal digits; anything else is taken to
    raise [ValueError]. *)
Definition int (s : string) : result Z :=
  match s with
  | EmptyString => Raise ValueError
  | _ => match int_go 0 s with Some n => Ret n | None => Raise ValueError end
  end.

(** A Python string is modelled by the bytes of its UTF-8 encoding, which
    is also what a string literal of this file denotes.  [str.strip]
    removes the characters for which [str.isspace] holds; they take one,
    two or three bytes. *)

(** U+0009 to U+000D and U+001C to U+0020. *)
Definition is_space (c : ascii) : bool :=
  let n := nat_of_ascii c in
  ((9 <=? n)%nat && (n <=? 13)%nat) || ((28 <=? n)%nat && (n <=? 32)%nat).

(** U+0085 and U+00A0: the bytes C2 85 and C2 A0. *)
Definition is_space2 (c1 c2 : ascii) : bool :=
  let n1 := nat_of_ascii c1 in
  let n2 := nat_of_ascii c2 in
  (n1 =? 194)%nat && ((n2 =? 133)%nat || (n2 =? 160)%nat).

(** U+1680 (E1 9A 80); U+2000 to U+200A, U+2028, U+2029 and U+202F
    (E2 80 80 to E2 80 8A, E2 80 A8, E2 80 A9, E2 80 AF); U+205F
    (E2 81 9F); U+3000 (E3 80 80). *)
Definition is_space3 (c1 c2 c3 : ascii) : bool :=
  let n1 := nat_of_ascii c1 in
  let n2 := nat_of_ascii c2 in
  let n3 := nat_of_ascii c3 in
  ((n1 =? 225)%nat && (n2 =? 154)%nat && (n3 =? 128)%nat) ||
  ((n1 =? 226)%nat && (n2 =? 128)%nat &&
   (((128 <=? n3)%nat && (n3 <=? 138)%nat) ||
    (n3 =? 168)%nat || (n3 =? 169)%nat || (n3 =? 175)%nat)) ||
  ((n1 =? 226)%nat && (n2 =? 129)%nat && (n3 =? 159)%nat) ||
  ((n1 =? 227)%nat && (n2 =? 128)%nat && (n3 =? 128)%nat).

(** The string without the white space at its front.  With [back], the
    bytes of the string are taken to come last byte first, so that each
    character is met from its last byte. *)
Fixpoint drop_spaces (back : bool) (s : string) : string :=
  match s with
  | EmptyString => EmptyString
  | String c1 s1 =>
      if is_space c1 then drop_spaces back s1
      else
        match s1 with
        | EmptyString => s
        | String c2 s2 =>
            if (if back then is_space2 c2 c1 else is_space2 c1 c2)
            then drop_spaces back s2
            else
              match s2 with
              | EmptyString => s
              | String c3 s3 =>
                  if (if back then is_space3 c3 c2 c1 else is_space3 c1 c2 c3)
                  then drop_spaces back s3
                  else s
              end
        end
  end.

(** The bytes of [s] in reverse order, in front of [acc]. *)
Fixpoint rev_append (s acc : string) : string :=
  match s with
  | EmptyString => acc
  | String c s' => rev_append s' (String c acc)
  end.

(** [s.lstrip()] *)
Definition lstrip (s : string) : string := drop_spaces false s.

(** [s.rstrip()] *)
Definition rstrip (s : string) : string :=
  rev_append (drop_spaces true (rev_append s EmptyString)) EmptyString.

(** [s.strip()] *)
Definition strip (s : string) : string := rstrip (lstrip s).

(** U+00A0, the no-break space: a white space of two bytes. *)
Definition nbsp : string := String "194" (String "160" EmptyString).

Definition lower_ascii (c : ascii) : ascii :=
  let n := nat_of_ascii c in
  if (65 <=? n)%nat && (n <=? 90)%nat then ascii_of_nat (n + 32) else c.

(** [s.lower()], as far as the letters A to Z go; every other byte is
    kept.  Python also lowers letters outside ASCII, but to text that
    holds none of the letters of [yes], [y], [no] and [n], so whether the
    result is one of these four words is decided in the same way. *)
Fixpoint lower (s : string) : string :=
  match s with
  | EmptyString => EmptyString
  | String c s' => String (lower_ascii c) (lower s')
  end.

(** [s in l] for a list of strings *)
Definition str_in (s : string) (l : list string) : bool :=
  existsb (String.eqb s) l.

(** ** Text tables *)

Definition room_descriptions : list string := [
  "A dusty chamber holds an old chest, faintly glowing with magic.";
  "A fountain bubbles with enchanted water in this dim room.";
  "Skeletons of fallen warriors are scattered across the floor.";
  "Ancient tomes of forgotten lore line a library’s shelves.";
  "A small altar holds a glowing idol of a forgotten god.";
  "Torchlight flickers on walls etched with arcane runes.";
  "A trapdoor in the ceiling leads to unknown heights.";
  "Glowing mushrooms grow in clusters on the damp floor.";
  "An abandoned campfire smolders, left by recent travelers.";
  "Webs cover everything, hinting at giant spiders nearby.";
  "A mirror reflects your image with a twist of illusion.";
  "Barrels and crates are stacked, possibly hiding treasure.";
  "A fierce dragon statue stands sentinel in the room.";
  "Vines creep along the walls, pulsing with druidic magic.";
  "Dripping water echoes in this cavernous chamber.";
  "Rusty weapons rest on racks, some still sharp.";
  "A puzzle box on a pedestal challenges your wits.";
  "Ghostly whispers of restless spirits fill the air.";
  "Enchanted flowers bloom in a vibrant bed.";
  "Chains dangle from the ceiling, rattling softly.";
  "A map etched into the stone floor hints at dungeon secrets.";
  "Candles burn brightly in a dark ritual circle.";
  "A pile of treasures glints temptingly in the corner.";
  "A deep well descends into abyssal darkness.";
  "Shadows dance as if alive, hiding unseen threats."
].

Definition choices : list string := [
  "Open the chest?";
  "Drink from the fountain?";
  "Disturb the skeletons?";
  "Read a random tome?";
  "Touch the idol?";
  "Trace the runes?";
  "Climb to the trapdoor?";
  "Eat a mushroom?";
  "Search the campfire ashes?";
  "Clear the webs?";
  "Stare into the mirror?";
  "Search the barrels?";
  "Examine the statue?";
  "Pull the vines?";
  "Investigate the dripping?";
  "Take a weapon?";
  "Open the puzzle box?";
  "Respond to the whispers?";
  "Pick a flower?";
  "Rattle the chains?";
  "Study the map?";
  "Blow out the candles?";
  "Dig into the treasures?";
  "Drop a coin into the well?";
  "Confront the shadows?"
].

Definition positive_outcomes : list string := [
  "You find 20 gold pieces!";
  "Your health is restored by 10!";
  "You gain a healing potion!";
  "Your strength increases by 1!";
  "You find a sharp sword!";
  "You gain 50 experience points!";
  "You find a mysterious key!"
].

Definition negative_outcomes : list string := [
  "It's trapped! Lose 15 health.";
  "Poisoned! Lose 10 health.";
  "Cursed! Lose 10 gold.";
  "A monster attacks! Lose 20 health."
].

Definition even_outcomes : list string := ["Nothing happens."].

Definition combat_outcomes : list string := [
  "A goblin leaps from the shadows! Fight?";
  "A skeleton rises to attack! Engage?";
  "A giant rat lunges at you! Battle?";
  "A wraith forms from the shadows! Combat?"
].

Definition combat_gains : list string :=
  ["You gain 30 gold!"; "You gain 100 experience!"; "You find a potion!"].

Local Open Scope list_scope.
Local Open Scope Z_scope.

(** ** Output *)

(** One constructor per [print] (or [input] prompt) of the program; the
    arguments are the values interpolated into the text. *)
Inductive line :=
| Welcome                        (* "Welcome to the Dungeon Adventure! ..." *)
| FoundExit                      (* "You have found the hidden exit room! You escape the dungeon!" *)
| FinalStats (health strength gold experience : Z) (inventory : list string)
| RoomDescription (text : string)
| ChoicePrompt (choice_text : string)   (* "Do you want to ... (yes/no)?" *)
| InputClosed                    (* "Input stream closed. Exiting game." *)
| PleaseYesNo                    (* "Please enter 'yes', 'y', 'no', or 'n'." *)
| Catastrophic                   (* "Catastrophic failure! You die instantly." *)
| Text (text : string)           (* an outcome or combat line, printed as it is *)
| FightPrompt                    (* "Fight? (yes/no): " *)
| Flee                           (* "You flee, but take 10 damage." *)
| NoDoors                        (* "Error: No valid doors available. Ending game." *)
| AvailableDoors                 (* "Available doors:" *)
| DoorOption (i : Z) (dir_name : string)
| DoorPrompt                     (* "Choose a door (number): " *)
| PleaseNumber (n : Z)           (* "Please enter a number between 1 and n." *)
| Trap                           (* "A deadly trap triggers as you open the door! You die." *)
| Congratulations                (* "Congratulations on escaping!" *)
| GameOver                       (* "Game over. You died." *)
| EnterCombat (monster_health monster_strength : Z)
| YouDeal (damage shown_health : Z)
| YouWin                         (* "You win the combat!" *)
| MonsterDeals (damage shown_health : Z)
| YouLose.                       (* "You lose the combat and die." *)

(** ** The player *)

Record Player := {
  health : Z;
  strength : Z;
  gold : Z;
  experience : Z;
  inventory : list string;
  position : Z * Z;
  previous_door : option string
}.

(** [Player.__init__] *)
Definition Player_init : Player :=
  {| health := 100; strength := 10; gold := 0; experience := 0;
     inventory := []; position := (0, 0); previous_door := None |}.

Definition set_health (v : Z) (p : Player) : Player :=
  {| health := v; strength := strength p; gold := gold p;
     experience := experience p; inventory := inventory p;
     position := position p; previous_door := previous_door p |}.

Definition set_strength (v : Z) (p : Player) : Player :=
  {| health := health p; strength := v; gold := gold p;
     experience := experience p; inventory := inventory p;
     position := position p; previous_door := previous_door p |}.

Definition set_gold (v : Z) (p : Player) : Player :=
  {| health := health p; strength := strength p; gold := v;
     experience := experience p; inventory := inventory p;
     position := position p; previous_door := previous_door p |}.

Definition set_experience (v : Z) (p : Player) : Player :=
  {| health := health p; strength := strength p; gold := gold p;
     experience := v; inventory := inventory p;
     position := position p; previous_door := previous_door p |}.

(** [self.inventory.append(item)] *)
Definition add_item (item : string) (p : Player) : Player :=
  {| health := health p; strength := strength p; gold := gold p;
     experience := experience p; inventory := inventory p ++ [item];
     position := position p; previous_door := previous_door p |}.

(** [player.previous_door = dir_name; player.position = (ny, nx)] *)
Definition move_to (dir_name : string) (ny nx : Z) (p : Player) : Player :=
  {| health := health p; strength := strength p; gold := gold p;
     experience := experience p; inventory := inventory p;
     position := (ny, nx); previous_door := Some dir_name |}.

(** [Player.is_alive] *)
Definition is_alive (self : Player) : bool := health self >? 0.

(** Lines 173-178: the reward of a won combat, chosen by its text. *)
Definition apply_gain (gain : string) (self : Player) : Player :=
  if contains "gold" gain then set_gold (gold self + 30) self
  else if contains "experience" gain then set_experience (experience self + 100) self
  else if contains "potion" gain then add_item "Healing Potion" self
  else self.

(** Lines 165-186: the [while] loop of [Player.combat] and what follows
    it; [fuel] bounds the number of iterations. *)
Fixpoint combat_loop (fuel : nat) (self : Player)
  (monster_health monster_strength : Z) (r : rng)
  : result (bool * Player * rng * list line) :=
  if (health self >? 0) && (monster_health >? 0) then
    match fuel with
    | O => OutOfFuel
    | S fuel' =>
        '(damage, r1) ← randint 1 (strength self) r;
        let monster_health := monster_health - damage in
        let l1 := YouDeal damage (Z.max 0 monster_health) in
        if monster_health <=? 0 then
          '(gain, r2) ← choice combat_gains r1;
          Ret (true, apply_gain gain self, r2, [l1; YouWin; Text gain])
        else
          '(damage, r2) ← randint 1 monster_strength r1;
          let self := set_health (health self - damage) self in
          let l2 := MonsterDeals damage (Z.max 0 (health self)) in
          '(b, self', r3, out) ← combat_loop fuel' self monster_health monster_strength r2;
          Ret (b, self', r3, l1 :: l2 :: out)
    end
  else if health self <=? 0 then Ret (false, self, r, [YouLose])
  else Ret (true, self, r, []).

(** [Player.combat] with the iterations of its loop bounded by [fuel]. *)
Definition combat_fuel (fuel : nat) (self : Player) (r : rng)
  : result (bool * Player * rng * list line) :=
  '(monster_health, r1) ← randint 20 50 r;
  '(monster_strength, r2) ← randint 5 15 r1;
  '(b, self', r3, out) ← combat_loop fuel self monster_health monster_strength r2;
  Ret (b, self', r3, EnterCombat monster_health monster_strength :: out).

(** The monster has at most 50 health and loses at least 1 per turn. *)
Definition combat (self : Player) (r : rng)
  : result (bool * Player * rng * list line) :=
  combat_fuel 50 self r.

(** ** The game loop *)

(** The state of [play_game]: its locals [maze], [player] and [visited],
    the state of [random], and the lines still to be read by [input]. *)
Record Game := {
  maze : Maze;
  player : Player;
  visited_rooms : gset (Z * Z);
  rand : rng;
  stdin : list string
}.

Definition with_player (p : Player) (g : Game) : Game :=
  {| maze := maze g; player := p; visited_rooms := visited_rooms g;
     rand := rand g; stdin := stdin g |}.

Definition with_visited (v : gset (Z * Z)) (g : Game) : Game :=
  {| maze := maze g; player := player g; visited_rooms := v;
     rand := rand g; stdin := stdin g |}.

Definition with_rand (r : rng) (g : Game) : Game :=
  {| maze := maze g; player := player g; visited_rooms := visited_rooms g;
     rand := r; stdin := stdin g |}.

Definition with_stdin (l : list string) (g : Game) : Game :=
  {| maze := maze g; player := player g; visited_rooms := visited_rooms g;
     rand := rand g; stdin := l |}.

(** [input()]: [None] is [EOFError]. *)
Definition input (g : Game) : option (string * Game) :=
  match stdin g with
  | [] => None
  | l :: rest => Some (l, with_stdin rest g)
  end.

(** How a piece of the loop body ends: it falls through to the statement
    that follows it, or executes [continue], or executes [break]. *)
Inductive control := Fallthrough | Continue | Break.

Definition yes_options : list string := ["yes"; "y"].
Definition no_options : list string := ["no"; "n"].

(** A float constant [m / 2^e], and [N / 2^53 < m / 2^e]. *)
Definition float_lt (N : Z) (c : Z * Z) : bool :=
  let '(m, e) := c in N * 2 ^ e <? m * 2 ^ 53.

(** The doubles nearest to 0.1, 0.75 and 0.95. *)
Definition f_0_1 : Z * Z := (3602879701896397, 55).
Definition f_0_75 : Z * Z := (3, 2).
Definition f_0_95 : Z * Z := (4278419646001971, 52).

(** Lines 253-267: the effect of a positive outcome, chosen by its text. *)
Definition apply_positive (outcome : string) (p : Player) : Player :=
  if contains "gold" outcome then set_gold (gold p + 20) p
  else if contains "health" outcome then set_health (health p + 10) p
  else if contains "potion" outcome then add_item "Healing Potion" p
  else if contains "strength" outcome then set_strength (strength p + 1) p
  else if contains "sword" outcome then
    let p := add_item "Sword" p in set_strength (strength p + 2) p
  else if contains "experience" outcome then set_experience (experience p + 50) p
  else if contains "key" outcome then add_item "Key" p
  else p.

(** Lines 271-275: the effect of a negative outcome; the health loss is
    read back from the text. *)
Definition apply_negative (outcome : string) (p : Player) : result Player :=
  if contains "health" outcome then
    tail ← index (split "Lose " outcome) 1;
    word ← index (split " " tail) 0;
    loss ← int word;
    Ret (set_health (health p - loss) p)
  else if contains "gold" outcome then Ret (set_gold (Z.max 0 (gold p - 10)) p)
  else Ret p.

(** Lines 232-249: the combat branch of a room event. *)
Definition combat_encounter (g : Game) : result (control * Game * list line) :=
  '(combat_choice, r) ← choice combat_outcomes (rand g);
  let g := with_rand r g in
  let out := [Text combat_choice; FightPrompt] in
  match input g with
  | None => Ret (Break, g, out ++ [InputClosed])
  | Some (l, g) =>
      let fight_dec := lower (strip l) in
      if negb (str_in fight_dec (yes_options ++ no_options)) then
        Ret (Continue, g, out ++ [PleaseYesNo])
      else if str_in fight_dec yes_options then
        '(won, p, r, fight) ← combat (player g) (rand g);
        let g := with_rand r (with_player p g) in
        Ret (if won : bool then Fallthrough else Break, g, out ++ fight)
      else
        let p := player g in
        Ret (Fallthrough, with_player (set_health (health p - 10) p) g,
             out ++ [Flee])
  end.

(** Lines 224-280: the player accepted the room's choice. *)
Definition accept_choice (g : Game) : result (control * Game * list line) :=
  '(n, r) ← randint 1 100 (rand g);
  let g := with_rand r g in
  if n =? 1 then
    Ret (Break, with_player (set_health 0 (player g)) g, [Catastrophic])
  else
    let '(rnd, r) := random (rand g) in
    let g := with_rand r g in
    '(c, g, out) ←
      (if float_lt rnd f_0_1 then combat_encounter g
       else if float_lt rnd f_0_75 then
         '(outcome, r) ← choice positive_outcomes (rand g);
         Ret (Fallthrough,
              with_player (apply_positive outcome (player g)) (with_rand r g),
              [Text outcome])
       else if float_lt rnd f_0_95 then
         '(outcome, r) ← choice negative_outcomes (rand g);
         p ← apply_negative outcome (player g);
         Ret (Fallthrough, with_player p (with_rand r g), [Text outcome])
       else
         '(outcome, r) ← choice even_outcomes (rand g);
         Ret (Fallthrough, with_rand r g, [Text outcome]));
    match c with
    | Fallthrough =>
        Ret (if is_alive (player g) then Fallthrough else Break, g, out)
    | _ => Ret (c, g, out)
    end.

(** Lines 205-280: the event of a room that is entered for the first
    time. *)
Definition room_event (g : Game) (y x room_id : Z)
  : result (control * Game * list line) :=
  let g := with_visited ({[ (y, x) ]} ∪ visited_rooms g) g in
  description ← index room_descriptions room_id;
  choice_text ← index choices room_id;
  let out := [RoomDescription description; ChoicePrompt choice_text] in
  match input g with
  | None => Ret (Break, g, out ++ [InputClosed])
  | Some (l, g) =>
      let decision := lower (strip l) in
      if negb (str_in decision (yes_options ++ no_options)) then
        Ret (Continue, g, out ++ [PleaseYesNo])
      else if str_in decision yes_options then
        '(c, g, out') ← accept_choice g;
        Ret (c, g, out ++ out')
      else Ret (Fallthrough, g, out)
  end.

(** Lines 288-291: the menu, keyed by [str(i)] for [i] from [first]. *)
Fixpoint door_menu (first : Z) (neighbors : list (string * Z * Z))
  (door_options : gmap string (string * Z * Z))
  : gmap string (string * Z * Z) * list line :=
  match neighbors with
  | [] => (door_options, [])
  | (dir_name, ny, nx) :: rest =>
      let '(m, out) :=
        door_menu (first + 1) rest
          (<[pretty first := (dir_name, ny, nx)]> door_options) in
      (m, DoorOption first dir_name :: out)
  end.

(** Lines 283-309: the door phase. *)
Definition door_phase (g : Game) (y x : Z)
  : result (control * Game * list line) :=
  neighbors ← get_neighbors (maze g) y x;
  match neighbors with
  | [] => Ret (Break, g, [NoDoors])
  | _ =>
      let '(door_options, menu) := door_menu 1 neighbors ∅ in
      let out := AvailableDoors :: menu ++ [DoorPrompt] in
      match input g with
      | None => Ret (Break, g, out ++ [InputClosed])
      | Some (l, g) =>
          let choice := strip l in
          match door_options !! choice with
          | None =>
              Ret (Continue, g,
                   out ++ [PleaseNumber (Z.of_nat (size door_options))])
          | Some (dir_name, ny, nx) =>
              '(n, r) ← randint 1 100 (rand g);
              let g := with_rand r g in
              if n =? 1 then
                Ret (Break, with_player (set_health 0 (player g)) g,
                     out ++ [Trap])
              else
                Ret (Continue,
                     with_player (move_to dir_name ny nx (player g)) g, out)
          end
      end
  end.

(** The statistics line printed at lines 202 and 315. *)
Definition final_stats (p : Player) : line :=
  FinalStats (health p) (strength p) (gold p) (experience p) (inventory p).

(** Lines 205-280: the room event, run on the first visit only. *)
Definition room_phase (g : Game) (y x room_id : Z)
  : result (control * Game * list line) :=
  if bool_decide ((y, x) ∉ visited_rooms g)
  then room_event g y x room_id
  else Ret (Fallthrough, g, []).

(** Lines 197-309: one iteration of the [while] loop. *)
Definition loop_body (g : Game) : result (control * Game * list line) :=
  let '(y, x) := position (player g) in
  let room_id := y * width (maze g) + x in
  if bool_decide ((y, x) = exit_room (maze g)) then
    Ret (Break, g, [FoundExit; final_stats (player g)])
  else
    '(c, g, out) ← room_phase g y x room_id;
    match c with
    | Fallthrough =>
        '(c, g, out') ← door_phase g y x; Ret (c, g, out ++ out')
    | _ => Ret (c, g, out)
    end.

(** Lines 196-309: [while player.is_alive()]; [fuel] bounds the number of
    iterations. *)
Fixpoint game_loop (fuel : nat) (g : Game) : result (Game * list line) :=
  if is_alive (player g) then
    match fuel with
    | O => OutOfFuel
    | S fuel' =>
        '(c, g', out) ← loop_body g;
        match c with
        | Break => Ret (g', out)
        | _ => '(g'', out') ← game_loop fuel' g'; Ret (g'', out ++ out')
        end
    end
  else Ret (g, []).

(** Lines 311-315: the report after the loop. *)
Definition report (p : Player) : list line :=
  [if is_alive p then Congratulations else GameOver; final_stats p].

(** The loop and the report, from any state of the game. *)
Definition session (fuel : nat) (g : Game) : result (Player * list line) :=
  '(g', out) ← game_loop fuel g;
  Ret (player g', out ++ report (player g')).

(** Lines 190-192. *)
Definition new_game (r : rng) (lines : list string) : result Game :=
  '(m, r') ← Maze_init 5 5 r;
  Ret {| maze := m; player := Player_init; visited_rooms := ∅;
         rand := r'; stdin := lines |}.

(** [play_game], with the iterations of the turn loop bounded by [fuel]. *)
Definition play_game_fuel (fuel : nat) (r : rng) (lines : list string)
  : result (Player * list line) :=
  g ← new_game r lines;
  '(p, out) ← session fuel g;
  Ret (p, Welcome :: out).

(** Every iteration that does not leave the loop reads a line, so one
    iteration more than there are lines is enough. *)
Definition play_game (r : rng) (lines : list string)
  : result (Player * list line) :=
  play_game_fuel (S (length lines)) r lines.


(** ** Specification vocabulary *)

(** The door list stored for room [(y, x)]. *)
Definition cell_at (cs : list (list (list Z))) (y x : Z) : list Z :=
  match grid_get cs y x with Ret c => c | _ => [] end.

Definition vis_at (vis : list (list bool)) (y x : Z) : bool :=
  match grid_get vis y x with Ret b => b | _ => false end.

(** A grid of [h] rows of [w] entries. *)
Definition grid_shape {A} (w h : Z) (g : list (list A)) : Prop :=
  length g = Z.to_nat h ∧ Forall (fun row => length row = Z.to_nat w) g.

Definition inb (w h y x : Z) : Prop := 0 <= y < h ∧ 0 <= x < w.

(** The rows of [directions], read as functions of the direction. *)
Definition delta (d : Z) : Z * Z :=
  if d =? 0 then (-1, 0) else if d =? 1 then (1, 0)
  else if d =? 2 then (0, 1) else (0, -1).

Definition opposite (d : Z) : Z :=
  if d =? 0 then 1 else if d =? 1 then 0 else if d =? 2 then 3 else 2.

Definition toward (y x d : Z) : Z * Z := (y + (delta d).1, x + (delta d).2).

(** Rooms that can be reached from [(0, 0)] by the moves that
    [get_neighbors] offers. *)
Inductive reachable (m : Maze) : Z → Z → Prop :=
| reachable_start : reachable m 0 0
| reachable_door y x ns dir_name ny nx :
    reachable m y x →
    get_neighbors m y x = Ret ns →
    (dir_name, ny, nx) ∈ ns →
    reachable m ny nx.

(** The same, on the grid of door lists. *)
Inductive reach (w h : Z) (cs : list (list (list Z))) : Z → Z → Prop :=
| reach_start : reach w h cs 0 0
| reach_door y x d :
    reach w h cs y x →
    inb w h y x →
    d ∈ cell_at cs y x →
    reach w h cs (toward y x d).1 (toward y x d).2.

(** Doors are well formed: each stored direction is one of the four,
    leads to a room of the grid, is matched by the opposite direction in
    that room, and is stored once. *)
Record doors_ok (w h : Z) (cs : list (list (list Z))) : Prop := {
  ok_shape : grid_shape w h cs;
  ok_dir : ∀ y x d, inb w h y x → d ∈ cell_at cs y x →
           0 <= d <= 3 ∧ inb w h (toward y x d).1 (toward y x d).2;
  ok_sym : ∀ y x d, inb w h y x → d ∈ cell_at cs y x →
           opposite d ∈ cell_at cs (toward y x d).1 (toward y x d).2;
  ok_nodup : ∀ y x, inb w h y x → NoDup (cell_at cs y x)
}.

(** The invariant of the [while stack:] loop. *)
Record dfs_inv (w h : Z) (cs : list (list (list Z)))
  (vis : list (list bool)) (stack : list (Z * Z)) : Prop := {
  di_doors : doors_ok w h cs;
  di_shape : grid_shape w h vis;
  di_origin : vis_at vis 0 0 = true;
  di_stack : ∀ y x, (y, x) ∈ stack → inb w h y x ∧ vis_at vis y x = true;
  di_vis : ∀ y x d, inb w h y x → d ∈ cell_at cs y x →
           vis_at vis (toward y x d).1 (toward y x d).2 = true;
  di_reach : ∀ y x, inb w h y x → vis_at vis y x = true → reach w h cs y x;
  di_closed : ∀ y x d, inb w h y x → vis_at vis y x = true →
              (y, x) ∉ stack → 0 <= d <= 3 →
              inb w h (toward y x d).1 (toward y x d).2 →
              vis_at vis (toward y x d).1 (toward y x d).2 = true
}.

(** The number of rooms not yet visited. *)
Definition unvisited (vis : list (list bool)) : nat :=
  sum_list (map (fun row => length (List.filter negb row)) vis).

(** Doors are only ever added, at the end of a list. *)
Definition grows (w h : Z) (cs cs' : list (list (list Z))) : Prop :=
  ∀ y x, inb w h y x → cell_at cs y x `prefix_of` cell_at cs' y x.

(** The rank of a direction name in the order North, South, East, West. *)
Definition priority (dir_name : string) : Z :=
  if String.eqb dir_name "North" then 0
  else if String.eqb dir_name "South" then 1
  else if String.eqb dir_name "East" then 2
  else 3.

(** The names appear in strictly increasing priority. *)
Fixpoint priority_ordered (names : list string) : bool :=
  match names with
  | a :: (b :: _) as rest => (priority a <? priority b) && priority_ordered rest
  | _ => true
  end.

(** The name [get_neighbors] gives to a stored direction. *)
Definition dir_name_of (d : Z) : string :=
  if d =? 0 then "North" else if d =? 1 then "South"
  else if d =? 2 then "East" else "West".

(** The effect fixed for each entry of [positive_outcomes], by position. *)
Definition positive_effect (i : nat) (p : Player) : Player :=
  match i with
  | 0%nat => set_gold (gold p + 20) p
  | 1%nat => set_health (health p + 10) p
  | 2%nat => add_item "Healing Potion" p
  | 3%nat => set_strength (strength p + 1) p
  | 4%nat => set_strength (strength p + 2) (add_item "Sword" p)
  | 5%nat => set_experience (experience p + 50) p
  | _ => add_item "Key" p
  end.

(** The effect fixed for each entry of [negative_outcomes], by position. *)
Definition negative_effect (i : nat) (p : Player) : Player :=
  match i with
  | 0%nat => set_health (health p - 15) p
  | 1%nat => set_health (health p - 10) p
  | 2%nat => set_gold (Z.max 0 (gold p - 10)) p
  | _ => set_health (health p - 20) p
  end.

(** ** Sessions *)

(** [iterates g0 n g out]: starting from [g0], the loop has run [n] full
    iterations without leaving, has printed [out] and is back at its
    head in state [g]. *)
Inductive iterates (g0 : Game) : nat → Game → list line → Prop :=
| iterates_O : iterates g0 O g0 []
| iterates_S n g out c g' out' :
    iterates g0 n g out →
    is_alive (player g) = true →
    loop_body g = Ret (c, g', out') →
    c ≠ Break →
    iterates g0 (S n) g' (out ++ out').

(** What holds of the game at the head of every iteration of a session on
    the default maze. *)
Record game_ok (g : Game) : Prop := {
  gk_width : width (maze g) = 5;
  gk_height : height (maze g) = 5;
  gk_doors : doors_ok 5 5 (cells (maze g));
  gk_degree : ∀ y x, inb 5 5 y x →
              (2 <= length (cell_at (cells (maze g)) y x))%nat;
  gk_pos : inb 5 5 (position (player g)).1 (position (player g)).2;
  gk_strength : 1 <= strength (player g)
}.

(** The lines that announce an escape. *)
Definition escape_line (l : line) : bool :=
  match l with
  | FoundExit | Congratulations => true
  | _ => false
  end.

(** What a piece of the loop body guarantees about the game it returns:
    the maze is the same, the player is still strong enough to fight,
    lines are only consumed, and nothing printed announces an escape. *)
Definition steady (g g' : Game) (out : list line) : Prop :=
  maze g' = maze g ∧ 1 <= strength (player g') ∧
  (length (stdin g') <= length (stdin g))%nat ∧
  Forall (fun l => escape_line l = false) out.

(** [reads_eof g p]: the iteration that starts in [g] reaches one of the
    three prompts with the input stream at its end, and [p] is the
    player as it is at that read.  At the room prompt and at the fight
    prompt nothing has touched the player since the head of the loop; at
    the door prompt the room phase has run and left the game [g1]. *)
Inductive reads_eof (g : Game) : Player → Prop :=
| eof_room_prompt y x :
    position (player g) = (y, x) →
    (y, x) ∉ visited_rooms g →
    stdin g = [] →
    reads_eof g (player g)
| eof_fight_prompt y x l :
    position (player g) = (y, x) →
    (y, x) ∉ visited_rooms g →
    stdin g = [l] →
    str_in (lower (strip l)) yes_options = true →
    rand g 0%nat mod 100 ≠ 0 →
    float_lt (rand g 1%nat mod 2 ^ 53) f_0_1 = true →
    reads_eof g (player g)
| eof_door_prompt y x g1 out1 :
    position (player g) = (y, x) →
    room_phase g y x (y * width (maze g) + x) = Ret (Fallthrough, g1, out1) →
    stdin g1 = [] →
    reads_eof g (player g1).

(** What a piece of the loop body that ends with [c] guarantees when it
    does not move the player: [steady], the same position, and a line
    consumed whenever it ends in [continue]. *)
Definition phase_post (g : Game) (c : control) (g' : Game) (out : list line)
  : Prop :=
  steady g g' out ∧ position (player g') = position (player g) ∧
  (c = Continue → (length (stdin g') < length (stdin g))%nat).

(** A concrete stream: every draw is [v]. *)
Definition constant_stream (v : Z) : rng := fun _ => v.

(** ** Vocabulary for further properties *)

(** The number of grid neighbours of room [(y, x)]: the rows of
    [directions] that stay inside the grid. *)
Definition grid_degree (w h y x : Z) : nat :=
  length (List.filter (fun '(dy, dx, _, _) => in_bounds w h (y + dy) (x + dx))
            directions).

(** The three rewards of a won combat (lines 171-178): each changes one
    field of the player. *)
Definition combat_reward (p p' : Player) : Prop :=
  p' = set_gold (gold p + 30) p ∨
  p' = set_experience (experience p + 100) p ∨
  p' = add_item "Healing Potion" p.

(** Between two states of the player: strength and experience have not
    decreased, the inventory has only been appended to, and gold has not
    become negative. *)
Definition stats_mono (p p' : Player) : Prop :=
  strength p <= strength p' ∧ experience p <= experience p' ∧
  inventory p `prefix_of` inventory p' ∧ (0 <= gold p → 0 <= gold p').

(** The lines other than a room description and the no-doors error. *)
Definition plain_line (l : line) : bool :=
  match l with
  | RoomDescription _ | NoDoors => false
  | _ => true
  end.

(** The room descriptions printed, in order. *)
Definition narrated (out : list line) : list string :=
  omap (fun l => match l with RoomDescription t => Some t | _ => None end) out.

(** What the pieces of a room event guarantee: nothing but the player's
    statistics, the draws and the input changes, and only plain lines are
    printed. *)
Definition event_summary (g g' : Game) (out : list line) : Prop :=
  maze g' = maze g ∧ visited_rooms g' = visited_rooms g ∧
  position (player g') = position (player g) ∧
  previous_door (player g') = previous_door (player g) ∧
  stats_mono (player g) (player g') ∧
  Forall (fun l => plain_line l = true) out.

(** What holds at the head of every iteration of a session, of the game
    and of the lines printed so far: the player's statistics are in
    range, the descriptions printed are those of the rooms visited, one
    for each, and the exit room is not among them. *)
Record session_inv (g : Game) (out : list line) : Prop := {
  si_game : game_ok g;
  si_strength : 10 <= strength (player g);
  si_gold : 0 <= gold (player g);
  si_experience : 0 <= experience (player g);
  si_rooms : ∃ rooms : list (Z * Z),
      NoDup rooms ∧ (∀ p, p ∈ rooms ↔ p ∈ visited_rooms g) ∧
      Forall (fun p => inb 5 5 p.1 p.2) rooms ∧
      Forall2 (fun p d => index room_descriptions (p.1 * 5 + p.2) = Ret d)
              rooms (narrated out);
  si_exit : exit_room (maze g) ∉ visited_rooms g;
  si_exit_in : inb 5 5 (exit_room (maze g)).1 (exit_room (maze g)).2;
  si_no_doors_error : Forall (fun l => l ≠ NoDoors) out
}.

(** Every position of the default grid, row by row. *)
Definition all_rooms : list (Z * Z) :=
  y ← seqZ 0 5; x ← seqZ 0 5; [(y, x)].

(** Lines 287-295: what the door phase prints before it reads the answer,
    for a room whose stored doors are [cell]. *)
Definition door_listing (cell : list Z) : list line :=
  AvailableDoors ::
  imap (fun i d => DoorOption (1 + Z.of_nat i) (dir_name_of d)) cell ++
  [DoorPrompt].

(** ** Proof tactics *)

Ltac dir_cases d :=
  let H := fresh in
  assert (H : d = 0 ∨ d = 1 ∨ d = 2 ∨ d = 3) by lia;
  destruct H as [-> | [-> | [-> | ->]]].

Ltac pair_subst H :=
  match type of H with
  | (?a, ?b) = ?t =>
      assert (a = t.1 ∧ b = t.2) as [-> ->] by (rewrite <- H; done)
  end.

Ltac quiet := repeat (constructor; try done).

Ltac game_simpl :=
  cbn [maze player visited_rooms rand stdin
       with_player with_visited with_rand with_stdin
       health strength gold experience inventory position previous_door
       set_health set_strength set_gold set_experience add_item move_to] in *.

Ltac post :=
  unfold phase_post, steady; game_simpl;
  repeat match goal with H : stdin _ = _ |- _ => rewrite !H end;
  cbn [length];
  repeat split; try done; try lia; try (by quiet).

Ltac door_post :=
  unfold steady; game_simpl;
  repeat match goal with H : stdin _ = _ |- _ => rewrite !H end;
  cbn [length fst snd]; unfold inb in *;
  repeat split; try done; try lia;
  try (constructor; [done|]; rewrite !Forall_app; repeat split; try done; quiet).

Ltac summ :=
  unfold event_summary, stats_mono; game_simpl;
  repeat split; try done; try lia;
  try (by apply prefix_app_r);
  try (by repeat (constructor; try done)).

Ltac run_iterations n :=
  lazymatch n with
  | O => apply iterates_O
  | S ?k =>
      eapply iterates_S;
      [run_iterations k|reflexivity|vm_compute; reflexivity|discriminate]
  end.

(* ================================================================== *)
(** * Part II: lemmas and theorems *)
(* ================================================================== *)

(** ** The error monad *)

Lemma bind_Ret {A B} (m : result A) (f : A → result B) (b : B) :
  m ≫= f = Ret b → ∃ a, m = Ret a ∧ f a = Ret b.
Proof. destruct m; simpl; intros; eauto; discriminate. Qed.

(** ** Indexing *)

Lemma norm_index_inb n i :
  0 <= i < Z.of_nat n → norm_index n i = Some (Z.to_nat i).
Proof.
  intros Hi. unfold norm_index.
  destruct (Z.ltb_spec i 0); [lia|].
  destruct (Z.leb_spec 0 i); [|lia].
  destruct (Z.ltb_spec i (Z.of_nat n)); [done|lia].
Qed.

Lemma index_inb {A} (l : list A) i :
  0 <= i < Z.of_nat (length l) →
  ∃ a, index l i = Ret a ∧ l !! Z.to_nat i = Some a.
Proof.
  intros Hi. unfold index. rewrite norm_index_inb by done.
  destruct (lookup_lt_is_Some_2 l (Z.to_nat i)) as [a Ha]; [lia|].
  rewrite Ha. eauto.
Qed.

Lemma store_inb {A} (l : list A) i a :
  0 <= i < Z.of_nat (length l) → store l i a = Ret (<[Z.to_nat i := a]> l).
Proof. intros Hi. unfold store. by rewrite norm_index_inb. Qed.

Lemma grid_shape_row {A} w h (g : list (list A)) k row :
  grid_shape w h g → g !! k = Some row → length row = Z.to_nat w.
Proof.
  intros [_ Hrows] Hk. rewrite Forall_forall in Hrows.
  apply Hrows. by eapply list_elem_of_lookup_2.
Qed.

Lemma grid_get_inb {A} w h (g : list (list A)) y x :
  grid_shape w h g → inb w h y x →
  ∃ row a, g !! Z.to_nat y = Some row ∧ row !! Z.to_nat x = Some a ∧
           grid_get g y x = Ret a.
Proof.
  intros Hs [Hy Hx]. unfold grid_get.
  destruct (index_inb g y) as (row & -> & Hrow); [destruct Hs; lia|].
  pose proof (grid_shape_row _ _ _ _ _ Hs Hrow) as Hlen.
  destruct (index_inb row x) as (a & Ha & Hcell); [lia|].
  exists row, a. simpl. by rewrite Ha.
Qed.

Lemma grid_get_lookup {A} w h (g : list (list A)) y x row a :
  grid_shape w h g → inb w h y x →
  g !! Z.to_nat y = Some row → row !! Z.to_nat x = Some a →
  grid_get g y x = Ret a.
Proof.
  intros Hs Hi Hrow Ha.
  destruct (grid_get_inb w h g y x Hs Hi) as (row' & a' & Hr' & Ha' & ->).
  congruence.
Qed.

Lemma grid_set_inb {A} w h (g : list (list A)) y x a :
  grid_shape w h g → inb w h y x →
  ∃ g', grid_set g y x a = Ret g' ∧ grid_shape w h g' ∧
        grid_get g' y x = Ret a ∧
        ∀ y' x', inb w h y' x' → (y', x') ≠ (y, x) →
                 grid_get g' y' x' = grid_get g y' x'.
Proof.
  intros Hs Hi.
  destruct (grid_get_inb w h g y x Hs Hi) as (row & a0 & Hrow & Ha0 & _).
  pose proof (grid_shape_row _ _ _ _ _ Hs Hrow) as Hlen.
  destruct Hi as [Hy Hx]. destruct Hs as [Hh Hrows].
  unfold grid_set, index at 1. rewrite norm_index_inb by lia. rewrite Hrow.
  simpl. rewrite store_inb by lia. simpl. rewrite store_inb by lia.
  eexists; split; [done|].
  assert (Hs' : grid_shape w h (<[Z.to_nat y := <[Z.to_nat x := a]> row]> g)).
  { split; [by rewrite length_insert|].
    apply Forall_insert; [done|]. by rewrite length_insert. }
  split; [done|]. split.
  - eapply grid_get_lookup; [done|done| |].
    + apply list_lookup_insert_eq. lia.
    + apply list_lookup_insert_eq. lia.
  - intros y' x' Hi' Hne.
    destruct (grid_get_inb w h g y' x' (conj Hh Hrows) Hi')
      as (row' & a' & Hrow' & Ha' & ->).
    assert (Hi'' := Hi'). destruct Hi'' as [Hy'' Hx''].
    destruct (decide (y' = y)) as [->|Hy'].
    + assert (x' ≠ x) by congruence.
      eapply grid_get_lookup; [done|done| |].
      * apply list_lookup_insert_eq. lia.
      * rewrite list_lookup_insert_ne by lia. congruence.
    + eapply grid_get_lookup; [done|done| |done].
      rewrite list_lookup_insert_ne by lia. done.
Qed.

Lemma cell_at_get w h (cs : list (list (list Z))) y x :
  grid_shape w h cs → inb w h y x → grid_get cs y x = Ret (cell_at cs y x).
Proof.
  intros Hs Hi. unfold cell_at.
  by destruct (grid_get_inb w h cs y x Hs Hi) as (? & ? & _ & _ & ->).
Qed.

Lemma vis_at_get w h (vis : list (list bool)) y x :
  grid_shape w h vis → inb w h y x → grid_get vis y x = Ret (vis_at vis y x).
Proof.
  intros Hs Hi. unfold vis_at.
  by destruct (grid_get_inb w h vis y x Hs Hi) as (? & ? & _ & _ & ->).
Qed.

Lemma in_bounds_inb w h y x : in_bounds w h y x = true ↔ inb w h y x.
Proof. unfold in_bounds, inb. rewrite !andb_true_iff. lia. Qed.

Lemma in_bounds_false w h y x : in_bounds w h y x = false ↔ ¬ inb w h y x.
Proof.
  rewrite <- in_bounds_inb. destruct (in_bounds w h y x); split; congruence.
Qed.

(** ** Directions *)

Lemma directions_spec dy dx d opp :
  (dy, dx, d, opp) ∈ directions ↔
  0 <= d <= 3 ∧ dy = (delta d).1 ∧ dx = (delta d).2 ∧ opp = opposite d.
Proof.
  unfold directions. rewrite !elem_of_cons, elem_of_nil. split.
  - intros [H | [H | [H | [H | []]]]]; inversion H; subst; cbn; lia.
  - intros (Hd & -> & -> & ->). dir_cases d; cbn; tauto.
Qed.

Lemma opposite_range d : 0 <= d <= 3 → 0 <= opposite d <= 3.
Proof. intros. dir_cases d; cbn; lia. Qed.

Lemma opposite_involutive d : 0 <= d <= 3 → opposite (opposite d) = d.
Proof. intros. dir_cases d; reflexivity. Qed.

Lemma toward_back y x d :
  0 <= d <= 3 →
  toward (toward y x d).1 (toward y x d).2 (opposite d) = (y, x).
Proof. intros. dir_cases d; unfold toward; cbn; f_equal; lia. Qed.

Lemma toward_ne y x d : 0 <= d <= 3 → toward y x d ≠ (y, x).
Proof.
  intros Hd Heq. dir_cases d; unfold toward in Heq; cbn in Heq;
    inversion Heq; lia.
Qed.

Lemma toward_eta y x d : ((toward y x d).1, (toward y x d).2) = toward y x d.
Proof. by destruct (toward y x d). Qed.

(** ** Carving a door *)

Lemma grid_append_inb w h (cs : list (list (list Z))) y x d :
  grid_shape w h cs → inb w h y x →
  ∃ cs', grid_append cs y x d = Ret cs' ∧ grid_shape w h cs' ∧
    ∀ y' x', inb w h y' x' →
      cell_at cs' y' x' =
      cell_at cs y' x' ++ (if decide ((y', x') = (y, x)) then [d] else []).
Proof.
  intros Hs Hi. unfold grid_append.
  rewrite (cell_at_get w h) by done. simpl.
  destruct (grid_set_inb w h cs y x (cell_at cs y x ++ [d]) Hs Hi)
    as (cs' & -> & Hs' & Hget & Hother).
  exists cs'. split; [done|]. split; [done|].
  intros y' x' Hi'. unfold cell_at at 1.
  case_decide as Heq.
  - inversion Heq; subst. by rewrite Hget.
  - rewrite Hother by done. rewrite app_nil_r. done.
Qed.

Lemma carve_inb w h cs y x ny nx d opp :
  grid_shape w h cs → inb w h y x → inb w h ny nx →
  ∃ cs', carve cs y x ny nx d opp = Ret cs' ∧ grid_shape w h cs' ∧
    ∀ y' x', inb w h y' x' →
      cell_at cs' y' x' =
      cell_at cs y' x'
      ++ (if decide ((y', x') = (y, x)) then [d] else [])
      ++ (if decide ((y', x') = (ny, nx)) then [opp] else []).
Proof.
  intros Hs Hi Hn. unfold carve.
  destruct (grid_append_inb w h cs y x d Hs Hi) as (cs1 & -> & Hs1 & H1).
  simpl.
  destruct (grid_append_inb w h cs1 ny nx opp Hs1 Hn) as (cs2 & -> & Hs2 & H2).
  exists cs2. split; [done|]. split; [done|].
  intros y' x' Hi'. rewrite H2, H1 by done. by rewrite <- app_assoc.
Qed.

Lemma carve_ok w h cs y x d :
  doors_ok w h cs → inb w h y x → 0 <= d <= 3 →
  inb w h (toward y x d).1 (toward y x d).2 →
  d ∉ cell_at cs y x →
  ∃ cs', carve cs y x (toward y x d).1 (toward y x d).2 d (opposite d) = Ret cs' ∧
    doors_ok w h cs' ∧ grows w h cs cs' ∧
    cell_at cs' y x = cell_at cs y x ++ [d] ∧
    (∀ y' x', inb w h y' x' → (y', x') ≠ (y, x) →
      (y', x') ≠ toward y x d → cell_at cs' y' x' = cell_at cs y' x') ∧
    ∀ y' x' e, inb w h y' x' → e ∈ cell_at cs' y' x' →
      e ∈ cell_at cs y' x' ∨ ((y', x') = (y, x) ∧ e = d) ∨
      ((y', x') = toward y x d ∧ e = opposite d).
Proof.
  intros Hok Hi Hd Hn Hfresh.
  destruct (carve_inb w h cs y x _ _ d (opposite d) (ok_shape _ _ _ Hok) Hi Hn)
    as (cs' & Hc & Hs' & Hcell).
  rewrite toward_eta in Hcell.
  pose proof (toward_ne y x d Hd) as Hne.
  assert (Hback := toward_back y x d Hd).
  assert (Hat : cell_at cs' y x = cell_at cs y x ++ [d]).
  { rewrite Hcell by done. rewrite decide_True by done.
    rewrite decide_False by done. by rewrite app_nil_r. }
  assert (Hat' : cell_at cs' (toward y x d).1 (toward y x d).2 =
                 cell_at cs (toward y x d).1 (toward y x d).2 ++ [opposite d]).
  { rewrite Hcell by done. rewrite toward_eta. rewrite decide_False by done.
    rewrite decide_True by done. done. }
  assert (Hmem : ∀ y' x' e, inb w h y' x' → e ∈ cell_at cs' y' x' →
            e ∈ cell_at cs y' x' ∨ ((y', x') = (y, x) ∧ e = d) ∨
            ((y', x') = toward y x d ∧ e = opposite d)).
  { intros y' x' e Hi' He. rewrite Hcell in He by done.
    rewrite !elem_of_app in He. destruct He as [He | [He | He]]; [by left| |].
    - case_decide; [|by apply elem_of_nil in He].
      apply list_elem_of_singleton in He. right; left. done.
    - case_decide; [|by apply elem_of_nil in He].
      apply list_elem_of_singleton in He. right; right. done. }
  assert (Hmono : ∀ y' x' e, inb w h y' x' → e ∈ cell_at cs y' x' →
            e ∈ cell_at cs' y' x').
  { intros y' x' e Hi' He. rewrite Hcell by done. rewrite elem_of_app. by left. }
  exists cs'. split; [done|]. split; [|split; [|split; [done|split; [|done]]]].
  - split.
    + done.
    + intros y' x' e Hi' He.
      destruct (Hmem y' x' e Hi' He) as [Hin | [[Heq ->] | [Heq ->]]].
      * by apply (ok_dir _ _ _ Hok).
      * inversion Heq; subst. done.
      * pair_subst Heq.
        split; [by apply opposite_range|]. by rewrite Hback.
    + intros y' x' e Hi' He.
      destruct (Hmem y' x' e Hi' He) as [Hin | [[Heq ->] | [Heq ->]]].
      * apply Hmono; [by apply (ok_dir _ _ _ Hok)|].
        by apply (ok_sym _ _ _ Hok).
      * inversion Heq; subst. rewrite Hat'. rewrite elem_of_app. right.
        by apply list_elem_of_singleton.
      * pair_subst Heq.
        rewrite Hback. simpl. rewrite opposite_involutive by done.
        rewrite Hat. rewrite elem_of_app. right.
        by apply list_elem_of_singleton.
    + intros y' x' Hi'. rewrite Hcell by done.
      destruct (decide ((y', x') = (y, x))) as [Heq|Hne1].
      * inversion Heq; subst. rewrite decide_False by done.
        rewrite app_nil_r. apply NoDup_app. split; [by apply (ok_nodup _ _ _ Hok)|].
        split; [|apply NoDup_singleton].
        intros e He He'. apply list_elem_of_singleton in He'. by subst.
      * destruct (decide ((y', x') = toward y x d)) as [Heq|Hne2].
        -- simpl. apply NoDup_app. split; [by apply (ok_nodup _ _ _ Hok)|].
           split; [|apply NoDup_singleton].
           intros e He He'. apply list_elem_of_singleton in He'. subst e.
           pair_subst Heq.
           apply (ok_sym _ _ _ Hok) in He; [|done].
           rewrite Hback in He. simpl in He.
           by rewrite opposite_involutive in He.
        -- simpl. rewrite app_nil_r. by apply (ok_nodup _ _ _ Hok).
  - intros y' x' Hi'. rewrite Hcell by done. by apply prefix_app_r.
  - intros y' x' Hi' Hne1 Hne2. rewrite Hcell by done.
    rewrite !decide_False by done. by rewrite app_nil_r.
Qed.

Lemma reach_grows w h cs cs' y x :
  grows w h cs cs' → reach w h cs y x → reach w h cs' y x.
Proof.
  intros Hg. induction 1 as [|y x d _ IH Hi Hd]; [constructor|].
  apply reach_door; [done|done|].
  destruct (Hg y x Hi) as [k ->]. rewrite elem_of_app. by left.
Qed.

Lemma grows_refl w h cs : grows w h cs cs.
Proof. by intros y x _. Qed.

Lemma grows_trans w h cs1 cs2 cs3 :
  grows w h cs1 cs2 → grows w h cs2 cs3 → grows w h cs1 cs3.
Proof. intros H1 H2 y x Hi. etrans; [by apply H1|by apply H2]. Qed.

(** ** Library calls *)

Lemma randbelow_lt n r : (0 < n)%nat → ((randbelow n r).1 < n)%nat.
Proof.
  intros Hn. unfold randbelow. simpl.
  pose proof (Z.mod_pos_bound (r 0%nat) (Z.of_nat n)). lia.
Qed.

Lemma choice_unfold {A} (l : list A) r :
  l ≠ [] →
  choice l r =
  let '(k, r') := randbelow (length l) r in
  match l !! k with Some a => Ret (a, r') | None => Raise IndexError end.
Proof. by destruct l. Qed.

Lemma choice_elem {A} (l : list A) r :
  l ≠ [] → ∃ a r', choice l r = Ret (a, r') ∧ a ∈ l.
Proof.
  intros Hl. rewrite choice_unfold by done.
  assert (Hlen : (0 < length l)%nat) by (destruct l; [done|simpl; lia]).
  pose proof (randbelow_lt (length l) r Hlen) as Hk.
  destruct (randbelow (length l) r) as [k r'] eqn:Ek. simpl in Hk.
  destruct (lookup_lt_is_Some_2 l k Hk) as [a Ha].
  exists a, r'. rewrite Ha. split; [done|]. by eapply list_elem_of_lookup_2.
Qed.

Lemma shuffle_n_unfold {A} n (l : list A) r :
  l ≠ [] →
  shuffle_n (S n) l r =
  let '(k, r1) := randbelow (length l) r in
  match l !! k with
  | Some a => let '(rest, r2) := shuffle_n n (delete k l) r1 in (a :: rest, r2)
  | None => ([], r1)
  end.
Proof. by destruct l. Qed.

Lemma shuffle_n_perm {A} n (l : list A) r :
  (length l <= n)%nat → (shuffle_n n l r).1 ≡ₚ l.
Proof.
  revert l r. induction n as [|n IH]; intros l r Hn.
  - destruct l; [done|simpl in Hn; lia].
  - destruct (decide (l = [])) as [->|Hl]; [done|].
    rewrite shuffle_n_unfold by done.
    assert (Hlen : (0 < length l)%nat) by (destruct l; [done|simpl; lia]).
    pose proof (randbelow_lt (length l) r Hlen) as Hk.
    destruct (randbelow (length l) r) as [k r1] eqn:Ek. simpl in Hk.
    destruct (lookup_lt_is_Some_2 l k Hk) as [a Ha]. rewrite Ha.
    assert (Hdel : (length (delete k l) <= n)%nat).
    { rewrite length_delete by eauto. lia. }
    specialize (IH (delete k l) r1 Hdel).
    destruct (shuffle_n n (delete k l) r1) as [rest r2]. simpl in *.
    rewrite IH. symmetry. by apply delete_Permutation.
Qed.

Lemma shuffle_perm {A} (l : list A) r : (shuffle l r).1 ≡ₚ l.
Proof. by apply shuffle_n_perm. Qed.

(** ** The depth-first phase *)

Lemma unvisited_neighbors_spec w h vis y x ds :
  grid_shape w h vis →
  ∃ un, unvisited_neighbors w h vis y x ds = Ret un ∧
    ∀ e, e ∈ un ↔
      ∃ dy dx d opp, (dy, dx, d, opp) ∈ ds ∧ e = (y + dy, x + dx, d, opp) ∧
        inb w h (y + dy) (x + dx) ∧ vis_at vis (y + dy) (x + dx) = false.
Proof.
  intros Hs. induction ds as [|[[[dy dx] d] opp] ds (un & IHun & IH)].
  - exists []. split; [done|]. intros e. split.
    + by intros ?%elem_of_nil.
    + intros (? & ? & ? & ? & ?%elem_of_nil & _). done.
  - simpl. rewrite IHun.
    destruct (in_bounds w h (y + dy) (x + dx)) eqn:Eb.
    + apply in_bounds_inb in Eb.
      rewrite (vis_at_get w h) by done. simpl.
      destruct (vis_at vis (y + dy) (x + dx)) eqn:Ev; simpl.
      * exists un. split; [done|]. intros e. rewrite IH. split.
        -- intros (dy' & dx' & d' & o' & Hin & He).
           exists dy', dx', d', o'. split; [by right|done].
        -- intros (dy' & dx' & d' & o' & Hin & He & Hi & Hv).
           apply elem_of_cons in Hin as [Heq|Hin].
           ++ inversion Heq; subst. congruence.
           ++ by exists dy', dx', d', o'.
      * eexists. split; [done|]. intros e. rewrite elem_of_cons, IH. split.
        -- intros [-> | (dy' & dx' & d' & o' & Hin & He)].
           ++ exists dy, dx, d, opp. split; [by left|done].
           ++ exists dy', dx', d', o'. split; [by right|done].
        -- intros (dy' & dx' & d' & o' & Hin & He & Hi & Hv).
           apply elem_of_cons in Hin as [Heq|Hin].
           ++ inversion Heq; subst. by left.
           ++ right. by exists dy', dx', d', o'.
    + simpl. apply in_bounds_false in Eb.
      exists un. split; [done|]. intros e. rewrite IH. split.
      * intros (dy' & dx' & d' & o' & Hin & He).
        exists dy', dx', d', o'. split; [by right|done].
      * intros (dy' & dx' & d' & o' & Hin & He & Hi & Hv).
        apply elem_of_cons in Hin as [Heq|Hin].
        -- inversion Heq; subst. done.
        -- by exists dy', dx', d', o'.
Qed.

Lemma filter_insert_true (row : list bool) k :
  row !! k = Some false →
  (length (List.filter negb (<[k := true]> row)) + 1)%nat =
  length (List.filter negb row).
Proof.
  revert k. induction row as [|b row IH]; intros [|k] Hk; try done.
  - simpl in Hk. inversion Hk; subst. simpl. lia.
  - simpl in Hk. specialize (IH k Hk). simpl.
    destruct b; simpl; lia.
Qed.

Lemma sum_insert {A} (f : A → nat) (g : list A) k a a' :
  g !! k = Some a → (f a' + 1)%nat = f a →
  (sum_list (map f (<[k := a']> g)) + 1)%nat = sum_list (map f g).
Proof.
  revert k. induction g as [|b g IH]; intros [|k] Hk Hf; try done.
  - simpl in Hk. inversion Hk; subst. simpl. lia.
  - simpl in Hk. specialize (IH k Hk Hf). simpl. lia.
Qed.

Lemma grid_set_explicit {A} w h (g : list (list A)) y x a row :
  grid_shape w h g → inb w h y x → g !! Z.to_nat y = Some row →
  grid_set g y x a = Ret (<[Z.to_nat y := <[Z.to_nat x := a]> row]> g).
Proof.
  intros Hs [Hy Hx] Hrow.
  pose proof (grid_shape_row _ _ _ _ _ Hs Hrow) as Hlen.
  destruct Hs as [Hh Hrows].
  unfold grid_set, index at 1. rewrite norm_index_inb by lia. rewrite Hrow.
  simpl. rewrite store_inb by lia. simpl. by rewrite store_inb by lia.
Qed.

Lemma unvisited_mark w h vis y x vis' :
  grid_shape w h vis → inb w h y x → vis_at vis y x = false →
  grid_set vis y x true = Ret vis' →
  (unvisited vis' + 1)%nat = unvisited vis.
Proof.
  intros Hs Hi Hv Hset.
  destruct (grid_get_inb w h vis y x Hs Hi) as (row & b & Hrow & Hb & Hget).
  unfold vis_at in Hv. rewrite Hget in Hv. subst b.
  rewrite (grid_set_explicit w h vis y x true row) in Hset by done.
  inversion Hset; subst. unfold unvisited.
  apply sum_insert with (a := row); [done|]. by apply filter_insert_true.
Qed.

Lemma mark_visited w h vis ny nx :
  grid_shape w h vis → inb w h ny nx →
  ∃ vis', grid_set vis ny nx true = Ret vis' ∧ grid_shape w h vis' ∧
    ∀ y' x', inb w h y' x' →
      vis_at vis' y' x' =
      if decide ((y', x') = (ny, nx)) then true else vis_at vis y' x'.
Proof.
  intros Hs Hi.
  destruct (grid_set_inb w h vis ny nx true Hs Hi)
    as (vis' & Hset & Hs' & Hget & Hother).
  exists vis'. split; [done|]. split; [done|].
  intros y' x' Hi'. unfold vis_at. case_decide as Heq.
  - inversion Heq; subst. by rewrite Hget.
  - by rewrite Hother.
Qed.

Lemma dfs_inv_pop w h cs vis y x rest :
  dfs_inv w h cs vis ((y, x) :: rest) →
  unvisited_neighbors w h vis y x directions = Ret [] →
  dfs_inv w h cs vis rest.
Proof.
  intros Hinv Hun.
  destruct (unvisited_neighbors_spec w h vis y x directions (di_shape _ _ _ _ _ Hinv))
    as (un & Hun' & Hspec).
  rewrite Hun in Hun'. inversion Hun'; subst un. clear Hun'.
  split; try by destruct Hinv.
  - intros y' x' Hin. apply (di_stack _ _ _ _ _ Hinv). by right.
  - intros y' x' d Hi Hv Hnotin Hd Hn.
    destruct (decide ((y', x') = (y, x))) as [Heq|Hne].
    + inversion Heq; subst.
      destruct (vis_at vis (toward y x d).1 (toward y x d).2) eqn:Ev; [done|].
      exfalso. eapply (elem_of_nil (A:=Z * Z * Z * Z)). apply Hspec.
      exists (delta d).1, (delta d).2, d, (opposite d).
      split; [by apply directions_spec|]. done.
    + apply (di_closed _ _ _ _ _ Hinv); try done.
      intros [Heq|Hin]%elem_of_cons; done.
Qed.

Lemma dfs_inv_push w h cs vis y x rest ny nx d opp :
  dfs_inv w h cs vis ((y, x) :: rest) →
  (ny - y, nx - x, d, opp) ∈ directions →
  inb w h ny nx → vis_at vis ny nx = false →
  ∃ cs' vis',
    carve cs y x ny nx d opp = Ret cs' ∧
    grid_set vis ny nx true = Ret vis' ∧
    dfs_inv w h cs' vis' ((ny, nx) :: (y, x) :: rest) ∧
    (unvisited vis' + 1)%nat = unvisited vis.
Proof.
  intros Hinv Hdir Hn Hv.
  apply directions_spec in Hdir as (Hd & Hdy & Hdx & ->).
  assert (Hny : ny = (toward y x d).1) by (unfold toward; simpl; lia).
  assert (Hnx : nx = (toward y x d).2) by (unfold toward; simpl; lia).
  assert (Hnn : (ny, nx) = toward y x d) by (rewrite Hny, Hnx; apply toward_eta).
  clear Hdy Hdx.
  destruct (di_stack _ _ _ _ _ Hinv y x) as [Hi Hvyx]; [by left|].
  assert (Hfresh : d ∉ cell_at cs y x).
  { intros Hin. apply (di_vis _ _ _ _ _ Hinv) in Hin; [|done].
    rewrite <- Hny, <- Hnx in Hin. congruence. }
  assert (Hn' := Hn). rewrite Hny, Hnx in Hn'.
  destruct (carve_ok w h cs y x d (di_doors _ _ _ _ _ Hinv) Hi Hd Hn' Hfresh)
    as (cs' & Hcarve & Hok' & Hgrows & Hat & Hother & Hmem).
  rewrite <- Hny, <- Hnx in Hcarve.
  destruct (mark_visited w h vis ny nx (di_shape _ _ _ _ _ Hinv) Hn)
    as (vis' & Hset & Hs' & Hvis').
  assert (Hmono : ∀ y' x', inb w h y' x' → vis_at vis y' x' = true →
                           vis_at vis' y' x' = true).
  { intros y' x' Hi' Hv'. rewrite Hvis' by done. by case_decide. }
  assert (Hnew : vis_at vis' ny nx = true).
  { rewrite Hvis' by done. by rewrite decide_True. }
  assert (H00 : inb w h 0 0) by (unfold inb in *; lia).
  exists cs', vis'. split; [done|]. split; [done|]. split.
  - split.
    + done.
    + done.
    + apply Hmono; [done|]. by destruct Hinv.
    + intros y' x' [Heq|Hin]%elem_of_cons.
      * inversion Heq; subst. done.
      * destruct (di_stack _ _ _ _ _ Hinv y' x' Hin) as [Hi' Hv'].
        split; [done|]. by apply Hmono.
    + intros y' x' e Hi' He.
      destruct (Hmem y' x' e Hi' He) as [Hin | [[Heq ->] | [Heq ->]]].
      * apply Hmono; [by apply (ok_dir _ _ _ (di_doors _ _ _ _ _ Hinv))|].
        by apply (di_vis _ _ _ _ _ Hinv).
      * inversion Heq; subst y' x'. by rewrite <- Hny, <- Hnx.
      * pair_subst Heq. rewrite toward_back by done. simpl. by apply Hmono.
    + intros y' x' Hi' Hv'. rewrite Hvis' in Hv' by done.
      case_decide as Heq.
      * rewrite Hnn in Heq. pair_subst Heq.
        apply reach_door; [|done|].
        -- eapply reach_grows; [done|]. by apply (di_reach _ _ _ _ _ Hinv).
        -- rewrite Hat. rewrite elem_of_app. right.
           by apply list_elem_of_singleton.
      * eapply reach_grows; [done|]. by apply (di_reach _ _ _ _ _ Hinv).
    + intros y' x' e Hi' Hv' Hnotin He Hn''.
      rewrite Hvis' in Hv' by done.
      case_decide as Heq.
      * exfalso. apply Hnotin. rewrite Heq. by left.
      * apply Hmono; [done|].
        apply (di_closed _ _ _ _ _ Hinv); try done.
        intros Hin. apply Hnotin. by right.
  - apply (unvisited_mark w h vis ny nx vis'); [by destruct Hinv|done..].
Qed.

Lemma dfs_loop_ok w h fuel : ∀ cs vis stack r,
  dfs_inv w h cs vis stack →
  (2 * unvisited vis + length stack <= fuel)%nat →
  ∃ cs' vis' r', dfs_loop fuel w h cs vis stack r = Ret (cs', vis', r') ∧
                 dfs_inv w h cs' vis' [].
Proof.
  induction fuel as [|fuel IH]; intros cs vis stack r Hinv Hfuel.
  - destruct stack as [|[y x] rest]; [|simpl in Hfuel; lia].
    by exists cs, vis, r.
  - destruct stack as [|[y x] rest]; [by exists cs, vis, r|].
    simpl in Hfuel. cbn [dfs_loop].
    destruct (unvisited_neighbors_spec w h vis y x directions
                (di_shape _ _ _ _ _ Hinv)) as (un & Hun & Hspec).
    rewrite Hun. simpl.
    destruct un as [|e un'].
    + apply IH; [by eapply dfs_inv_pop|lia].
    + destruct (choice_elem (e :: un') r) as ([[[ny nx] d] opp] & r' & Hch & Hin);
        [done|].
      rewrite Hch. simpl.
      apply Hspec in Hin as (dy & dx & d' & o' & Hdir & Heq & Hn & Hv).
      inversion Heq; subst ny nx d' o'.
      destruct (dfs_inv_push w h cs vis y x rest (y + dy) (x + dx) d opp Hinv)
        as (cs' & vis' & Hcarve & Hset & Hinv' & Hcount); [|done|done|].
      { by replace (y + dy - y) with dy by lia;
           replace (x + dx - x) with dx by lia. }
      rewrite Hcarve. simpl. rewrite Hset. simpl.
      apply IH; [done|]. simpl. lia.
Qed.

Lemma dfs_all_visited w h cs vis y x :
  dfs_inv w h cs vis [] → inb w h y x → vis_at vis y x = true.
Proof.
  intros Hinv [Hy Hx].
  assert (Hcol : ∀ n : nat, Z.of_nat n < h → vis_at vis (Z.of_nat n) 0 = true).
  { induction n as [|n IH]; intros Hn; [by destruct Hinv|].
    pose proof (di_closed _ _ _ _ _ Hinv (Z.of_nat n) 0 1) as Hc.
    unfold toward in Hc. cbn in Hc.
    replace (Z.of_nat (S n)) with (Z.of_nat n + 1) by lia.
    replace (0 + 0) with 0 in Hc by lia.
    apply Hc; unfold inb; try lia.
    - apply IH. lia.
    - apply not_elem_of_nil. }
  assert (Hrow : ∀ m : nat, Z.of_nat m < w → vis_at vis y (Z.of_nat m) = true).
  { induction m as [|m IH]; intros Hm.
    - specialize (Hcol (Z.to_nat y)). rewrite Z2Nat.id in Hcol by lia.
      apply Hcol. lia.
    - pose proof (di_closed _ _ _ _ _ Hinv y (Z.of_nat m) 2) as Hc.
      unfold toward in Hc. cbn in Hc.
      replace (Z.of_nat (S m)) with (Z.of_nat m + 1) by lia.
      replace (y + 0) with y in Hc by lia.
      apply Hc; unfold inb; try lia.
      + apply IH. lia.
      + apply not_elem_of_nil. }
  specialize (Hrow (Z.to_nat x)). rewrite Z2Nat.id in Hrow by lia.
  apply Hrow. lia.
Qed.

Lemma grid_shape_replicate {A} w h (a : A) :
  grid_shape w h (replicate (Z.to_nat h) (replicate (Z.to_nat w) a)).
Proof.
  split; [by rewrite length_replicate|].
  apply Forall_replicate. by rewrite length_replicate.
Qed.

Lemma grid_get_replicate {A} w h (a : A) y x :
  inb w h y x →
  grid_get (replicate (Z.to_nat h) (replicate (Z.to_nat w) a)) y x = Ret a.
Proof.
  intros Hi. eapply grid_get_lookup; [apply grid_shape_replicate|done| |].
  - apply lookup_replicate_2. unfold inb in Hi. lia.
  - apply lookup_replicate_2. unfold inb in Hi. lia.
Qed.

Lemma unvisited_replicate w h :
  unvisited (replicate h (replicate w false)) = (h * w)%nat.
Proof.
  unfold unvisited. induction h as [|h IH]; [done|].
  simpl. rewrite IH. f_equal.
  clear. induction w as [|w IH]; [done|]. simpl. by rewrite IH.
Qed.

Lemma dfs_inv_init w h vis0 :
  1 <= w → 1 <= h →
  grid_set (replicate (Z.to_nat h) (replicate (Z.to_nat w) false)) 0 0 true
    = Ret vis0 →
  dfs_inv w h (replicate (Z.to_nat h) (replicate (Z.to_nat w) [])) vis0 [(0, 0)]
  ∧ (unvisited vis0 + 1)%nat = (Z.to_nat h * Z.to_nat w)%nat.
Proof.
  intros Hw Hh Hset.
  assert (H00 : inb w h 0 0) by (unfold inb; lia).
  destruct (mark_visited w h _ 0 0 (grid_shape_replicate w h false) H00)
    as (vis' & Hset' & Hs' & Hvis').
  rewrite Hset in Hset'. inversion Hset'; subst vis'. clear Hset'.
  assert (Hcell : ∀ y x, inb w h y x →
            cell_at (replicate (Z.to_nat h) (replicate (Z.to_nat w) [])) y x = []).
  { intros y x Hi. unfold cell_at. by rewrite grid_get_replicate. }
  assert (Hv : ∀ y x, inb w h y x → vis_at vis0 y x = true → (y, x) = (0, 0)).
  { intros y x Hi Hv. rewrite Hvis' in Hv by done.
    case_decide; [done|]. unfold vis_at in Hv.
    rewrite grid_get_replicate in Hv by done. done. }
  split.
  - split.
    + split.
      * apply grid_shape_replicate.
      * intros y x d Hi Hd. rewrite Hcell in Hd by done. by apply elem_of_nil in Hd.
      * intros y x d Hi Hd. rewrite Hcell in Hd by done. by apply elem_of_nil in Hd.
      * intros y x Hi. rewrite Hcell by done. apply NoDup_nil_2.
    + done.
    + rewrite Hvis' by done. by rewrite decide_True.
    + intros y x Hin%list_elem_of_singleton. inversion Hin; subst.
      split; [done|]. rewrite Hvis' by done. by rewrite decide_True.
    + intros y x d Hi Hd. rewrite Hcell in Hd by done. by apply elem_of_nil in Hd.
    + intros y x Hi Hvis. apply Hv in Hvis; [|done]. inversion Hvis; subst.
      constructor.
    + intros y x d Hi Hvis Hnotin. apply Hv in Hvis; [|done].
      exfalso. apply Hnotin. rewrite Hvis. by left.
  - rewrite <- unvisited_replicate.
    apply (unvisited_mark w h _ 0 0); [apply grid_shape_replicate|done| |done].
    unfold vis_at. by rewrite grid_get_replicate.
Qed.

(** ** The densification phase *)

Lemma mem_elem_of d cell : mem d cell = true ↔ d ∈ cell.
Proof.
  unfold mem. rewrite existsb_exists. split.
  - intros (e & Hin & ->%Z.eqb_eq). by apply list_elem_of_In.
  - intros Hin. exists d. split; [by apply list_elem_of_In|apply Z.eqb_refl].
Qed.

Lemma possible_adds_spec w h cell y x e :
  e ∈ possible_adds w h cell y x →
  ∃ d, 0 <= d <= 3 ∧
       e = ((toward y x d).1, (toward y x d).2, d, opposite d) ∧
       inb w h (toward y x d).1 (toward y x d).2 ∧ d ∉ cell.
Proof.
  unfold possible_adds. rewrite list_elem_of_omap.
  intros ([[[dy dx] d] opp] & Hdir & He).
  apply directions_spec in Hdir as (Hd & -> & -> & ->).
  destruct (in_bounds _ _ _ _) eqn:Eb; [|done].
  destruct (mem d cell) eqn:Em; [done|]. simpl in He. inversion He; subst e.
  exists d. split; [done|]. split; [done|]. split; [by apply in_bounds_inb|].
  rewrite <- mem_elem_of. congruence.
Qed.

Lemma possible_adds_nodup w h cell y x :
  NoDup ((fun e : Z * Z * Z * Z => e.1.2) <$> possible_adds w h cell y x).
Proof.
  unfold possible_adds, directions. cbn [omap list_omap].
  repeat match goal with
         | |- context [if ?b then _ else _] => destruct b
         end; cbn [fmap list_fmap fst snd]; by apply (bool_decide_unpack _).
Qed.

Lemma possible_adds_length w h cell y x :
  2 <= w → 2 <= h → inb w h y x →
  (2 <= length cell + length (possible_adds w h cell y x))%nat.
Proof.
  intros Hw Hh [Hy Hx].
  destruct cell as [|d0 [|d1 cell]]; [| |simpl; lia].
  - unfold possible_adds, directions. cbn [omap list_omap mem existsb negb].
    rewrite !andb_true_r.
    repeat match goal with
           | |- context [in_bounds ?a ?b ?c ?d] =>
               let E := fresh "E" in
               destruct (in_bounds a b c d) eqn:E;
               [|apply in_bounds_false in E; unfold inb in E]
           end; cbn [length]; lia.
  - unfold possible_adds, directions. cbn [omap list_omap mem existsb].
    rewrite !orb_false_r.
    repeat match goal with
           | |- context [in_bounds ?a ?b ?c ?d] =>
               let E := fresh "E" in
               destruct (in_bounds a b c d) eqn:E;
               [|apply in_bounds_false in E; unfold inb in E]
           end;
    repeat match goal with
           | |- context [?a =? d0] =>
               let E := fresh "E" in
               destruct (Z.eqb_spec a d0) as [E|E]
           end; cbn [andb negb length]; lia.
Qed.

Lemma carve_all_ok w h y x : ∀ adds cs,
  doors_ok w h cs → inb w h y x →
  (∀ e, e ∈ adds →
     ∃ d, 0 <= d <= 3 ∧
          e = ((toward y x d).1, (toward y x d).2, d, opposite d) ∧
          inb w h (toward y x d).1 (toward y x d).2 ∧ d ∉ cell_at cs y x) →
  NoDup ((fun e : Z * Z * Z * Z => e.1.2) <$> adds) →
  ∃ cs', carve_all y x adds cs = Ret cs' ∧ doors_ok w h cs' ∧
         grows w h cs cs' ∧
         length (cell_at cs' y x) = (length (cell_at cs y x) + length adds)%nat.
Proof.
  induction adds as [|e adds IH]; intros cs Hok Hi Hadds Hnd.
  - exists cs. split; [done|]. split; [done|]. split; [apply grows_refl|].
    simpl. lia.
  - destruct (Hadds e) as (d & Hd & -> & Hn & Hfresh); [by left|].
    destruct (carve_ok w h cs y x d Hok Hi Hd Hn Hfresh)
      as (cs1 & Hcarve & Hok1 & Hg1 & Hat & _ & _).
    unfold carve_all. cbn [for_each]. rewrite Hcarve. simpl.
    rewrite fmap_cons in Hnd. apply NoDup_cons in Hnd as [Hnotin Hnd].
    simpl in Hnotin.
    destruct (IH cs1 Hok1 Hi) as (cs' & Hrest & Hok' & Hg' & Hlen); [|done|].
    { intros e He. destruct (Hadds e) as (d' & Hd' & -> & Hn' & Hfresh');
        [by right|].
      exists d'. split; [done|]. split; [done|]. split; [done|].
      rewrite Hat. rewrite elem_of_app. intros [Hin|Hin%list_elem_of_singleton];
        [done|].
      subst d'. apply Hnotin. apply list_elem_of_fmap.
      eexists. split; [|exact He]. done. }
    exists cs'. split; [done|]. split; [done|].
    split; [by eapply grows_trans|].
    rewrite Hlen, Hat, length_app. simpl. lia.
Qed.

Lemma densify_cell_ok w h y x cs r :
  doors_ok w h cs → inb w h y x →
  ∃ cs' r', densify_cell w h y x (cs, r) = Ret (cs', r') ∧
    doors_ok w h cs' ∧ grows w h cs cs' ∧
    (2 <= w → 2 <= h → (2 <= length (cell_at cs' y x))%nat).
Proof.
  intros Hok Hi. unfold densify_cell.
  rewrite (cell_at_get w h) by (done || apply Hok). simpl.
  set (cell := cell_at cs y x).
  destruct (Z.ltb_spec (Z.of_nat (length cell)) 4) as [Hlt|Hge].
  - pose proof (shuffle_perm (possible_adds w h cell y x) r) as Hperm.
    destruct (shuffle (possible_adds w h cell y x) r) as [shuffled r'].
    simpl in Hperm.
    set (adds := Z.min _ _).
    destruct (carve_all_ok w h y x (take (Z.to_nat adds) shuffled) cs Hok Hi)
      as (cs' & Hcarve & Hok' & Hg & Hlen).
    { intros e He. apply (possible_adds_spec w h cell y x).
      rewrite <- Hperm. eapply elem_of_sublist; [done|apply sublist_take]. }
    { eapply sublist_NoDup; [|apply fmap_sublist, sublist_take].
      rewrite Hperm. apply possible_adds_nodup. }
    rewrite Hcarve. simpl. exists cs', r'.
    split; [done|]. split; [done|]. split; [done|].
    intros Hw Hh. rewrite Hlen, length_take.
    pose proof (possible_adds_length w h cell y x Hw Hh Hi) as Hpa.
    rewrite <- Hperm in Hpa. fold cell. unfold adds. lia.
  - exists cs, r. split; [done|]. split; [done|]. split; [apply grows_refl|].
    intros _ _. fold cell. lia.
Qed.

Lemma grows_length w h cs cs' y x n :
  grows w h cs cs' → inb w h y x →
  (n <= length (cell_at cs y x))%nat → (n <= length (cell_at cs' y x))%nat.
Proof.
  intros Hg Hi Hn. pose proof (prefix_length _ _ (Hg y x Hi)). lia.
Qed.

Lemma densify_row_ok w h y : 0 <= y < h → ∀ xs cs r,
  (∀ x, x ∈ xs → 0 <= x < w) → doors_ok w h cs →
  ∃ cs' r',
    for_each xs (fun x st => densify_cell w h y x st) (cs, r) = Ret (cs', r') ∧
    doors_ok w h cs' ∧ grows w h cs cs' ∧
    (2 <= w → 2 <= h → ∀ x, x ∈ xs → (2 <= length (cell_at cs' y x))%nat).
Proof.
  intros Hy. induction xs as [|x0 xs IH]; intros cs r Hxs Hok.
  - exists cs, r. split; [done|]. split; [done|]. split; [apply grows_refl|].
    intros _ _ x Hx. by apply elem_of_nil in Hx.
  - assert (Hi : inb w h y x0) by (split; [done|apply Hxs; by left]).
    destruct (densify_cell_ok w h y x0 cs r Hok Hi)
      as (cs1 & r1 & Hcell & Hok1 & Hg1 & Hdeg1).
    destruct (IH cs1 r1) as (cs' & r' & Hrest & Hok' & Hg' & Hdeg');
      [by intros x Hx; apply Hxs; right|done|].
    exists cs', r'. cbn [for_each]. rewrite Hcell. simpl.
    split; [done|]. split; [done|]. split; [by eapply grows_trans|].
    intros Hw Hh x [->|Hx]%elem_of_cons.
    + eapply grows_length; [done|done|]. by apply Hdeg1.
    + by apply Hdeg'.
Qed.

Lemma densify_rows_ok w h : ∀ ys cs r,
  (∀ y, y ∈ ys → 0 <= y < h) → doors_ok w h cs →
  ∃ cs' r',
    for_each ys
      (fun y st => for_each (range w) (fun x st => densify_cell w h y x st) st)
      (cs, r) = Ret (cs', r') ∧
    doors_ok w h cs' ∧ grows w h cs cs' ∧
    (2 <= w → 2 <= h → ∀ y x, y ∈ ys → 0 <= x < w →
                              (2 <= length (cell_at cs' y x))%nat).
Proof.
  induction ys as [|y0 ys IH]; intros cs r Hys Hok.
  - exists cs, r. split; [done|]. split; [done|]. split; [apply grows_refl|].
    intros _ _ y x Hy. by apply elem_of_nil in Hy.
  - assert (Hy0 : 0 <= y0 < h) by (apply Hys; by left).
    destruct (densify_row_ok w h y0 Hy0 (range w) cs r)
      as (cs1 & r1 & Hrow & Hok1 & Hg1 & Hdeg1); [|done|].
    { intros x Hx. unfold range in Hx. apply elem_of_seqZ in Hx. lia. }
    destruct (IH cs1 r1) as (cs' & r' & Hrest & Hok' & Hg' & Hdeg');
      [by intros y Hy; apply Hys; right|done|].
    exists cs', r'. cbn [for_each]. rewrite Hrow. simpl.
    split; [done|]. split; [done|]. split; [by eapply grows_trans|].
    intros Hw Hh y x [->|Hy]%elem_of_cons Hx.
    + eapply grows_length; [done|done|]. apply Hdeg1; [done|done|].
      unfold range. apply elem_of_seqZ. lia.
    + by apply Hdeg'.
Qed.

Lemma densify_ok w h cs r :
  doors_ok w h cs →
  ∃ cs' r', densify w h (cs, r) = Ret (cs', r') ∧
    doors_ok w h cs' ∧ grows w h cs cs' ∧
    (2 <= w → 2 <= h → ∀ y x, inb w h y x →
                              (2 <= length (cell_at cs' y x))%nat).
Proof.
  intros Hok. unfold densify.
  destruct (densify_rows_ok w h (range h) cs r)
    as (cs' & r' & Hrun & Hok' & Hg & Hdeg); [|done|].
  { intros y Hy. unfold range in Hy. apply elem_of_seqZ in Hy. lia. }
  exists cs', r'. split; [done|]. split; [done|]. split; [done|].
  intros Hw Hh y x [Hy Hx]. apply Hdeg; [done|done| |done].
  unfold range. apply elem_of_seqZ. lia.
Qed.

(** ** The generated maze *)

(** What [Maze.__init__] establishes. *)
Lemma Maze_init_ok w h r :
  1 <= w → 1 <= h →
  ∃ m r', Maze_init w h r = Ret (m, r') ∧
    width m = w ∧ height m = h ∧
    doors_ok w h (cells m) ∧
    (∀ y x, inb w h y x → reach w h (cells m) y x) ∧
    (2 <= w → 2 <= h → ∀ y x, inb w h y x →
                              (2 <= length (cell_at (cells m) y x))%nat) ∧
    inb w h (exit_room m).1 (exit_room m).2.
Proof.
  intros Hw Hh. unfold Maze_init, generate_maze, generate_maze_fuel.
  cbn [width height cells visited exit_room].
  assert (H00 : inb w h 0 0) by (unfold inb; lia).
  destruct (mark_visited w h _ 0 0 (grid_shape_replicate w h false) H00)
    as (vis0 & Hset & _ & _).
  rewrite Hset. simpl.
  destruct (dfs_inv_init w h vis0 Hw Hh Hset) as [Hinv Hcount].
  destruct (dfs_loop_ok w h (dfs_fuel w h) _ vis0 [(0, 0)] r Hinv)
    as (cs1 & vis1 & r1 & Hdfs & Hinv1).
  { unfold dfs_fuel. simpl. nia. }
  rewrite Hdfs. simpl.
  destruct (densify_ok w h cs1 r1 (di_doors _ _ _ _ _ Hinv1))
    as (cs2 & r2 & Hden & Hok2 & Hg & Hdeg).
  rewrite Hden. simpl.
  unfold randint. destruct (Z.ltb_spec (h - 1) 0) as [|_]; [lia|]. simpl.
  destruct (Z.ltb_spec (w - 1) 0) as [|_]; [lia|]. simpl.
  eexists _, _. split; [done|]. cbn [width height cells exit_room].
  split; [done|]. split; [done|]. split; [done|]. split; [|split; [done|]].
  - intros y x Hi. eapply reach_grows; [done|].
    apply (di_reach _ _ _ _ _ Hinv1); [done|].
    by eapply dfs_all_visited.
  - simpl.
    pose proof (Z.mod_pos_bound (r2 0%nat) (h - 1 - 0 + 1)).
    pose proof (Z.mod_pos_bound (r2 1%nat) (w - 1 - 0 + 1)).
    unfold inb. lia.
Qed.

(** ** The neighbour query *)

Lemma neighbor_of_door m y x d :
  inb (width m) (height m) y x → 0 <= d <= 3 →
  inb (width m) (height m) (toward y x d).1 (toward y x d).2 →
  neighbor_of m y x d =
  Some (dir_name_of d, (toward y x d).1, (toward y x d).2).
Proof.
  intros [Hy Hx] Hd. unfold neighbor_of, dir_name_of, inb.
  dir_cases d; unfold toward; cbn; intros [Hy' Hx'].
  - destruct (Z.geb_spec (y - 1) 0); [|lia].
    by replace (y + -1) with (y - 1) by lia; replace (x + 0) with x by lia.
  - destruct (Z.ltb_spec (y + 1) (height m)); [|lia].
    by replace (x + 0) with x by lia.
  - destruct (Z.ltb_spec (x + 1) (width m)); [|lia].
    by replace (y + 0) with y by lia.
  - destruct (Z.geb_spec (x - 1) 0); [|lia].
    by replace (x + -1) with (x - 1) by lia; replace (y + 0) with y by lia.
Qed.

Lemma omap_all_some {A B} (f : A → option B) (g : A → B) (l : list A) :
  (∀ a, a ∈ l → f a = Some (g a)) → omap f l = g <$> l.
Proof.
  induction l as [|a l IH]; intros Hf; [done|].
  cbn. rewrite Hf by (by left). rewrite IH; [done|].
  intros b Hb. apply Hf. by right.
Qed.

(** In a well-formed maze no stored door is filtered out: the answer lists
    the stored directions one for one, in the order of the list. *)
Lemma get_neighbors_ok m y x :
  doors_ok (width m) (height m) (cells m) → inb (width m) (height m) y x →
  get_neighbors m y x =
  Ret ((fun d => (dir_name_of d, (toward y x d).1, (toward y x d).2))
         <$> cell_at (cells m) y x).
Proof.
  intros Hok Hi. unfold get_neighbors.
  rewrite (cell_at_get (width m) (height m)) by (done || apply Hok). simpl.
  f_equal. apply omap_all_some. intros d Hd.
  destruct (ok_dir _ _ _ Hok y x d Hi Hd) as [Hr Hn].
  by apply neighbor_of_door.
Qed.

Lemma reach_reachable m y x :
  doors_ok (width m) (height m) (cells m) →
  reach (width m) (height m) (cells m) y x → reachable m y x.
Proof.
  intros Hok. induction 1 as [|y x d _ IH Hi Hd]; [constructor|].
  eapply reachable_door; [exact IH|by apply get_neighbors_ok|].
  apply list_elem_of_fmap. by exists d.
Qed.

Lemma nodup_directions_length (cell : list Z) :
  NoDup cell → (∀ d, d ∈ cell → 0 <= d <= 3) → (length cell <= 4)%nat.
Proof.
  intros Hnd Hr.
  assert (Hsub : cell ⊆+ [0; 1; 2; 3]).
  { apply NoDup_submseteq; [done|]. intros d Hd%Hr.
    rewrite !elem_of_cons. lia. }
  apply submseteq_length in Hsub. simpl in Hsub. lia.
Qed.

(** ** Properties of the generated maze *)

(** C1: in every maze built by [Maze.__init__] (that is, by
    [generate_maze]) with width and height at least 2, every room of the
    grid is reachable from (0,0) through the moves that [get_neighbors]
    offers: the door graph is connected. *)
Theorem generated_maze_connected (w h : Z) (r : rng) :
  2 <= w → 2 <= h →
  ∃ m r', Maze_init w h r = Ret (m, r') ∧
    ∀ y x, 0 <= y < h → 0 <= x < w → reachable m y x.
Proof.
  intros Hw Hh.
  destruct (Maze_init_ok w h r) as (m & r' & Hm & Hwm & Hhm & Hok & Hreach & _);
    [lia|lia|].
  exists m, r'. split; [done|]. intros y x Hy Hx.
  apply reach_reachable; rewrite Hwm, Hhm; [done|]. by apply Hreach.
Qed.

Lemma generated_maze_connected_witness :
  ∃ m r', Maze_init 2 2 (stream_of [1]) = Ret (m, r') ∧ reachable m 1 1.
Proof.
  destruct (generated_maze_connected 2 2 (stream_of [1]))
    as (m & r' & Hm & Hreach); [lia|lia|].
  exists m, r'. split; [exact Hm|]. apply Hreach; lia.
Defined.

(** C2: in every generated maze with width and height at least 2, the
    door list of every room has between 2 and 4 entries and holds each
    direction at most once. *)
Theorem generated_maze_degree (w h : Z) (r : rng) :
  2 <= w → 2 <= h →
  ∃ m r', Maze_init w h r = Ret (m, r') ∧
    ∀ y x, 0 <= y < h → 0 <= x < w →
      ∃ cell, grid_get (cells m) y x = Ret cell ∧
              (2 <= length cell <= 4)%nat ∧ NoDup cell.
Proof.
  intros Hw Hh.
  destruct (Maze_init_ok w h r) as (m & r' & Hm & Hwm & Hhm & Hok & _ & Hdeg & _);
    [lia|lia|].
  exists m, r'. split; [done|]. intros y x Hy Hx.
  assert (Hi : inb w h y x) by done.
  exists (cell_at (cells m) y x).
  split; [apply (cell_at_get w h); [apply Hok|done]|].
  split; [split|].
  - by apply Hdeg.
  - apply nodup_directions_length; [by apply (ok_nodup _ _ _ Hok)|].
    intros d Hd. by apply (ok_dir _ _ _ Hok y x).
  - by apply (ok_nodup _ _ _ Hok).
Qed.

Lemma generated_maze_degree_witness :
  ∃ m r', Maze_init 2 2 (stream_of [1]) = Ret (m, r') ∧
    ∃ cell, grid_get (cells m) 1 0 = Ret cell ∧
            (2 <= length cell <= 4)%nat ∧ NoDup cell.
Proof.
  destruct (generated_maze_degree 2 2 (stream_of [1]))
    as (m & r' & Hm & Hdeg); [lia|lia|].
  exists m, r'. split; [exact Hm|]. apply Hdeg; lia.
Defined.

(** C3: in every generated maze (any positive width and height), whenever
    the door list of room A holds a direction [d] whose row of
    [directions] leads to a room B of the grid, the door list of B holds
    the opposite direction [opp], and the row of [opp] leads back to A. *)
Theorem generated_maze_symmetric (w h : Z) (r : rng) :
  1 <= w → 1 <= h →
  ∃ m r', Maze_init w h r = Ret (m, r') ∧
    ∀ y x dy dx d opp cell,
      0 <= y < h → 0 <= x < w →
      (dy, dx, d, opp) ∈ directions →
      grid_get (cells m) y x = Ret cell → d ∈ cell →
      0 <= y + dy < h → 0 <= x + dx < w →
      ∃ cell' dy' dx',
        grid_get (cells m) (y + dy) (x + dx) = Ret cell' ∧ opp ∈ cell' ∧
        (dy', dx', opp, d) ∈ directions ∧
        (y + dy + dy', x + dx + dx') = (y, x).
Proof.
  intros Hw Hh.
  destruct (Maze_init_ok w h r) as (m & r' & Hm & Hwm & Hhm & Hok & _);
    [done|done|].
  exists m, r'. split; [done|].
  intros y x dy dx d opp cell Hy Hx Hdir Hget Hd Hy' Hx'.
  assert (Hi : inb w h y x) by done.
  apply directions_spec in Hdir as (Hr & -> & -> & ->).
  assert (Hcell : cell = cell_at (cells m) y x).
  { unfold cell_at. by rewrite Hget. }
  subst cell.
  exists (cell_at (cells m) (toward y x d).1 (toward y x d).2),
         (delta (opposite d)).1, (delta (opposite d)).2.
  split; [apply (cell_at_get w h); [apply Hok|done]|].
  split; [by apply (ok_sym _ _ _ Hok)|].
  split.
  - apply directions_spec. split; [by apply opposite_range|].
    by rewrite opposite_involutive.
  - apply (toward_back y x d Hr).
Qed.

Lemma generated_maze_symmetric_witness :
  ∃ m r', Maze_init 2 2 (stream_of [1]) = Ret (m, r') ∧
    ∃ cell' dy' dx',
      grid_get (cells m) (0 + 0) (0 + 1) = Ret cell' ∧ 3 ∈ cell' ∧
      (dy', dx', 3, 2) ∈ directions ∧ (0 + 0 + dy', 0 + 1 + dx') = (0, 0).
Proof.
  destruct (generated_maze_symmetric 2 2 (stream_of [1]))
    as (m & r' & Hm & Hsym); [lia|lia|].
  exists m, r'. split; [exact Hm|].
  apply (Hsym 0 0 0 1 2 3 [2; 1]); try lia.
  - unfold directions. rewrite !elem_of_cons. tauto.
  - vm_compute in Hm. injection Hm as <- _. reflexivity.
  - rewrite !elem_of_cons. tauto.
Defined.

(** C4 (as stated, refuted): the 2x2 maze generated from the draws
    [1; 0; 0; ...] carves East out of (0,0) first and adds South during
    densification, so [get_neighbors] lists East before South. *)
Lemma get_neighbors_priority_counterexample :
  ∃ m r' ns, Maze_init 2 2 (stream_of [1]) = Ret (m, r') ∧
    grid_get (cells m) 0 0 = Ret [2; 1] ∧
    get_neighbors m 0 0 = Ret ns ∧
    ns = [("East"%string, 0, 1); ("South"%string, 1, 0)] ∧
    priority_ordered ((fun n : string * Z * Z => n.1.1) <$> ns) = false.
Proof.
  eexists _, _, _. split; [vm_compute; reflexivity|].
  split; [reflexivity|]. split; [reflexivity|]. split; reflexivity.
Qed.

(** C4 (amended): in every generated maze and at every position of the
    grid, [get_neighbors] returns one entry per stored door, in the order
    in which the directions are stored in the room's door list (the order
    in which the doors were carved); each entry carries the name of its
    direction and a target inside the grid. *)
Theorem get_neighbors_stored_order (w h : Z) (r : rng) :
  1 <= w → 1 <= h →
  ∃ m r', Maze_init w h r = Ret (m, r') ∧
    ∀ y x, 0 <= y < h → 0 <= x < w →
      ∃ cell ns,
        grid_get (cells m) y x = Ret cell ∧
        get_neighbors m y x = Ret ns ∧
        (fun n : string * Z * Z => n.1.1) <$> ns = dir_name_of <$> cell ∧
        ∀ dir_name ny nx, (dir_name, ny, nx) ∈ ns →
                          0 <= ny < h ∧ 0 <= nx < w.
Proof.
  intros Hw Hh.
  destruct (Maze_init_ok w h r) as (m & r' & Hm & Hwm & Hhm & Hok & _);
    [done|done|].
  exists m, r'. split; [done|]. intros y x Hy Hx.
  assert (Hi : inb w h y x) by done.
  exists (cell_at (cells m) y x). eexists.
  split; [apply (cell_at_get w h); [apply Hok|done]|].
  split; [apply get_neighbors_ok; by rewrite Hwm, Hhm|].
  split.
  - rewrite <- list_fmap_compose. done.
  - intros dir_name ny nx Hin. apply list_elem_of_fmap in Hin as (d & Heq & Hd).
    inversion Heq; subst. by apply (ok_dir _ _ _ Hok y x d).
Qed.

Lemma get_neighbors_stored_order_witness :
  ∃ m r', Maze_init 2 2 (stream_of [1]) = Ret (m, r') ∧
    ∃ cell ns,
      grid_get (cells m) 0 0 = Ret cell ∧
      get_neighbors m 0 0 = Ret ns ∧
      (fun n : string * Z * Z => n.1.1) <$> ns = dir_name_of <$> cell ∧
      ∀ dir_name ny nx, (dir_name, ny, nx) ∈ ns →
                        0 <= ny < 2 ∧ 0 <= nx < 2.
Proof.
  destruct (get_neighbors_stored_order 2 2 (stream_of [1]))
    as (m & r' & Hm & Hns); [lia|lia|].
  exists m, r'. split; [exact Hm|]. apply Hns; lia.
Defined.

(** ** Outcome effects *)

Lemma choice_lookup {A} (l : list A) r :
  l ≠ [] →
  ∃ i a r', choice l r = Ret (a, r') ∧ l !! i = Some a ∧
            i = Z.to_nat (r 0%nat mod Z.of_nat (length l)) ∧
            r' = (fun n => r (S n)).
Proof.
  intros Hl. rewrite choice_unfold by done.
  assert (Hlen : (0 < length l)%nat) by (destruct l; [done|simpl; lia]).
  pose proof (randbelow_lt (length l) r Hlen) as Hk.
  unfold randbelow in *. simpl in *.
  destruct (lookup_lt_is_Some_2 l _ Hk) as [a Ha].
  eexists _, a, _. rewrite Ha. done.
Qed.

(** ** Combat *)

Lemma randint_ok a b r :
  a <= b →
  ∃ v, randint a b r = Ret (v, fun n => r (S n)) ∧ a <= v <= b ∧
       v = a + r 0%nat mod (b - a + 1).
Proof.
  intros Hab. unfold randint. destruct (Z.ltb_spec b a); [lia|].
  simpl. eexists. split; [done|]. split; [|done].
  pose proof (Z.mod_pos_bound (r 0%nat) (b - a + 1)). lia.
Qed.

Lemma apply_gain_fields gain p :
  strength (apply_gain gain p) = strength p ∧
  position (apply_gain gain p) = position p ∧
  health (apply_gain gain p) = health p.
Proof. unfold apply_gain. by repeat case_match. Qed.

(** The loop ends within as many turns as the monster has health. *)
Lemma combat_loop_total : ∀ (n : nat) self monster_health monster_strength r,
  1 <= strength self → 1 <= monster_strength →
  monster_health <= Z.of_nat n →
  ∃ won self' r' out,
    (∀ fuel, (n <= fuel)%nat →
       combat_loop fuel self monster_health monster_strength r
       = Ret (won, self', r', out)) ∧
    strength self' = strength self ∧ position self' = position self ∧
    (won = false → health self' <= 0).
Proof.
  induction n as [|n IH]; intros self mh ms r Hs Hms Hmh.
  - destruct (Z.leb_spec (health self) 0) as [Hdead|Halive].
    + exists false, self, r, [YouLose]. split; [|done].
      intros fuel _. destruct fuel; simpl;
        destruct (Z.gtb_spec (health self) 0); try lia; simpl;
        destruct (Z.leb_spec (health self) 0); try lia; done.
    + exists true, self, r, []. split; [|done].
      intros fuel _. destruct fuel; simpl;
        destruct (Z.gtb_spec (health self) 0); try lia;
        destruct (Z.gtb_spec mh 0); try lia; simpl;
        destruct (Z.leb_spec (health self) 0); try lia; done.
  - destruct (Z.gtb_spec (health self) 0) as [Halive|Hdead].
    + destruct (Z.gtb_spec mh 0) as [Hm|Hm].
      * destruct (randint_ok 1 (strength self) r Hs) as (dmg & Hdmg & Hrange & _).
        destruct (Z.leb_spec (mh - dmg) 0) as [Hkill|Hsurv].
        -- destruct (choice_elem combat_gains (fun k => r (S k)))
             as (gain & r2 & Hgain & _); [done|].
           eexists true, (apply_gain gain self), r2, _. split.
           ++ intros [|fuel] Hfuel; [lia|]. cbn [combat_loop].
              destruct (Z.gtb_spec (health self) 0); [|lia].
              destruct (Z.gtb_spec mh 0); [|lia]. cbn [andb].
              rewrite Hdmg. cbn [mbind result_bind]. cbv zeta.
              destruct (Z.leb_spec (mh - dmg) 0); [|lia].
              rewrite Hgain. reflexivity.
           ++ destruct (apply_gain_fields gain self) as (? & ? & ?). done.
        -- destruct (randint_ok 1 ms (fun k => r (S k)) Hms)
             as (dmg2 & Hdmg2 & Hrange2 & _).
           destruct (IH (set_health (health self - dmg2) self) (mh - dmg) ms
                        (fun k => r (S (S k))))
             as (won & self' & r' & out & Hloop & Hstr & Hpos & Hwon);
             [done|done|lia|].
           eexists won, self', r', _. split.
           ++ intros [|fuel] Hfuel; [lia|]. cbn [combat_loop].
              destruct (Z.gtb_spec (health self) 0); [|lia].
              destruct (Z.gtb_spec mh 0); [|lia]. cbn [andb].
              rewrite Hdmg. cbn [mbind result_bind]. cbv zeta.
              destruct (Z.leb_spec (mh - dmg) 0); [lia|].
              rewrite Hdmg2. cbn [mbind result_bind]. cbv zeta.
              rewrite Hloop by lia. reflexivity.
           ++ done.
      * exists true, self, r, []. split; [|done].
        intros fuel _. destruct fuel; simpl;
          destruct (Z.gtb_spec (health self) 0); try lia;
          destruct (Z.gtb_spec mh 0); try lia; simpl;
          destruct (Z.leb_spec (health self) 0); try lia; done.
    + exists false, self, r, [YouLose]. split; [|done].
      intros fuel _. destruct fuel; simpl;
        destruct (Z.gtb_spec (health self) 0); try lia; simpl;
        destruct (Z.leb_spec (health self) 0); try lia; done.
Qed.

Lemma combat_fuel_total self r :
  1 <= strength self →
  ∃ won self' r' out,
    (∀ fuel, (50 <= fuel)%nat → combat_fuel fuel self r = Ret (won, self', r', out)) ∧
    strength self' = strength self ∧ position self' = position self ∧
    (won = false → health self' <= 0).
Proof.
  intros Hs. unfold combat_fuel.
  destruct (randint_ok 20 50 r) as (mh & Hmh & Hmhr & _); [lia|].
  destruct (randint_ok 5 15 (fun n => r (S n))) as (ms & Hms & Hmsr & _); [lia|].
  destruct (combat_loop_total 50 self mh ms (fun n => r (S (S n))))
    as (won & self' & r' & out & Hloop & Hrest); [done|lia|lia|].
  eexists won, self', r', _. split; [|done].
  intros fuel Hfuel. rewrite Hmh. cbn [mbind result_bind].
  rewrite Hms. cbn [mbind result_bind]. rewrite Hloop by done. reflexivity.
Qed.

(** C7: for every stream of draws and every player with strength at
    least 1 and health at least 1, [Player.combat] returns: its loop ends
    within 50 turns (the monster starts with at most 50 health and loses
    at least 1 per turn), so more fuel never changes the result. *)
Theorem combat_terminates (self : Player) (r : rng) :
  1 <= strength self → 1 <= health self →
  ∃ won self' r' out,
    combat self r = Ret (won, self', r', out) ∧
    ∀ fuel, (50 <= fuel)%nat →
            combat_fuel fuel self r = Ret (won, self', r', out).
Proof.
  intros Hs _.
  destruct (combat_fuel_total self r Hs) as (won & self' & r' & out & Hc & _).
  exists won, self', r', out. split; [|done]. unfold combat. by apply Hc.
Qed.

Lemma combat_terminates_witness :
  ∃ won self' r' out,
    combat Player_init (stream_of [7; 3; 4; 2; 9; 1]) = Ret (won, self', r', out) ∧
    ∀ fuel, (50 <= fuel)%nat →
            combat_fuel fuel Player_init (stream_of [7; 3; 4; 2; 9; 1])
            = Ret (won, self', r', out).
Proof.
  apply (combat_terminates Player_init (stream_of [7; 3; 4; 2; 9; 1]));
    simpl; lia.
Defined.

(** ** The pieces of the loop body *)

Lemma apply_positive_fields outcome p :
  position (apply_positive outcome p) = position p ∧
  strength p <= strength (apply_positive outcome p).
Proof.
  unfold apply_positive.
  repeat (destruct (contains _ outcome); [split; [done|cbn; lia]|]).
  split; [done|lia].
Qed.

Lemma apply_negative_member outcome p :
  outcome ∈ negative_outcomes →
  ∃ p', apply_negative outcome p = Ret p' ∧
        position p' = position p ∧ strength p' = strength p.
Proof.
  unfold negative_outcomes. rewrite !elem_of_cons, elem_of_nil.
  intros [-> | [-> | [-> | [-> | []]]]]; eexists; (split; [reflexivity|done]).
Qed.

Lemma combat_loop_quiet : ∀ fuel self mh ms r won self' r' out,
  combat_loop fuel self mh ms r = Ret (won, self', r', out) →
  Forall (fun l => escape_line l = false) out.
Proof.
  induction fuel as [|fuel IH]; intros self mh ms r won self' r' out H.
  - simpl in H. destruct (_ && _); [done|].
    destruct (_ <=? _); inversion H; subst; quiet.
  - cbn [combat_loop] in H. destruct (_ && _).
    + apply bind_Ret in H as ([dmg r1] & _ & H). cbv zeta in H.
      destruct (_ <=? _).
      * apply bind_Ret in H as ([gain r2] & _ & H). inversion H; subst. quiet.
      * apply bind_Ret in H as ([dmg2 r2] & _ & H).
        apply bind_Ret in H as ([[[b s1] r3] out1] & Hrec & H).
        inversion H; subst. apply IH in Hrec. quiet.
    + destruct (_ <=? _); inversion H; subst; quiet.
Qed.

Lemma combat_fuel_quiet fuel self r won self' r' out :
  combat_fuel fuel self r = Ret (won, self', r', out) →
  Forall (fun l => escape_line l = false) out.
Proof.
  unfold combat_fuel. intros Hc.
  apply bind_Ret in Hc as ([mh r1] & _ & Hc).
  apply bind_Ret in Hc as ([ms r2] & _ & Hc).
  apply bind_Ret in Hc as ([[[b s1] r3] out1] & Hloop & Hc).
  inversion Hc; subst. apply combat_loop_quiet in Hloop. quiet.
Qed.

Lemma combat_ok self r :
  1 <= strength self →
  ∃ won self' r' out,
    combat self r = Ret (won, self', r', out) ∧
    strength self' = strength self ∧ position self' = position self ∧
    (won = false → health self' <= 0) ∧
    Forall (fun l => escape_line l = false) out.
Proof.
  intros Hs.
  destruct (combat_fuel_total self r Hs)
    as (won & self' & r' & out & Hc & Hstr & Hpos & Hwon).
  exists won, self', r', out. unfold combat.
  specialize (Hc 50%nat (Nat.le_refl _)).
  split; [exact Hc|]. split; [exact Hstr|]. split; [exact Hpos|].
  split; [exact Hwon|].
  exact (combat_fuel_quiet 50 self r won self' r' out Hc).
Qed.

Lemma str_in_app s l1 l2 : str_in s (l1 ++ l2) = str_in s l1 || str_in s l2.
Proof. unfold str_in. apply existsb_app. Qed.

Lemma combat_encounter_ok g :
  1 <= strength (player g) →
  ∃ c g' out, combat_encounter g = Ret (c, g', out) ∧ phase_post g c g' out.
Proof.
  intros Hs. unfold combat_encounter.
  destruct (choice_elem combat_outcomes (rand g)) as (text & r1 & -> & _);
    [done|].
  cbn [mbind result_bind]. cbv zeta. unfold input. game_simpl.
  destruct (stdin g) as [|l rest] eqn:Hin.
  - eexists _, _, _. split; [reflexivity|]. post.
  - destruct (negb _) eqn:Hvalid.
    + eexists _, _, _. split; [reflexivity|]. post.
    + destruct (str_in _ yes_options) eqn:Hyes.
      * game_simpl.
        destruct (combat_ok (player g) r1 Hs)
          as (won & p' & r' & fight & -> & Hstr & Hpos & _ & Hq).
        cbn [mbind result_bind].
        eexists _, _, _. split; [reflexivity|]. post.
      * eexists _, _, _. split; [reflexivity|]. post.
Qed.

Lemma accept_choice_ok g :
  1 <= strength (player g) →
  ∃ c g' out, accept_choice g = Ret (c, g', out) ∧ phase_post g c g' out.
Proof.
  intros Hs. unfold accept_choice.
  destruct (randint_ok 1 100 (rand g)) as (n & -> & Hn & _); [lia|].
  cbn [mbind result_bind]. cbv zeta.
  destruct (n =? 1).
  { eexists _, _, _. split; [reflexivity|]. post. }
  unfold random, draw. game_simpl.
  set (rnd := rand g 1%nat mod 2 ^ 53).
  set (r2 := fun n : nat => rand g (S (S n))).
  destruct (float_lt rnd f_0_1).
  { match goal with
    | |- context [combat_encounter ?G] =>
        destruct (combat_encounter_ok G) as (c & g' & out & -> & Hp); [done|]
    end.
    destruct Hp as ((Hm & Hstr & Hlen & Hq) & Hpos & Hc). game_simpl.
    cbn [mbind result_bind].
    destruct c; eexists _, _, _; (split; [reflexivity|]); post.
    by destruct (is_alive _). }
  destruct (float_lt rnd f_0_75).
  { destruct (choice_elem positive_outcomes r2) as (o & r3 & Hc & _); [done|].
    game_simpl. rewrite Hc. cbn [mbind result_bind].
    destruct (apply_positive_fields o (player g)) as [Hpos Hstr].
    eexists _, _, _. split; [reflexivity|]. post.
    by destruct (is_alive _). }
  destruct (float_lt rnd f_0_95).
  { destruct (choice_elem negative_outcomes r2) as (o & r3 & Hc & Ho); [done|].
    game_simpl. rewrite Hc. cbn [mbind result_bind].
    destruct (apply_negative_member o (player g) Ho) as (p' & -> & Hpos & Hstr).
    cbn [mbind result_bind].
    eexists _, _, _. split; [reflexivity|]. post.
    by destruct (is_alive _). }
  destruct (choice_elem even_outcomes r2) as (o & r3 & Hc & _); [done|].
  game_simpl. rewrite Hc. cbn [mbind result_bind].
  eexists _, _, _. split; [reflexivity|]. post.
  by destruct (is_alive _).
Qed.

Lemma table_lookup (table : list string) room_id :
  0 <= room_id < Z.of_nat (length table) → ∃ text, index table room_id = Ret text.
Proof. intros H. destruct (index_inb table room_id H) as (t & Ht & _). eauto. Qed.

Lemma room_event_ok g y x room_id :
  0 <= room_id < 25 → 1 <= strength (player g) →
  ∃ c g' out, room_event g y x room_id = Ret (c, g', out) ∧
              phase_post g c g' out.
Proof.
  intros Hid Hs. unfold room_event.
  destruct (table_lookup room_descriptions room_id) as [d ->]; [exact Hid|].
  destruct (table_lookup choices room_id) as [ch ->]; [exact Hid|].
  cbn [mbind result_bind]. cbv zeta. unfold input. game_simpl.
  destruct (stdin g) as [|l rest] eqn:Hin.
  - eexists _, _, _. split; [reflexivity|]. post.
  - destruct (negb _).
    + eexists _, _, _. split; [reflexivity|]. post.
    + destruct (str_in _ yes_options).
      * match goal with
        | |- context [accept_choice ?G] =>
            destruct (accept_choice_ok G) as (c & g' & out & -> & Hp); [done|]
        end.
        destruct Hp as ((Hm & Hstr & Hlen & Hq) & Hpos & Hc). game_simpl.
        cbn [mbind result_bind].
        eexists _, _, _. split; [reflexivity|]. post.
      * eexists _, _, _. split; [reflexivity|]. post.
Qed.

Lemma room_phase_ok g y x room_id :
  0 <= room_id < 25 → 1 <= strength (player g) →
  ∃ c g' out, room_phase g y x room_id = Ret (c, g', out) ∧
              phase_post g c g' out.
Proof.
  intros Hid Hs. unfold room_phase. case_bool_decide.
  - by apply room_event_ok.
  - eexists _, _, _. split; [reflexivity|]. post.
Qed.

Lemma door_menu_lookup : ∀ ns first m0 key v,
  (door_menu first ns m0).1 !! key = Some v → v ∈ ns ∨ m0 !! key = Some v.
Proof.
  induction ns as [|[[dir_name ny] nx] ns IH]; intros first m0 key v Hk.
  - by right.
  - cbn [door_menu] in Hk.
    destruct (door_menu (first + 1) ns _) as [m out] eqn:Hm.
    simpl in Hk.
    specialize (IH (first + 1) (<[pretty first := (dir_name, ny, nx)]> m0) key v).
    rewrite Hm in IH. destruct (IH Hk) as [Hin|Hlook].
    + left. by right.
    + apply lookup_insert_Some in Hlook as [[_ <-]|[_ Hlook]].
      * left. by left.
      * by right.
Qed.

Lemma door_menu_quiet : ∀ ns first m0,
  Forall (fun l => escape_line l = false) (door_menu first ns m0).2.
Proof.
  induction ns as [|[[dir_name ny] nx] ns IH]; intros first m0; [constructor|].
  cbn [door_menu]. specialize (IH (first + 1) (<[pretty first := (dir_name, ny, nx)]> m0)).
  destruct (door_menu (first + 1) ns _) as [m out]. simpl in *. by constructor.
Qed.

Lemma door_phase_ok g y x :
  game_ok g → inb 5 5 y x →
  ∃ c g' out, door_phase g y x = Ret (c, g', out) ∧
    steady g g' out ∧ c ≠ Fallthrough ∧
    (c = Continue → (length (stdin g') < length (stdin g))%nat) ∧
    inb 5 5 (position (player g')).1 (position (player g')).2.
Proof.
  intros Hok Hi. unfold door_phase.
  pose proof (gk_doors _ Hok) as Hdoors.
  pose proof (gk_strength _ Hok) as Hs.
  pose proof (gk_pos _ Hok) as Hpos.
  rewrite get_neighbors_ok
    by (rewrite (gk_width _ Hok), (gk_height _ Hok); done).
  cbn [mbind result_bind].
  set (ns := _ <$> cell_at (cells (maze g)) y x).
  assert (Hns : ∀ v, v ∈ ns → inb 5 5 v.1.2 v.2).
  { intros v (d & -> & Hd)%list_elem_of_fmap. simpl.
    by apply (ok_dir _ _ _ Hdoors y x d). }
  destruct ns as [|n0 ns'] eqn:Ens.
  { eexists _, _, _. split; [reflexivity|]. door_post. quiet. }
  rewrite <- Ens in *. clear Ens.
  pose proof (door_menu_lookup ns 1 ∅) as Hlook.
  pose proof (door_menu_quiet ns 1 ∅) as Hq.
  destruct (door_menu 1 ns ∅) as [door_options menu]. simpl in Hlook, Hq.
  unfold input.
  destruct (stdin g) as [|l rest] eqn:Hin.
  - eexists _, _, _. split; [reflexivity|]. door_post.
  - destruct (door_options !! strip l) as [[[dir_name ny] nx]|] eqn:Hsel.
    + destruct (randint_ok 1 100 (rand (with_stdin rest g))) as (n & -> & _);
        [lia|].
      cbn [mbind result_bind]. cbv zeta.
      destruct (Hlook _ _ Hsel) as [Hin'|Hempty]; [|by rewrite lookup_empty in Hempty].
      apply Hns in Hin'. simpl in Hin'.
      destruct (n =? 1); eexists _, _, _; (split; [reflexivity|]); door_post.
    + eexists _, _, _. split; [reflexivity|]. door_post.
Qed.

(** ** One iteration *)

Lemma game_ok_steady g g' :
  game_ok g → maze g' = maze g → 1 <= strength (player g') →
  inb 5 5 (position (player g')).1 (position (player g')).2 →
  game_ok g'.
Proof. intros [] Hm Hs Hp. split; rewrite ?Hm; done. Qed.

Lemma room_id_range y x : inb 5 5 y x → 0 <= y * 5 + x < 25.
Proof. unfold inb. lia. Qed.

Lemma loop_body_ok g :
  game_ok g →
  ∃ c g' out, loop_body g = Ret (c, g', out) ∧ game_ok g' ∧
    c ≠ Fallthrough ∧
    (length (stdin g') <= length (stdin g))%nat ∧
    (c = Continue →
       (length (stdin g') < length (stdin g))%nat ∧
       Forall (fun l => escape_line l = false) out).
Proof.
  intros Hok. unfold loop_body.
  pose proof (gk_pos _ Hok) as Hpos.
  destruct (position (player g)) as [y x] eqn:Hp. simpl in Hpos.
  case_bool_decide as Hexit.
  { eexists _, _, _. split; [reflexivity|]. split; [done|].
    split; [done|]. split; [lia|done]. }
  rewrite (gk_width _ Hok).
  destruct (room_phase_ok g y x (y * 5 + x)) as (c1 & g1 & out1 & -> & Hpost);
    [by apply room_id_range|apply Hok|].
  destruct Hpost as ((Hm & Hs1 & Hlen1 & Hq1) & Hpos1 & Hc1).
  assert (Hok1 : game_ok g1).
  { apply (game_ok_steady g); [done|done|done|]. by rewrite Hpos1, Hp. }
  cbn [mbind result_bind].
  destruct c1.
  - destruct (door_phase_ok g1 y x Hok1 Hpos)
      as (c2 & g2 & out2 & -> & (Hm2 & Hs2 & Hlen2 & Hq2) & Hne & Hc2 & Hpos2).
    cbn [mbind result_bind].
    eexists _, _, _. split; [reflexivity|].
    split; [apply (game_ok_steady g1); done|].
    split; [done|]. split; [lia|].
    intros Hc. split; [specialize (Hc2 Hc); lia|].
    apply Forall_app. done.
  - eexists _, _, _. split; [reflexivity|]. split; [done|].
    split; [done|]. split; [lia|]. intros _. split; [by apply Hc1|done].
  - eexists _, _, _. split; [reflexivity|]. split; [done|].
    split; [done|]. split; [lia|done].
Qed.

(** ** Sessions *)

Lemma new_game_ok r lines :
  ∃ g0, new_game r lines = Ret g0 ∧ game_ok g0 ∧ stdin g0 = lines ∧
        player g0 = Player_init ∧ visited_rooms g0 = ∅.
Proof.
  unfold new_game.
  destruct (Maze_init_ok 5 5 r) as (m & r' & -> & Hw & Hh & Hok & _ & Hdeg & _);
    [lia|lia|].
  cbn [mbind result_bind]. eexists. split; [reflexivity|].
  split; [|done]. split; cbn; try done. apply Hdeg; lia.
Qed.

Lemma iterates_ok g0 n g out :
  game_ok g0 → iterates g0 n g out →
  game_ok g ∧ (length (stdin g) + n <= length (stdin g0))%nat ∧
  Forall (fun l => escape_line l = false) out.
Proof.
  intros Hok0. induction 1 as [|n g out c g' out' _ IH Halive Hbody Hc].
  - split; [done|]. split; [lia|constructor].
  - destruct IH as (Hok & Hlen & Hq).
    destruct (loop_body_ok g Hok) as (c2 & g2 & out2 & Hbody2 & Hok2 & Hne & _ & Hcont).
    rewrite Hbody in Hbody2. inversion Hbody2; subst c2 g2 out2.
    destruct Hcont as [Hlt Hq2]; [by destruct c|].
    split; [done|]. split; [lia|]. by apply Forall_app.
Qed.

Lemma game_loop_iterates g0 n g out :
  iterates g0 n g out →
  ∀ fuel g' out', game_loop fuel g = Ret (g', out') →
                  game_loop (n + fuel) g0 = Ret (g', out ++ out').
Proof.
  induction 1 as [|n g out c g2 out2 _ IH Halive Hbody Hc];
    intros fuel g' out' Hloop; [done|].
  replace (S n + fuel)%nat with (n + S fuel)%nat by lia.
  rewrite <- app_assoc. apply IH.
  cbn [game_loop]. rewrite Halive, Hbody. cbn [mbind result_bind].
  rewrite Hloop. cbn [mbind result_bind]. by destruct c.
Qed.

(** Once [loop_body] executes [break], the session reports the player as
    the loop left it. *)
Lemma session_break g0 n g out g' out' fuel :
  iterates g0 n g out →
  is_alive (player g) = true →
  loop_body g = Ret (Break, g', out') →
  session (n + S fuel) g0
  = Ret (player g', (out ++ out') ++ report (player g')).
Proof.
  intros Hit Halive Hbody. unfold session.
  rewrite (game_loop_iterates g0 n g out Hit (S fuel) g' out').
  - done.
  - cbn [game_loop]. by rewrite Halive, Hbody.
Qed.

(** The loop always ends: every iteration that does not leave it consumes
    a line of input. *)
Lemma game_loop_total : ∀ fuel g,
  game_ok g → (length (stdin g) < fuel)%nat →
  ∃ g' out, game_loop fuel g = Ret (g', out).
Proof.
  induction fuel as [|fuel IH]; intros g Hok Hfuel; [lia|].
  cbn [game_loop]. destruct (is_alive (player g)); [|by eexists _, _].
  destruct (loop_body_ok g Hok) as (c & g1 & out1 & -> & Hok1 & Hne & Hle & Hcont).
  cbn [mbind result_bind].
  destruct c; [done| |by eexists _, _].
  destruct (Hcont eq_refl) as [Hlt _].
  destruct (IH g1 Hok1) as (g' & out & ->); [lia|].
  by eexists _, _.
Qed.

Lemma play_game_total r lines : ∃ p out, play_game r lines = Ret (p, out).
Proof.
  unfold play_game, play_game_fuel.
  destruct (new_game_ok r lines) as (g0 & -> & Hok & Hin & _).
  cbn [mbind result_bind]. unfold session.
  destruct (game_loop_total (S (length lines)) g0 Hok) as (g' & out & ->);
    [rewrite Hin; lia|].
  by eexists _, _.
Qed.

(** The session as [play_game] runs it, when the loop is known to leave
    at its iteration [n]. *)
Lemma play_game_break r lines g0 n g out g' out' :
  new_game r lines = Ret g0 →
  iterates g0 n g out →
  is_alive (player g) = true →
  loop_body g = Ret (Break, g', out') →
  (n <= length lines)%nat →
  play_game r lines
  = Ret (player g', Welcome :: (out ++ out') ++ report (player g')).
Proof.
  intros Hnew Hit Halive Hbody Hn. unfold play_game, play_game_fuel.
  rewrite Hnew. cbn [mbind result_bind].
  replace (S (length lines)) with (n + S (length lines - n))%nat by lia.
  by rewrite (session_break g0 n g out g' out' _ Hit Halive Hbody).
Qed.

(** ** Entering a room for the first time *)

Lemma loop_body_first_visit g y x c g' out :
  game_ok g → position (player g) = (y, x) →
  (y, x) ≠ exit_room (maze g) → (y, x) ∉ visited_rooms g →
  room_event g y x (y * 5 + x) = Ret (c, g', out) → c ≠ Fallthrough →
  loop_body g = Ret (c, g', out).
Proof.
  intros Hok Hp Hexit Hnew Hev Hc. unfold loop_body. rewrite Hp.
  rewrite bool_decide_eq_false_2 by done.
  rewrite (gk_width _ Hok). unfold room_phase.
  rewrite bool_decide_eq_true_2 by done.
  rewrite Hev. cbn [mbind result_bind]. by destruct c.
Qed.

Lemma room_tables g y x :
  game_ok g → position (player g) = (y, x) →
  ∃ description choice_text,
    index room_descriptions (y * 5 + x) = Ret description ∧
    index choices (y * 5 + x) = Ret choice_text.
Proof.
  intros Hok Hp. pose proof (gk_pos _ Hok) as Hpos. rewrite Hp in Hpos.
  apply room_id_range in Hpos.
  destruct (table_lookup room_descriptions (y * 5 + x)) as [d Hd]; [exact Hpos|].
  destruct (table_lookup choices (y * 5 + x)) as [c Hc]; [exact Hpos|].
  by exists d, c.
Qed.

Lemma float_lt_0_1_0_75 N : float_lt N f_0_75 = false → float_lt N f_0_1 = false.
Proof.
  cbv [float_lt f_0_75 f_0_1].
  change (2 ^ 2) with 4. change (2 ^ 53) with 9007199254740992.
  change (2 ^ 55) with 36028797018963968.
  intros H%Z.ltb_ge. apply Z.ltb_ge.
  assert (HN : 6755399441055744 <= N) by lia.
  apply Z.le_trans with (6755399441055744 * 36028797018963968).
  - by vm_compute.
  - by apply Z.mul_le_mono_nonneg_r.
Qed.

(** Lines 224-280 when the draws select a negative outcome that leaves the
    player without health. *)
Lemma accept_choice_negative_death g outcome p' :
  rand g 0%nat mod 100 ≠ 0 →
  float_lt (rand g 1%nat mod 2 ^ 53) f_0_75 = false →
  float_lt (rand g 1%nat mod 2 ^ 53) f_0_95 = true →
  negative_outcomes !! Z.to_nat (rand g 2%nat mod 4) = Some outcome →
  apply_negative outcome (player g) = Ret p' →
  health p' = 0 →
  ∃ g', accept_choice g = Ret (Break, g', [Text outcome]) ∧ player g' = p'.
Proof.
  intros Hn H75 H95 Hout Hneg Hzero. unfold accept_choice.
  destruct (randint_ok 1 100 (rand g)) as (n & -> & _ & Hnv); [lia|].
  cbn [mbind result_bind]. cbv zeta.
  change (100 - 1 + 1) with 100 in Hnv.
  destruct (Z.eqb_spec n 1) as [Heq|_]; [lia|].
  unfold random, draw. game_simpl.
  rewrite (float_lt_0_1_0_75 _ H75), H75, H95.
  rewrite choice_unfold by done. unfold randbelow, draw.
  change (Z.of_nat (length negative_outcomes)) with 4.
  cbn beta iota. rewrite Hout. cbn [mbind result_bind]. game_simpl.
  rewrite Hneg. cbn [mbind result_bind]. game_simpl.
  unfold is_alive. rewrite Hzero. cbn.
  eexists. split; reflexivity.
Qed.

(** ** Room outcomes *)

(** C6: when the draws of lines 225-268 select the positive (respectively
    the negative) branch, the room event picks one entry of the table,
    prints it, and hands back the game in which the player is the player
    it was given with exactly the effect fixed for that entry applied:
    +20 gold, +10 health, a potion, +1 strength, a sword with +2
    strength, +50 experience or a key; -15, -10 or -20 health, or -10
    gold floored at 0.  Nothing else of the player changes, and the
    dispatch on the text selects that effect whatever the player is. *)
Theorem outcome_effects (g : Game) :
  rand g 0%nat mod 100 ≠ 0 →
  (float_lt (rand g 1%nat mod 2 ^ 53) f_0_1 = false →
   float_lt (rand g 1%nat mod 2 ^ 53) f_0_75 = true →
   ∃ i outcome,
     positive_outcomes !! i = Some outcome ∧
     i = Z.to_nat (rand g 2%nat mod 7) ∧
     accept_choice g
     = Ret (if is_alive (positive_effect i (player g))
            then Fallthrough else Break,
            with_player (positive_effect i (player g))
              (with_rand (fun n => rand g (S (S (S n)))) g),
            [Text outcome])) ∧
  (float_lt (rand g 1%nat mod 2 ^ 53) f_0_75 = false →
   float_lt (rand g 1%nat mod 2 ^ 53) f_0_95 = true →
   ∃ i outcome,
     negative_outcomes !! i = Some outcome ∧
     i = Z.to_nat (rand g 2%nat mod 4) ∧
     accept_choice g
     = Ret (if is_alive (negative_effect i (player g))
            then Fallthrough else Break,
            with_player (negative_effect i (player g))
              (with_rand (fun n => rand g (S (S (S n)))) g),
            [Text outcome])) ∧
  (∀ p i outcome, positive_outcomes !! i = Some outcome →
     apply_positive outcome p = positive_effect i p) ∧
  (∀ p i outcome, negative_outcomes !! i = Some outcome →
     apply_negative outcome p = Ret (negative_effect i p)).
Proof.
  intros Hn.
  assert (Hpos : ∀ p i outcome, positive_outcomes !! i = Some outcome →
            apply_positive outcome p = positive_effect i p).
  { intros p i outcome Hi.
    do 7 (destruct i as [|i]; [by inversion Hi; subst|]). done. }
  assert (Hneg : ∀ p i outcome, negative_outcomes !! i = Some outcome →
            apply_negative outcome p = Ret (negative_effect i p)).
  { intros p i outcome Hi.
    do 4 (destruct i as [|i]; [by inversion Hi; subst|]). done. }
  split; [|split; [|split; [exact Hpos|exact Hneg]]].
  - intros H01 H75.
    destruct (choice_lookup positive_outcomes (fun n => rand g (S (S n))))
      as (i & o & r' & Hc & Hi & Hidx & Hr'); [done|].
    exists i, o. split; [done|]. split; [exact Hidx|].
    unfold accept_choice.
    destruct (randint_ok 1 100 (rand g)) as (n & -> & _ & Hnv); [lia|].
    cbn [mbind result_bind]. cbv zeta.
    change (100 - 1 + 1) with 100 in Hnv.
    destruct (Z.eqb_spec n 1) as [Heq|_]; [lia|].
    unfold random, draw. game_simpl. rewrite H01, H75.
    rewrite Hc. cbn [mbind result_bind]. game_simpl.
    rewrite (Hpos _ _ _ Hi). subst r'. reflexivity.
  - intros H75 H95.
    destruct (choice_lookup negative_outcomes (fun n => rand g (S (S n))))
      as (i & o & r' & Hc & Hi & Hidx & Hr'); [done|].
    exists i, o. split; [done|]. split; [exact Hidx|].
    unfold accept_choice.
    destruct (randint_ok 1 100 (rand g)) as (n & -> & _ & Hnv); [lia|].
    cbn [mbind result_bind]. cbv zeta.
    change (100 - 1 + 1) with 100 in Hnv.
    destruct (Z.eqb_spec n 1) as [Heq|_]; [lia|].
    unfold random, draw. game_simpl.
    rewrite (float_lt_0_1_0_75 _ H75), H75, H95.
    rewrite Hc. cbn [mbind result_bind]. game_simpl.
    rewrite (Hneg _ _ _ Hi). cbn [mbind result_bind]. game_simpl.
    subst r'. reflexivity.
Qed.

Lemma outcome_effects_witness :
  ∃ g0, new_game (constant_stream 0) [] = Ret g0 ∧
    (∃ g', accept_choice (with_rand (stream_of [3; 2000000000000000; 4]) g0)
           = Ret (Fallthrough, g', [Text "You find a sharp sword!"]) ∧
           player g' = set_strength 12 (add_item "Sword" Player_init)) ∧
    (∃ g', accept_choice (with_rand (stream_of [3; 7000000000000000; 3]) g0)
           = Ret (Fallthrough, g', [Text "A monster attacks! Lose 20 health."]) ∧
           player g' = set_health 80 Player_init).
Proof.
  destruct (new_game_ok (constant_stream 0) []) as (g0 & Hnew & _ & _ & Hpl & _).
  exists g0. split; [exact Hnew|]. split.
  - destruct (outcome_effects (with_rand (stream_of [3; 2000000000000000; 4]) g0))
      as ((i & o & Hi & Hidx & Hacc) & _);
      [vm_compute; congruence|vm_compute; reflexivity..|].
    vm_compute in Hidx. subst i. injection Hi as <-.
    game_simpl. rewrite Hpl in Hacc.
    eexists. split; [exact Hacc|]. reflexivity.
  - destruct (outcome_effects (with_rand (stream_of [3; 7000000000000000; 3]) g0))
      as (_ & (i & o & Hi & Hidx & Hacc) & _);
      [vm_compute; congruence|vm_compute; reflexivity..|].
    vm_compute in Hidx. subst i. injection Hi as <-.
    game_simpl. rewrite Hpl in Hacc.
    eexists. split; [exact Hacc|]. reflexivity.
Defined.

Lemma new_game_inv r lines g0 :
  new_game r lines = Ret g0 → game_ok g0 ∧ stdin g0 = lines.
Proof.
  intros Hnew. destruct (new_game_ok r lines) as (g0' & Hnew' & Hok & Hin & _).
  rewrite Hnew in Hnew'. by inversion Hnew'; subst.
Qed.

(** C8: when a negative room outcome leaves the player with exactly 0
    health, [is_alive] is false and the session ends as a death: after the
    outcome line it prints the death message and the final statistics and
    nothing else, and no line of the whole session announces an escape. *)
Theorem zero_health_ends_died (r : rng) (lines : list string) (g0 g : Game)
  (n : nat) (out0 : list line) (y x : Z) (l : string) (rest : list string)
  (outcome : string) (p' : Player) :
  new_game r lines = Ret g0 →
  iterates g0 n g out0 →
  is_alive (player g) = true →
  position (player g) = (y, x) →
  (y, x) ≠ exit_room (maze g) →
  (y, x) ∉ visited_rooms g →
  stdin g = l :: rest →
  str_in (lower (strip l)) yes_options = true →
  rand g 0%nat mod 100 ≠ 0 →
  float_lt (rand g 1%nat mod 2 ^ 53) f_0_75 = false →
  float_lt (rand g 1%nat mod 2 ^ 53) f_0_95 = true →
  negative_outcomes !! Z.to_nat (rand g 2%nat mod 4) = Some outcome →
  apply_negative outcome (player g) = Ret p' →
  health p' = 0 →
  is_alive p' = false ∧
  ∃ description choice_text,
    play_game r lines
    = Ret (p', Welcome :: out0 ++
                 [RoomDescription description; ChoicePrompt choice_text;
                  Text outcome; GameOver; final_stats p']) ∧
    Forall (fun l => escape_line l = false) out0.
Proof.
  intros Hnew Hit Halive Hp Hexit Hfirst Hin Hyes Hn H75 H95 Hout Hneg Hzero.
  destruct (new_game_inv r lines g0 Hnew) as [Hok0 Hin0].
  destruct (iterates_ok g0 n g out0 Hok0 Hit) as (Hok & Hlen & Hq).
  destruct (room_tables g y x Hok Hp) as (d & ch & Hd & Hch).
  assert (Hdead : is_alive p' = false) by (unfold is_alive; by rewrite Hzero).
  split; [done|]. exists d, ch. split; [|done].
  set (g1 := with_stdin rest (with_visited ({[ (y, x) ]} ∪ visited_rooms g) g)).
  destruct (accept_choice_negative_death g1 outcome p')
    as (g' & Hacc & Hpl); try done.
  assert (Hbody : loop_body g =
            Ret (Break, g', [RoomDescription d; ChoicePrompt ch; Text outcome])).
  { apply (loop_body_first_visit g y x); try done.
    unfold room_event. rewrite Hd, Hch. cbn [mbind result_bind]. cbv zeta.
    unfold input. game_simpl. rewrite Hin.
    rewrite str_in_app, Hyes. cbn [orb negb].
    fold g1. rewrite Hacc. reflexivity. }
  rewrite (play_game_break r lines g0 n g out0 g' _ Hnew Hit Halive Hbody).
  - rewrite Hpl. unfold report. rewrite Hdead.
    rewrite <- !app_assoc. reflexivity.
  - rewrite Hin, Hin0 in Hlen. simpl in Hlen. lia.
Qed.

(** ** End of input *)

Lemma room_event_eof g y x description choice_text :
  index room_descriptions (y * 5 + x) = Ret description →
  index choices (y * 5 + x) = Ret choice_text →
  stdin g = [] →
  room_event g y x (y * 5 + x)
  = Ret (Break, with_visited ({[ (y, x) ]} ∪ visited_rooms g) g,
         [RoomDescription description; ChoicePrompt choice_text; InputClosed]).
Proof.
  intros Hd Hc Hin. unfold room_event. rewrite Hd, Hc.
  cbn [mbind result_bind]. cbv zeta. unfold input. game_simpl.
  by rewrite Hin.
Qed.

Lemma accept_choice_fight_eof g :
  rand g 0%nat mod 100 ≠ 0 →
  float_lt (rand g 1%nat mod 2 ^ 53) f_0_1 = true →
  stdin g = [] →
  ∃ g' combat_choice,
    accept_choice g = Ret (Break, g', [Text combat_choice; FightPrompt; InputClosed]) ∧
    player g' = player g.
Proof.
  intros Hn H01 Hin. unfold accept_choice.
  destruct (randint_ok 1 100 (rand g)) as (n & -> & _ & Hnv); [lia|].
  cbn [mbind result_bind]. cbv zeta.
  change (100 - 1 + 1) with 100 in Hnv.
  destruct (Z.eqb_spec n 1) as [Heq|_]; [lia|].
  unfold random, draw. game_simpl. rewrite H01.
  unfold combat_encounter. game_simpl.
  destruct (choice_elem combat_outcomes (fun n : nat => rand g (S (S n))))
    as (text & r3 & -> & _); [done|].
  cbn [mbind result_bind]. cbv zeta. unfold input. game_simpl. rewrite Hin.
  cbn [mbind result_bind]. eexists _, _. split; reflexivity.
Qed.

Lemma door_phase_eof g y x :
  game_ok g → inb 5 5 y x → stdin g = [] →
  ∃ out, door_phase g y x = Ret (Break, g, out ++ [InputClosed]).
Proof.
  intros Hok Hi Hin. unfold door_phase.
  rewrite get_neighbors_ok
    by (rewrite (gk_width _ Hok), (gk_height _ Hok); apply Hok || done).
  cbn [mbind result_bind].
  pose proof (gk_degree _ Hok y x Hi) as Hdeg.
  destruct (cell_at (cells (maze g)) y x) as [|d cell]; [simpl in Hdeg; lia|].
  rewrite fmap_cons.
  destruct (door_menu 1 _ ∅) as [door_options menu].
  unfold input. rewrite Hin. by eexists.
Qed.

(** C9: whenever a session reaches one of its three prompts with the
    input stream at its end, [play_game] returns normally (no exception),
    its output ends with the end-of-input message followed only by the
    closing report, and the player it reports is the player as it was at
    the failed read. *)
Theorem end_of_stream_is_graceful (r : rng) (lines : list string)
  (g0 g : Game) (n : nat) (out0 : list line) (p : Player) :
  new_game r lines = Ret g0 →
  iterates g0 n g out0 →
  is_alive (player g) = true →
  position (player g) ≠ exit_room (maze g) →
  reads_eof g p →
  ∃ out,
    play_game r lines
    = Ret (p, Welcome :: out0 ++ out ++ InputClosed :: report p).
Proof.
  intros Hnew Hit Halive Hexit Heof.
  destruct (new_game_inv r lines g0 Hnew) as [Hok0 Hin0].
  destruct (iterates_ok g0 n g out0 Hok0 Hit) as (Hok & Hlen & Hq).
  assert (Hn : (n <= length lines)%nat) by (rewrite Hin0 in Hlen; lia).
  assert (Hfinish : ∀ g' out,
            loop_body g = Ret (Break, g', out ++ [InputClosed]) →
            player g' = p →
            play_game r lines
            = Ret (p, Welcome :: out0 ++ out ++ InputClosed :: report p)).
  { intros g' out Hbody <-.
    rewrite (play_game_break r lines g0 n g out0 g' _ Hnew Hit Halive Hbody Hn).
    by rewrite <- !app_assoc. }
  destruct Heof as [y x Hp Hfirst Hin|y x l Hp Hfirst Hin Hyes Hdraw H01
                    |y x g1 out1 Hp Hroom Hin].
  - rewrite Hp in Hexit.
    destruct (room_tables g y x Hok Hp) as (d & ch & Hd & Hch).
    exists [RoomDescription d; ChoicePrompt ch].
    apply (Hfinish (with_visited ({[ (y, x) ]} ∪ visited_rooms g) g));
      [|reflexivity].
    apply (loop_body_first_visit g y x); try done.
    by apply room_event_eof.
  - rewrite Hp in Hexit.
    destruct (room_tables g y x Hok Hp) as (d & ch & Hd & Hch).
    set (g1 := with_stdin [] (with_visited ({[ (y, x) ]} ∪ visited_rooms g) g)).
    destruct (accept_choice_fight_eof g1) as (g' & text & Hacc & Hpl); try done.
    exists [RoomDescription d; ChoicePrompt ch; Text text; FightPrompt].
    apply (Hfinish g'); [|exact Hpl].
    apply (loop_body_first_visit g y x); try done.
    unfold room_event. rewrite Hd, Hch. cbn [mbind result_bind]. cbv zeta.
    unfold input. game_simpl. rewrite Hin.
    rewrite str_in_app, Hyes. cbn [orb negb].
    fold g1. rewrite Hacc. reflexivity.
  - rewrite Hp in Hexit. rewrite (gk_width _ Hok) in Hroom.
    pose proof (gk_pos _ Hok) as Hpos. rewrite Hp in Hpos. simpl in Hpos.
    destruct (room_phase_ok g y x (y * 5 + x))
      as (c & g1' & out1' & Hroom' & (Hm & Hs1 & _) & Hpos1 & _);
      [by apply room_id_range|apply Hok|].
    rewrite Hroom in Hroom'. inversion Hroom'; subst c g1' out1'.
    assert (Hok1 : game_ok g1).
    { apply (game_ok_steady g); [done|done|done|]. by rewrite Hpos1, Hp. }
    destruct (door_phase_eof g1 y x Hok1 Hpos Hin) as (out & Hdoor).
    exists (out1 ++ out). apply (Hfinish g1); [|reflexivity].
    unfold loop_body. rewrite Hp. rewrite bool_decide_eq_false_2 by done.
    rewrite (gk_width _ Hok), Hroom. cbn [mbind result_bind].
    rewrite Hdoor. cbn [mbind result_bind]. by rewrite app_assoc.
Qed.

(** ** Positions *)

(** C10: in every session on the default 5x5 maze the game starts, and at
    the head of every iteration the player stands inside the grid, so the
    room number [y * width + x] lies in [0, 24] and both table lookups
    succeed; the whole session returns without raising. *)
Theorem position_stays_in_bounds (r : rng) (lines : list string) :
  ∃ g0, new_game r lines = Ret g0 ∧
    (∀ n g out, iterates g0 n g out →
       ∃ y x description choice_text,
         position (player g) = (y, x) ∧
         0 <= y < 5 ∧ 0 <= x < 5 ∧
         0 <= y * width (maze g) + x <= 24 ∧
         index room_descriptions (y * width (maze g) + x) = Ret description ∧
         index choices (y * width (maze g) + x) = Ret choice_text) ∧
    ∃ p out, play_game r lines = Ret (p, out).
Proof.
  destruct (new_game_ok r lines) as (g0 & Hnew & Hok0 & _).
  exists g0. split; [done|]. split; [|apply play_game_total].
  intros n g out Hit.
  destruct (iterates_ok g0 n g out Hok0 Hit) as (Hok & _).
  pose proof (gk_pos _ Hok) as Hpos.
  destruct (position (player g)) as [y x] eqn:Hp. simpl in Hpos.
  destruct (room_tables g y x Hok Hp) as (d & ch & Hd & Hch).
  exists y, x, d, ch. rewrite (gk_width _ Hok).
  pose proof (room_id_range y x Hpos). unfold inb in Hpos.
  repeat split; try done; lia.
Qed.

Lemma position_stays_in_bounds_witness :
  ∃ g0, new_game (constant_stream 7000000000000003) ["no"; "1"]%string = Ret g0 ∧
    ∃ g out, iterates g0 1 g out ∧
      ∃ y x description choice_text,
        position (player g) = (y, x) ∧
        0 <= y < 5 ∧ 0 <= x < 5 ∧
        0 <= y * width (maze g) + x <= 24 ∧
        index room_descriptions (y * width (maze g) + x) = Ret description ∧
        index choices (y * width (maze g) + x) = Ret choice_text.
Proof.
  destruct (position_stays_in_bounds (constant_stream 7000000000000003)
              ["no"; "1"]%string) as (g0 & Hnew & Hinv & _).
  exists g0. split; [exact Hnew|].
  vm_compute in Hnew. injection Hnew as <-.
  eexists _, _. split.
  - eapply iterates_S; [apply iterates_O|reflexivity| |].
    + vm_compute. reflexivity.
    + discriminate.
  - eapply Hinv.
    eapply iterates_S; [apply iterates_O|reflexivity| |].
    + vm_compute. reflexivity.
    + discriminate.
Defined.

(** ** Concrete sessions *)

(** Five rooms in a row, a monster in each: 100, 80, 60, 40, 20, 0. *)
Lemma zero_health_ends_died_witness :
  ∃ p' out0 outcome,
    is_alive p' = false ∧
    ∃ description choice_text,
      play_game (constant_stream 7000000000000003)
        ["yes"; "1"; "yes"; "2"; "yes"; "2"; "yes"; "2"; "yes"]%string
      = Ret (p', Welcome :: out0 ++
                   [RoomDescription description; ChoicePrompt choice_text;
                    Text outcome; GameOver; final_stats p']) ∧
      Forall (fun l => escape_line l = false) out0.
Proof.
  destruct (new_game_ok (constant_stream 7000000000000003)
              ["yes"; "1"; "yes"; "2"; "yes"; "2"; "yes"; "2"; "yes"]%string)
    as (g0 & Hnew & _).
  assert (Hnew' := Hnew). vm_compute in Hnew'. injection Hnew' as <-.
  match type of Hnew with
  | _ = Ret ?g => eassert (Hit : iterates g 4 _ _) by run_iterations 4%nat
  end.
  eexists _, _, _.
  eapply (zero_health_ends_died _ _ _ _ 4 _ 0 4 "yes"%string []
            "A monster attacks! Lose 20 health."%string);
    [exact Hnew|exact Hit|..]; try (vm_compute; reflexivity);
    try (vm_compute; congruence).
Defined.

(** The stream closes at the room prompt (no line at all), at the door
    prompt (after one answer) and at the fight prompt (the draws 7 select
    the combat branch). *)
Lemma end_of_stream_is_graceful_witness :
  (∃ out, play_game (constant_stream 7000000000000003) []
          = Ret (Player_init,
                 Welcome :: [] ++ out ++ InputClosed :: report Player_init)) ∧
  (∃ out, play_game (constant_stream 7000000000000003) ["no"%string]
          = Ret (Player_init,
                 Welcome :: [] ++ out ++ InputClosed :: report Player_init)) ∧
  (∃ out, play_game (constant_stream 7) ["yes"%string]
          = Ret (Player_init,
                 Welcome :: [] ++ out ++ InputClosed :: report Player_init)).
Proof.
  split; [|split].
  - destruct (new_game_ok (constant_stream 7000000000000003) [])
      as (g0 & Hnew & _ & Hin & Hpl & Hvis).
    rewrite <- Hpl.
    apply (end_of_stream_is_graceful _ _ g0 g0 0 [] (player g0) Hnew);
      [apply iterates_O|by rewrite Hpl| |].
    + vm_compute in Hnew. injection Hnew as <-. vm_compute. congruence.
    + apply (eof_room_prompt g0 0 0); [by rewrite Hpl| |done].
      rewrite Hvis. apply not_elem_of_empty.
  - destruct (new_game_ok (constant_stream 7000000000000003) ["no"%string])
      as (g0 & Hnew & _).
    assert (Hnew' := Hnew). vm_compute in Hnew'. injection Hnew' as <-.
    match type of Hnew with
    | _ = Ret ?g =>
        eassert (Heof : reads_eof g _)
          by (eapply (eof_door_prompt g 0 0);
              [reflexivity|vm_compute; reflexivity|reflexivity]);
        assert (Hexit : position (player g) ≠ exit_room (maze g))
          by (vm_compute; congruence);
        destruct (end_of_stream_is_graceful _ _ g g 0 [] _ Hnew
                    (iterates_O g) eq_refl Hexit Heof) as [out Hout]
    end.
    exists out. exact Hout.
  - destruct (new_game_ok (constant_stream 7) ["yes"%string])
      as (g0 & Hnew & _ & Hin & Hpl & Hvis).
    rewrite <- Hpl.
    apply (end_of_stream_is_graceful _ _ g0 g0 0 [] (player g0) Hnew);
      [apply iterates_O|by rewrite Hpl| |].
    + vm_compute in Hnew. injection Hnew as <-. vm_compute. congruence.
    + apply (eof_fight_prompt g0 0 0 "yes"%string); [by rewrite Hpl| |done|..].
      * rewrite Hvis. apply not_elem_of_empty.
      * reflexivity.
      * vm_compute in Hnew. injection Hnew as <-. vm_compute. congruence.
      * vm_compute in Hnew. injection Hnew as <-. reflexivity.
Defined.

(** ** An answer that is neither yes nor no *)

(** What the loop does with an invalid answer at the room prompt: the
    room is already marked visited, the answer is consumed, and the next
    iteration for the same room skips the event and falls through to the
    doors. *)
Lemma invalid_answer_skips_event g y x l rest :
  game_ok g →
  position (player g) = (y, x) →
  (y, x) ≠ exit_room (maze g) →
  (y, x) ∉ visited_rooms g →
  stdin g = l :: rest →
  str_in (lower (strip l)) (yes_options ++ no_options) = false →
  ∃ description choice_text g',
    loop_body g
    = Ret (Continue, g',
           [RoomDescription description; ChoicePrompt choice_text; PleaseYesNo]) ∧
    player g' = player g ∧
    visited_rooms g' = {[ (y, x) ]} ∪ visited_rooms g ∧
    stdin g' = rest ∧
    room_phase g' y x (y * width (maze g') + x) = Ret (Fallthrough, g', []).
Proof.
  intros Hok Hp Hexit Hfirst Hin Hbad.
  destruct (room_tables g y x Hok Hp) as (d & ch & Hd & Hch).
  exists d, ch. eexists. split; [|split; [|split; [|split]]].
  - apply (loop_body_first_visit g y x); try done.
    unfold room_event. rewrite Hd, Hch. cbn [mbind result_bind]. cbv zeta.
    unfold input. game_simpl. rewrite Hin, Hbad. reflexivity.
  - reflexivity.
  - reflexivity.
  - reflexivity.
  - unfold room_phase. game_simpl.
    rewrite bool_decide_eq_false_2; [done|].
    intros Hnot. apply Hnot. apply elem_of_union_l. by apply elem_of_singleton.
Qed.

(** C5 (the code departs from the claim): on the default maze generated
    from the constant draws 7000000000000003, the answer "maybe" at the
    first room prompt is followed by the door menu, not by the room's
    description and choice again; the room stays marked as visited. *)
Theorem invalid_answer_session :
  play_game (constant_stream 7000000000000003) ["maybe"%string]
  = Ret (Player_init,
         [Welcome;
          RoomDescription
            "A dusty chamber holds an old chest, faintly glowing with magic.";
          ChoicePrompt "Open the chest?";
          PleaseYesNo;
          AvailableDoors; DoorOption 1 "East"; DoorOption 2 "South"; DoorPrompt;
          InputClosed;
          Congratulations; FinalStats 100 10 0 0 []]).
Proof. vm_compute. reflexivity. Qed.

(** ** Further properties *)

(** The whole session always returns: for every stream of draws and every
    finite list of input lines, [play_game] ends without raising, within
    one iteration more than there are lines. *)
Theorem play_game_returns (r : rng) (lines : list string) :
  ∃ p out, play_game r lines = Ret (p, out) ∧
           ∃ tail, out = Welcome :: tail ++ report p.
Proof.
  unfold play_game, play_game_fuel.
  destruct (new_game_ok r lines) as (g0 & -> & Hok & Hin & _).
  cbn [mbind result_bind]. unfold session.
  destruct (game_loop_total (S (length lines)) g0 Hok) as (g' & out & ->);
    [rewrite Hin; lia|].
  cbn [mbind result_bind]. eexists _, _. split; [reflexivity|]. by eexists.
Qed.

(** A 1x1 maze is a single room without doors, whatever the draws; its
    exit is the start room. *)
Theorem maze_1x1 (r : rng) :
  ∃ r', Maze_init 1 1 r
        = Ret ({| width := 1; height := 1; cells := [[[]]];
                  visited := [[true]]; exit_room := (0, 0) |}, r').
Proof.
  cbv -[Z.modulo]. rewrite !Z.mod_1_r. by eexists.
Qed.

(** ** Degrees on any grid *)

Lemma cell_length_le_grid_degree w h cs y x :
  doors_ok w h cs → inb w h y x →
  (length (cell_at cs y x) <= grid_degree w h y x)%nat.
Proof.
  intros Hok Hi.
  set (inside := omap (fun '(dy, dx, d, _) =>
                         if in_bounds w h (y + dy) (x + dx) then Some d else None)
                      directions).
  assert (Hlen : length inside = grid_degree w h y x).
  { unfold inside, grid_degree, directions. cbn [omap list_omap List.filter].
    repeat match goal with
           | |- context [in_bounds ?a ?b ?c ?d] => destruct (in_bounds a b c d)
           end; reflexivity. }
  rewrite <- Hlen. apply submseteq_length.
  apply NoDup_submseteq; [by apply (ok_nodup _ _ _ Hok)|].
  intros d Hd. destruct (ok_dir _ _ _ Hok y x d Hi Hd) as [Hr Hn].
  apply in_bounds_inb in Hn. unfold inside. apply list_elem_of_omap.
  exists ((delta d).1, (delta d).2, d, opposite d).
  split; [by apply directions_spec|].
  unfold toward in Hn. simpl in Hn. by rewrite Hn.
Qed.

Lemma possible_adds_fill w h cell y x :
  (Nat.min 2 (grid_degree w h y x)
   <= length cell + length (possible_adds w h cell y x))%nat.
Proof.
  destruct cell as [|d0 [|d1 cell]]; [| |cbn [length]; lia].
  - unfold possible_adds, grid_degree, directions.
    cbn [omap list_omap mem existsb negb List.filter].
    rewrite !andb_true_r.
    repeat match goal with
           | |- context [in_bounds ?a ?b ?c ?d] => destruct (in_bounds a b c d)
           end; cbn [length]; lia.
  - unfold possible_adds, grid_degree, directions.
    cbn [omap list_omap mem existsb List.filter].
    rewrite !orb_false_r.
    repeat match goal with
           | |- context [in_bounds ?a ?b ?c ?d] => destruct (in_bounds a b c d)
           end;
    repeat match goal with
           | |- context [?a =? d0] =>
               let E := fresh "E" in destruct (Z.eqb_spec a d0) as [E|E]
           end; cbn [andb negb length]; lia.
Qed.

Lemma densify_cell_fill w h y x cs r :
  doors_ok w h cs → inb w h y x →
  ∃ cs' r', densify_cell w h y x (cs, r) = Ret (cs', r') ∧
    doors_ok w h cs' ∧ grows w h cs cs' ∧
    (Nat.min 2 (grid_degree w h y x) <= length (cell_at cs' y x))%nat.
Proof.
  intros Hok Hi. unfold densify_cell.
  rewrite (cell_at_get w h) by (done || apply Hok). cbn [mbind result_bind].
  set (cell := cell_at cs y x).
  destruct (Z.ltb_spec (Z.of_nat (length cell)) 4) as [Hlt|Hge].
  - pose proof (shuffle_perm (possible_adds w h cell y x) r) as Hperm.
    destruct (shuffle (possible_adds w h cell y x) r) as [shuffled r'].
    simpl in Hperm.
    set (adds := Z.min _ _).
    destruct (carve_all_ok w h y x (take (Z.to_nat adds) shuffled) cs Hok Hi)
      as (cs' & Hcarve & Hok' & Hg & Hlen).
    { intros e He. apply (possible_adds_spec w h cell y x).
      rewrite <- Hperm. eapply elem_of_sublist; [done|apply sublist_take]. }
    { eapply sublist_NoDup; [|apply fmap_sublist, sublist_take].
      rewrite Hperm. apply possible_adds_nodup. }
    rewrite Hcarve. cbn [mbind result_bind]. exists cs', r'.
    split; [done|]. split; [done|]. split; [done|].
    rewrite Hlen, length_take.
    pose proof (possible_adds_fill w h cell y x) as Hpa.
    rewrite <- Hperm in Hpa. fold cell. unfold adds. lia.
  - exists cs, r. split; [done|]. split; [done|]. split; [apply grows_refl|].
    fold cell. lia.
Qed.

Lemma densify_row_fill w h y : 0 <= y < h → ∀ xs cs r,
  (∀ x, x ∈ xs → 0 <= x < w) → doors_ok w h cs →
  ∃ cs' r',
    for_each xs (fun x st => densify_cell w h y x st) (cs, r) = Ret (cs', r') ∧
    doors_ok w h cs' ∧ grows w h cs cs' ∧
    ∀ x, x ∈ xs →
         (Nat.min 2 (grid_degree w h y x) <= length (cell_at cs' y x))%nat.
Proof.
  intros Hy. induction xs as [|x0 xs IH]; intros cs r Hxs Hok.
  - exists cs, r. split; [done|]. split; [done|]. split; [apply grows_refl|].
    intros x Hx. by apply elem_of_nil in Hx.
  - assert (Hi : inb w h y x0) by (split; [done|apply Hxs; by left]).
    destruct (densify_cell_fill w h y x0 cs r Hok Hi)
      as (cs1 & r1 & Hcell & Hok1 & Hg1 & Hdeg1).
    destruct (IH cs1 r1) as (cs' & r' & Hrest & Hok' & Hg' & Hdeg');
      [by intros x Hx; apply Hxs; right|done|].
    exists cs', r'. cbn [for_each]. rewrite Hcell. simpl.
    split; [done|]. split; [done|]. split; [by eapply grows_trans|].
    intros x [->|Hx]%elem_of_cons.
    + by eapply grows_length.
    + by apply Hdeg'.
Qed.

Lemma densify_rows_fill w h : ∀ ys cs r,
  (∀ y, y ∈ ys → 0 <= y < h) → doors_ok w h cs →
  ∃ cs' r',
    for_each ys
      (fun y st => for_each (range w) (fun x st => densify_cell w h y x st) st)
      (cs, r) = Ret (cs', r') ∧
    doors_ok w h cs' ∧ grows w h cs cs' ∧
    ∀ y x, y ∈ ys → 0 <= x < w →
           (Nat.min 2 (grid_degree w h y x) <= length (cell_at cs' y x))%nat.
Proof.
  induction ys as [|y0 ys IH]; intros cs r Hys Hok.
  - exists cs, r. split; [done|]. split; [done|]. split; [apply grows_refl|].
    intros y x Hy. by apply elem_of_nil in Hy.
  - assert (Hy0 : 0 <= y0 < h) by (apply Hys; by left).
    destruct (densify_row_fill w h y0 Hy0 (range w) cs r)
      as (cs1 & r1 & Hrow & Hok1 & Hg1 & Hdeg1); [|done|].
    { intros x Hx. unfold range in Hx. apply elem_of_seqZ in Hx. lia. }
    destruct (IH cs1 r1) as (cs' & r' & Hrest & Hok' & Hg' & Hdeg');
      [by intros y Hy; apply Hys; right|done|].
    exists cs', r'. cbn [for_each]. rewrite Hrow. simpl.
    split; [done|]. split; [done|]. split; [by eapply grows_trans|].
    intros y x [->|Hy]%elem_of_cons Hx.
    + eapply grows_length; [done|done|]. apply Hdeg1.
      unfold range. apply elem_of_seqZ. lia.
    + by apply Hdeg'.
Qed.

(** Everything [Maze.__init__] establishes, on any grid. *)
Lemma Maze_init_full w h r :
  1 <= w → 1 <= h →
  ∃ m r', Maze_init w h r = Ret (m, r') ∧
    width m = w ∧ height m = h ∧
    doors_ok w h (cells m) ∧
    (∀ y x, inb w h y x → reach w h (cells m) y x) ∧
    (∀ y x, inb w h y x →
       (Nat.min 2 (grid_degree w h y x) <= length (cell_at (cells m) y x)
        <= grid_degree w h y x)%nat) ∧
    (∀ y x, inb w h y x → vis_at (visited m) y x = true) ∧
    inb w h (exit_room m).1 (exit_room m).2.
Proof.
  intros Hw Hh. unfold Maze_init, generate_maze, generate_maze_fuel.
  cbn [width height cells visited exit_room].
  assert (H00 : inb w h 0 0) by (unfold inb; lia).
  destruct (mark_visited w h _ 0 0 (grid_shape_replicate w h false) H00)
    as (vis0 & Hset & _ & _).
  rewrite Hset. simpl.
  destruct (dfs_inv_init w h vis0 Hw Hh Hset) as [Hinv Hcount].
  destruct (dfs_loop_ok w h (dfs_fuel w h) _ vis0 [(0, 0)] r Hinv)
    as (cs1 & vis1 & r1 & Hdfs & Hinv1).
  { unfold dfs_fuel. simpl. nia. }
  rewrite Hdfs. simpl. unfold densify.
  destruct (densify_rows_fill w h (range h) cs1 r1)
    as (cs2 & r2 & Hden & Hok2 & Hg & Hdeg); [|apply Hinv1|].
  { intros y Hy. unfold range in Hy. apply elem_of_seqZ in Hy. lia. }
  rewrite Hden. simpl.
  unfold randint. destruct (Z.ltb_spec (h - 1) 0) as [|_]; [lia|]. simpl.
  destruct (Z.ltb_spec (w - 1) 0) as [|_]; [lia|]. simpl.
  eexists _, _. split; [done|]. cbn [width height cells visited exit_room].
  split; [done|]. split; [done|]. split; [done|].
  split; [|split; [|split]].
  - intros y x Hi. eapply reach_grows; [done|].
    apply (di_reach _ _ _ _ _ Hinv1); [done|].
    by eapply dfs_all_visited.
  - intros y x Hi. split; [|by apply cell_length_le_grid_degree].
    destruct Hi as [Hy Hx]. apply Hdeg; [|done].
    unfold range. apply elem_of_seqZ. lia.
  - intros y x Hi. by eapply dfs_all_visited.
  - simpl.
    pose proof (Z.mod_pos_bound (r2 0%nat) (h - 1 - 0 + 1)).
    pose proof (Z.mod_pos_bound (r2 1%nat) (w - 1 - 0 + 1)).
    unfold inb. lia.
Qed.

(** On every grid, also a strip or a single room, each room ends up with
    at least two doors or as many as it has grid neighbours, whichever is
    less, and never with more doors than grid neighbours: a corner room
    of a grid of at least 2x2 has exactly two doors, the end of a strip
    exactly one, a lone room none. *)
Theorem generated_maze_degree_bounds (w h : Z) (r : rng) :
  1 <= w → 1 <= h →
  ∃ m r', Maze_init w h r = Ret (m, r') ∧
    ∀ y x, 0 <= y < h → 0 <= x < w →
      ∃ cell, grid_get (cells m) y x = Ret cell ∧
              (Nat.min 2 (grid_degree w h y x) <= length cell
               <= grid_degree w h y x)%nat.
Proof.
  intros Hw Hh.
  destruct (Maze_init_full w h r Hw Hh)
    as (m & r' & Hm & _ & _ & Hok & _ & Hdeg & _).
  exists m, r'. split; [done|]. intros y x Hy Hx.
  assert (Hi : inb w h y x) by done.
  exists (cell_at (cells m) y x).
  split; [apply (cell_at_get w h); [apply Hok|done]|]. by apply Hdeg.
Qed.

Lemma generated_maze_degree_bounds_witness :
  ∃ m r', Maze_init 3 1 (stream_of [1]) = Ret (m, r') ∧
    ∃ cell, grid_get (cells m) 0 2 = Ret cell ∧
            (Nat.min 2 (grid_degree 3 1 0 2) <= length cell
             <= grid_degree 3 1 0 2)%nat.
Proof.
  destruct (generated_maze_degree_bounds 3 1 (stream_of [1]))
    as (m & r' & Hm & Hdeg); [lia|lia|].
  exists m, r'. split; [exact Hm|]. apply Hdeg; lia.
Defined.

(** The exit room of a generated maze is a room of the grid and can be
    reached from the start room (0,0) through the moves that
    [get_neighbors] offers, on every grid. *)
Theorem exit_room_reachable (w h : Z) (r : rng) :
  1 <= w → 1 <= h →
  ∃ m r', Maze_init w h r = Ret (m, r') ∧
    0 <= (exit_room m).1 < h ∧ 0 <= (exit_room m).2 < w ∧
    reachable m (exit_room m).1 (exit_room m).2.
Proof.
  intros Hw Hh.
  destruct (Maze_init_full w h r Hw Hh)
    as (m & r' & Hm & Hwm & Hhm & Hok & Hreach & _ & _ & Hexit).
  exists m, r'. split; [done|]. destruct Hexit as [Hy Hx].
  split; [done|]. split; [done|].
  apply reach_reachable; rewrite Hwm, Hhm; [done|]. by apply Hreach.
Qed.

Lemma exit_room_reachable_witness :
  ∃ m r', Maze_init 5 5 (constant_stream 7000000000000003) = Ret (m, r') ∧
    0 <= (exit_room m).1 < 5 ∧ 0 <= (exit_room m).2 < 5 ∧
    reachable m (exit_room m).1 (exit_room m).2.
Proof.
  apply (exit_room_reachable 5 5 (constant_stream 7000000000000003)); lia.
Defined.

(** [Maze.__init__] raises [IndexError] exactly when the width or the
    height is not positive: the grids are then empty and the start room
    cannot be marked. *)
Theorem Maze_init_raises_iff (w h : Z) (r : rng) :
  Maze_init w h r = Raise IndexError ↔ (w <= 0 ∨ h <= 0).
Proof.
  split.
  - intros Hraise.
    destruct (Z.le_gt_cases w 0) as [|Hw]; [by left|].
    destruct (Z.le_gt_cases h 0) as [|Hh]; [by right|].
    destruct (Maze_init_full w h r) as (m & r' & Hm & _); [lia|lia|].
    congruence.
  - intros Hdim. unfold Maze_init, generate_maze, generate_maze_fuel.
    cbn [width height cells visited exit_room].
    destruct (Z.le_gt_cases h 0) as [Hh|Hh].
    + replace (Z.to_nat h) with 0%nat by lia. reflexivity.
    + assert (Hw : w <= 0) by lia.
      replace (Z.to_nat w) with 0%nat by lia.
      unfold grid_set, index. rewrite length_replicate.
      rewrite norm_index_inb by lia.
      rewrite lookup_replicate_2 by lia. reflexivity.
Qed.

(** ** The door menu *)

Lemma door_menu_cons first dir_name ny nx rest m0 :
  door_menu first ((dir_name, ny, nx) :: rest) m0
  = ((door_menu (first + 1) rest (<[pretty first := (dir_name, ny, nx)]> m0)).1,
     DoorOption first dir_name
       :: (door_menu (first + 1) rest (<[pretty first := (dir_name, ny, nx)]> m0)).2).
Proof. cbn [door_menu]. by destruct (door_menu _ _ _). Qed.

Lemma door_menu_miss : ∀ ns first m0 key,
  (∀ i, (i < length ns)%nat → key ≠ pretty (first + Z.of_nat i)) →
  (door_menu first ns m0).1 !! key = m0 !! key.
Proof.
  induction ns as [|[[dir_name ny] nx] ns IH]; intros first m0 key Hkey; [done|].
  rewrite door_menu_cons. cbn [fst]. rewrite IH.
  - apply lookup_insert_ne. specialize (Hkey 0%nat). simpl in Hkey.
    rewrite Z.add_0_r in Hkey. intros Heq. apply Hkey; [lia|done].
  - intros i Hi. specialize (Hkey (S i)). simpl in Hkey.
    replace (first + 1 + Z.of_nat i) with (first + Z.of_nat (S i)) by lia.
    apply Hkey. lia.
Qed.

Lemma door_menu_hit : ∀ ns first m0 i n,
  ns !! i = Some n →
  (door_menu first ns m0).1 !! pretty (first + Z.of_nat i) = Some n.
Proof.
  induction ns as [|[[dir_name ny] nx] ns IH]; intros first m0 i n Hi; [done|].
  rewrite door_menu_cons. cbn [fst]. destruct i as [|i].
  - simpl in Hi. inversion Hi; subst n. rewrite Z.add_0_r.
    rewrite door_menu_miss; [apply lookup_insert_eq|].
    intros j _ Heq. apply (inj pretty) in Heq. lia.
  - simpl in Hi.
    replace (first + Z.of_nat (S i)) with (first + 1 + Z.of_nat i) by lia.
    by apply IH.
Qed.

Lemma door_menu_inv : ∀ ns first m0 key n,
  (door_menu first ns m0).1 !! key = Some n →
  (∃ i, ns !! i = Some n ∧ key = pretty (first + Z.of_nat i)) ∨
  m0 !! key = Some n.
Proof.
  induction ns as [|[[dir_name ny] nx] ns IH]; intros first m0 key n Hk;
    [by right|].
  rewrite door_menu_cons in Hk. cbn [fst] in Hk.
  destruct (IH _ _ _ _ Hk) as [(i & Hi & ->)|Hlook].
  - left. exists (S i). split; [done|]. f_equal. lia.
  - apply lookup_insert_Some in Hlook as [[<- <-]|[_ Hlook]].
    + left. exists 0%nat. split; [done|]. by rewrite Z.add_0_r.
    + by right.
Qed.

Lemma door_menu_size : ∀ ns first m0,
  (∀ i, (i < length ns)%nat → m0 !! pretty (first + Z.of_nat i) = None) →
  size (door_menu first ns m0).1 = (size m0 + length ns)%nat.
Proof.
  induction ns as [|[[dir_name ny] nx] ns IH]; intros first m0 Hfresh.
  - simpl. lia.
  - rewrite door_menu_cons. cbn [fst]. rewrite IH.
    + rewrite map_size_insert_None; [simpl; lia|].
      specialize (Hfresh 0%nat). rewrite Z.add_0_r in Hfresh.
      apply Hfresh. simpl. lia.
    + intros i Hi. rewrite lookup_insert_ne.
      * replace (first + 1 + Z.of_nat i) with (first + Z.of_nat (S i)) by lia.
        apply Hfresh. simpl. lia.
      * intros Heq. apply (inj pretty) in Heq. lia.
Qed.

Lemma door_menu_lines : ∀ ns first m0,
  (door_menu first ns m0).2
  = imap (fun i (n : string * Z * Z) => DoorOption (first + Z.of_nat i) n.1.1) ns.
Proof.
  induction ns as [|[[dir_name ny] nx] ns IH]; intros first m0; [done|].
  rewrite door_menu_cons. cbn [snd imap]. rewrite Z.add_0_r. f_equal.
  rewrite IH. apply imap_ext. intros i n _. simpl. f_equal. lia.
Qed.

(** The menu built at lines 288-291 answers exactly the numerals it
    prints: [str(i)] for the i-th neighbour (counting from 1) is mapped to
    that neighbour, every other string (also "01", "+1" or "0") is
    missing, the dictionary has one entry per neighbour, and the printed
    options are numbered 1, 2, ... in the order of the neighbours. *)
Theorem door_menu_round_trip (neighbors : list (string * Z * Z)) :
  (∀ i n, neighbors !! i = Some n →
     (door_menu 1 neighbors ∅).1 !! pretty (1 + Z.of_nat i) = Some n) ∧
  (∀ key n, (door_menu 1 neighbors ∅).1 !! key = Some n →
     ∃ i, neighbors !! i = Some n ∧ key = pretty (1 + Z.of_nat i)) ∧
  size (door_menu 1 neighbors ∅).1 = length neighbors ∧
  (door_menu 1 neighbors ∅).2
  = imap (fun i (n : string * Z * Z) => DoorOption (1 + Z.of_nat i) n.1.1)
         neighbors.
Proof.
  split; [|split; [|split]].
  - intros i n Hi. by apply door_menu_hit.
  - intros key n Hk. destruct (door_menu_inv _ _ _ _ _ Hk) as [H|H]; [done|].
    by rewrite lookup_empty in H.
  - rewrite door_menu_size; [by rewrite map_size_empty|].
    intros i _. apply lookup_empty.
  - apply door_menu_lines.
Qed.

Lemma door_menu_round_trip_witness :
  (door_menu 1 [("East"%string, 0, 1); ("South"%string, 1, 0)] ∅).1
    !! pretty (1 + Z.of_nat 1) = Some ("South"%string, 1, 0) ∧
  size (door_menu 1 [("East"%string, 0, 1); ("South"%string, 1, 0)] ∅).1
  = 2%nat.
Proof.
  destruct (door_menu_round_trip [("East"%string, 0, 1); ("South"%string, 1, 0)])
    as (Hhit & _ & Hsize & _).
  split; [by apply (Hhit 1%nat)|exact Hsize].
Defined.

(** ** What combat does to the player *)

Lemma set_health_same p : set_health (health p) p = p.
Proof. by destruct p. Qed.

Lemma apply_gain_reward gain p :
  gain ∈ combat_gains → combat_reward p (apply_gain gain p).
Proof.
  unfold combat_gains. rewrite !elem_of_cons, elem_of_nil.
  intros [-> | [-> | [-> | []]]]; unfold combat_reward; cbn; tauto.
Qed.

Lemma combat_loop_result : ∀ (n : nat) self mh ms r,
  1 <= strength self → 1 <= ms → 0 < mh <= Z.of_nat n →
  ∃ won self' r' out,
    (∀ fuel, (n <= fuel)%nat →
       combat_loop fuel self mh ms r = Ret (won, self', r', out)) ∧
    won = is_alive self' ∧ health self' <= health self ∧
    (won = true → combat_reward (set_health (health self') self) self') ∧
    (won = false → self' = set_health (health self') self).
Proof.
  induction n as [|n IH]; intros self mh ms r Hs Hms Hmh; [lia|].
  destruct (Z.gtb_spec (health self) 0) as [Halive|Hdead].
  - destruct (randint_ok 1 (strength self) r Hs) as (dmg & Hdmg & Hrange & _).
    destruct (Z.leb_spec (mh - dmg) 0) as [Hkill|Hsurv].
    + destruct (choice_elem combat_gains (fun k => r (S k)))
        as (gain & r2 & Hgain & Hin); [done|].
      destruct (apply_gain_fields gain self) as (_ & _ & Hh).
      eexists true, (apply_gain gain self), r2, _. split; [|split; [|split; [|split]]].
      * intros [|fuel] Hfuel; [lia|]. cbn [combat_loop].
        destruct (Z.gtb_spec (health self) 0); [|lia].
        destruct (Z.gtb_spec mh 0); [|lia]. cbn [andb].
        rewrite Hdmg. cbn [mbind result_bind]. cbv zeta.
        destruct (Z.leb_spec (mh - dmg) 0); [|lia].
        rewrite Hgain. reflexivity.
      * unfold is_alive. rewrite Hh. symmetry. apply Z.gtb_lt. lia.
      * lia.
      * intros _. rewrite Hh, set_health_same. by apply apply_gain_reward.
      * done.
    + destruct (randint_ok 1 ms (fun k => r (S k)) Hms)
        as (dmg2 & Hdmg2 & Hrange2 & _).
      destruct (IH (set_health (health self - dmg2) self) (mh - dmg) ms
                   (fun k => r (S (S k))))
        as (won & self' & r' & out & Hloop & Halive' & Hle & Hwon & Hlost);
        [done|done|lia|].
      cbn [health set_health] in Hle.
      eexists won, self', r', _. split; [|split; [|split; [|split]]].
      * intros [|fuel] Hfuel; [lia|]. cbn [combat_loop].
        destruct (Z.gtb_spec (health self) 0); [|lia].
        destruct (Z.gtb_spec mh 0); [|lia]. cbn [andb].
        rewrite Hdmg. cbn [mbind result_bind]. cbv zeta.
        destruct (Z.leb_spec (mh - dmg) 0); [lia|].
        rewrite Hdmg2. cbn [mbind result_bind]. cbv zeta.
        rewrite Hloop by lia. reflexivity.
      * done.
      * lia.
      * exact Hwon.
      * exact Hlost.
  - exists false, self, r, [YouLose]. split; [|split; [|split; [|split]]].
    + intros fuel _. destruct fuel; simpl;
        destruct (Z.gtb_spec (health self) 0); try lia; simpl;
        destruct (Z.leb_spec (health self) 0); try lia; done.
    + unfold is_alive. destruct (Z.gtb_spec (health self) 0); [lia|done].
    + lia.
    + done.
    + intros _. by rewrite set_health_same.
Qed.

Lemma combat_fuel_result self r :
  1 <= strength self →
  ∃ won self' r' out,
    (∀ fuel, (50 <= fuel)%nat →
       combat_fuel fuel self r = Ret (won, self', r', out)) ∧
    won = is_alive self' ∧
    health self' <= health self ∧
    (won = true → combat_reward (set_health (health self') self) self') ∧
    (won = false → self' = set_health (health self') self).
Proof.
  intros Hs. unfold combat_fuel.
  destruct (randint_ok 20 50 r) as (mh & Hmh & Hmhr & _); [lia|].
  destruct (randint_ok 5 15 (fun n => r (S n))) as (ms & Hms & Hmsr & _); [lia|].
  destruct (combat_loop_result 50 self mh ms (fun n => r (S (S n))))
    as (won & self' & r' & out & Hloop & Hrest); [done|lia|lia|].
  eexists won, self', r', _. split; [|exact Hrest].
  intros fuel Hfuel. rewrite Hmh. cbn [mbind result_bind].
  rewrite Hms. cbn [mbind result_bind]. rewrite Hloop by done. reflexivity.
Qed.

(** [Player.combat] returns whether the player is still alive.  Combat
    never raises the player's health and never touches strength,
    position or the last door; a win applies exactly one of the three
    rewards, a loss changes nothing but the health. *)
Theorem combat_result (self : Player) (r : rng) :
  1 <= strength self →
  ∃ won self' r' out,
    combat self r = Ret (won, self', r', out) ∧
    won = is_alive self' ∧
    health self' <= health self ∧
    (won = true → combat_reward (set_health (health self') self) self') ∧
    (won = false → self' = set_health (health self') self).
Proof.
  intros Hs.
  destruct (combat_fuel_result self r Hs)
    as (won & self' & r' & out & Hc & Halive & Hle & Hwon & Hlost).
  exists won, self', r', out.
  split; [exact (Hc 50%nat (Nat.le_refl _))|].
  split; [exact Halive|]. split; [exact Hle|]. split; [exact Hwon|exact Hlost].
Qed.

Lemma combat_result_witness :
  ∃ won self' r' out,
    combat Player_init (stream_of [7; 3; 4; 2; 9; 1]) = Ret (won, self', r', out) ∧
    won = is_alive self' ∧
    health self' <= health Player_init ∧
    (won = true → combat_reward (set_health (health self') Player_init) self') ∧
    (won = false → self' = set_health (health self') Player_init).
Proof.
  apply (combat_result Player_init (stream_of [7; 3; 4; 2; 9; 1])).
  cbn [strength Player_init]. lia.
Defined.

(** ** What a room event changes *)

Lemma stats_mono_trans p1 p2 p3 :
  stats_mono p1 p2 → stats_mono p2 p3 → stats_mono p1 p3.
Proof.
  intros (? & ? & ? & ?) (? & ? & ? & ?).
  repeat split; try lia. by etrans.
Qed.

Lemma apply_positive_mono outcome p :
  stats_mono p (apply_positive outcome p) ∧
  position (apply_positive outcome p) = position p ∧
  previous_door (apply_positive outcome p) = previous_door p.
Proof.
  unfold apply_positive.
  repeat (destruct (contains _ outcome); [summ|]). summ.
Qed.

Lemma apply_negative_mono outcome p :
  outcome ∈ negative_outcomes →
  ∃ p', apply_negative outcome p = Ret p' ∧ stats_mono p p' ∧
        position p' = position p ∧ previous_door p' = previous_door p.
Proof.
  unfold negative_outcomes. rewrite !elem_of_cons, elem_of_nil.
  intros [-> | [-> | [-> | [-> | []]]]]; eexists; (split; [reflexivity|summ]).
Qed.

Lemma combat_loop_plain : ∀ fuel self mh ms r won self' r' out,
  combat_loop fuel self mh ms r = Ret (won, self', r', out) →
  Forall (fun l => plain_line l = true) out.
Proof.
  induction fuel as [|fuel IH]; intros self mh ms r won self' r' out H.
  - simpl in H. destruct (_ && _); [done|].
    destruct (_ <=? _); inversion H; subst; quiet.
  - cbn [combat_loop] in H. destruct (_ && _).
    + apply bind_Ret in H as ([dmg r1] & _ & H). cbv zeta in H.
      destruct (_ <=? _).
      * apply bind_Ret in H as ([gain r2] & _ & H). inversion H; subst. quiet.
      * apply bind_Ret in H as ([dmg2 r2] & _ & H).
        apply bind_Ret in H as ([[[b s1] r3] out1] & Hrec & H).
        inversion H; subst. apply IH in Hrec. quiet.
    + destruct (_ <=? _); inversion H; subst; quiet.
Qed.

Lemma combat_fuel_plain fuel self r won self' r' out :
  combat_fuel fuel self r = Ret (won, self', r', out) →
  Forall (fun l => plain_line l = true) out.
Proof.
  unfold combat_fuel. intros Hc.
  apply bind_Ret in Hc as ([mh r1] & _ & Hc).
  apply bind_Ret in Hc as ([ms r2] & _ & Hc).
  apply bind_Ret in Hc as ([[[b s1] r3] out1] & Hloop & Hc).
  inversion Hc; subst. apply combat_loop_plain in Hloop. quiet.
Qed.

Lemma combat_reward_mono p p' :
  combat_reward p p' →
  stats_mono p p' ∧ position p' = position p ∧
  previous_door p' = previous_door p.
Proof. intros [-> | [-> | ->]]; summ. Qed.

Lemma combat_summary self r :
  1 <= strength self →
  ∃ won self' r' out,
    combat self r = Ret (won, self', r', out) ∧
    stats_mono self self' ∧ position self' = position self ∧
    previous_door self' = previous_door self ∧
    Forall (fun l => plain_line l = true) out.
Proof.
  intros Hs.
  destruct (combat_fuel_result self r Hs)
    as (won & self' & r' & out & Hc & _ & _ & Hwon & Hlost).
  exists won, self', r', out.
  specialize (Hc 50%nat (Nat.le_refl _)).
  split; [exact Hc|].
  assert (Hfacts : stats_mono self self' ∧ position self' = position self ∧
                   previous_door self' = previous_door self).
  { destruct won.
    - destruct (combat_reward_mono _ _ (Hwon eq_refl)) as (Hm & Hp & Hd).
      split; [|done]. eapply stats_mono_trans; [|exact Hm]. summ.
    - rewrite (Hlost eq_refl). summ. }
  destruct Hfacts as (Hm & Hp & Hd).
  split; [exact Hm|]. split; [exact Hp|]. split; [exact Hd|].
  exact (combat_fuel_plain 50 self r won self' r' out Hc).
Qed.

Lemma combat_encounter_summary g :
  1 <= strength (player g) →
  ∃ c g' out, combat_encounter g = Ret (c, g', out) ∧ event_summary g g' out.
Proof.
  intros Hs. unfold combat_encounter.
  destruct (choice_elem combat_outcomes (rand g)) as (text & r1 & -> & _);
    [done|].
  cbn [mbind result_bind]. cbv zeta. unfold input. game_simpl.
  destruct (stdin g) as [|l rest] eqn:Hin.
  - eexists _, _, _. split; [reflexivity|]. summ.
  - destruct (negb _) eqn:Hvalid.
    + eexists _, _, _. split; [reflexivity|]. summ.
    + destruct (str_in _ yes_options) eqn:Hyes.
      * game_simpl.
        destruct (combat_summary (player g) r1 Hs)
          as (won & p' & r' & fight & -> & (? & ? & ? & ?) & Hpos & Hdoor & Hq).
        cbn [mbind result_bind].
        eexists _, _, _. split; [reflexivity|]. summ.
      * eexists _, _, _. split; [reflexivity|]. summ.
Qed.

Lemma accept_choice_summary g :
  1 <= strength (player g) →
  ∃ c g' out, accept_choice g = Ret (c, g', out) ∧ event_summary g g' out.
Proof.
  intros Hs. unfold accept_choice.
  destruct (randint_ok 1 100 (rand g)) as (n & -> & Hn & _); [lia|].
  cbn [mbind result_bind]. cbv zeta.
  destruct (n =? 1).
  { eexists _, _, _. split; [reflexivity|]. summ. }
  unfold random, draw. game_simpl.
  set (rnd := rand g 1%nat mod 2 ^ 53).
  set (r2 := fun n : nat => rand g (S (S n))).
  destruct (float_lt rnd f_0_1).
  { match goal with
    | |- context [combat_encounter ?G] =>
        destruct (combat_encounter_summary G) as (c & g' & out & -> & Hp); [done|]
    end.
    destruct Hp as (Hm & Hv & Hpos & Hdoor & (? & ? & ? & ?) & Hq). game_simpl.
    cbn [mbind result_bind].
    destruct c; eexists _, _, _; (split; [reflexivity|]); summ. }
  destruct (float_lt rnd f_0_75).
  { destruct (choice_elem positive_outcomes r2) as (o & r3 & Hc & _); [done|].
    game_simpl. rewrite Hc. cbn [mbind result_bind].
    destruct (apply_positive_mono o (player g)) as ((? & ? & ? & ?) & Hpos & Hdoor).
    eexists _, _, _. split; [reflexivity|]. summ. }
  destruct (float_lt rnd f_0_95).
  { destruct (choice_elem negative_outcomes r2) as (o & r3 & Hc & Ho); [done|].
    game_simpl. rewrite Hc. cbn [mbind result_bind].
    destruct (apply_negative_mono o (player g) Ho)
      as (p' & -> & (? & ? & ? & ?) & Hpos & Hdoor).
    cbn [mbind result_bind].
    eexists _, _, _. split; [reflexivity|]. summ. }
  destruct (choice_elem even_outcomes r2) as (o & r3 & Hc & _); [done|].
  game_simpl. rewrite Hc. cbn [mbind result_bind].
  eexists _, _, _. split; [reflexivity|]. summ.
Qed.

Lemma room_event_summary g y x room_id :
  0 <= room_id < 25 → 1 <= strength (player g) →
  ∃ c g' description rest,
    room_event g y x room_id = Ret (c, g', RoomDescription description :: rest) ∧
    index room_descriptions room_id = Ret description ∧
    maze g' = maze g ∧
    visited_rooms g' = {[ (y, x) ]} ∪ visited_rooms g ∧
    position (player g') = position (player g) ∧
    previous_door (player g') = previous_door (player g) ∧
    stats_mono (player g) (player g') ∧
    Forall (fun l => plain_line l = true) rest.
Proof.
  intros Hid Hs. unfold room_event.
  destruct (table_lookup room_descriptions room_id) as [d Hd]; [exact Hid|].
  destruct (table_lookup choices room_id) as [ch ->]; [exact Hid|].
  rewrite Hd.
  cbn [mbind result_bind]. cbv zeta. unfold input. game_simpl.
  destruct (stdin g) as [|l rest] eqn:Hin.
  - eexists _, _, d, _. split; [reflexivity|]. summ.
  - destruct (negb _).
    + eexists _, _, d, _. split; [reflexivity|]. summ.
    + destruct (str_in _ yes_options).
      * match goal with
        | |- context [accept_choice ?G] =>
            destruct (accept_choice_summary G) as (c & g' & out & -> & Hp); [done|]
        end.
        destruct Hp as (Hm & Hv & Hpos & Hdoor & (? & ? & ? & ?) & Hq).
        game_simpl. cbn [mbind result_bind].
        eexists _, _, d, _. split; [reflexivity|]. summ.
      * eexists _, _, d, _. split; [reflexivity|]. summ.
Qed.

Lemma door_phase_summary g y x :
  game_ok g → inb 5 5 y x →
  ∃ c g' out, door_phase g y x = Ret (c, g', out) ∧
    maze g' = maze g ∧ visited_rooms g' = visited_rooms g ∧
    Forall (fun l => plain_line l = true) out ∧
    (player g' = player g ∨ player g' = set_health 0 (player g) ∨
     ∃ d, d ∈ cell_at (cells (maze g)) y x ∧
          player g' = move_to (dir_name_of d) (toward y x d).1 (toward y x d).2
                        (player g)).
Proof.
  intros Hok Hi. unfold door_phase.
  rewrite get_neighbors_ok
    by (rewrite (gk_width _ Hok), (gk_height _ Hok); apply Hok || done).
  cbn [mbind result_bind].
  pose proof (gk_degree _ Hok y x Hi) as Hdeg.
  set (cell := cell_at (cells (maze g)) y x) in *.
  set (ns := _ <$> cell).
  assert (Hns : ∀ dir_name ny nx, (dir_name, ny, nx) ∈ ns →
            ∃ d, d ∈ cell ∧ dir_name = dir_name_of d ∧
                 ny = (toward y x d).1 ∧ nx = (toward y x d).2).
  { intros dir_name ny nx (d & Heq & Hd)%list_elem_of_fmap.
    inversion Heq; subst. by exists d. }
  assert (Hne : ns ≠ []).
  { unfold ns. destruct cell; [simpl in Hdeg; lia|done]. }
  destruct ns as [|n0 ns'] eqn:Ens; [done|].
  rewrite <- Ens in *. clear Ens Hne.
  pose proof (door_menu_lookup ns 1 ∅) as Hlook.
  pose proof (door_menu_quiet ns 1 ∅) as Hq.
  pose proof (door_menu_lines ns 1 ∅) as Hlines.
  destruct (door_menu 1 ns ∅) as [door_options menu].
  cbn [fst snd] in Hlook, Hq, Hlines.
  assert (Hmenu : Forall (fun l => plain_line l = true) menu).
  { rewrite Hlines. apply Forall_forall. intros l Hl.
    apply elem_of_lookup_imap in Hl as (i & n & -> & _). done. }
  assert (Hout : ∀ tail, Forall (fun l => plain_line l = true) tail →
            Forall (fun l => plain_line l = true)
                   ((AvailableDoors :: menu ++ [DoorPrompt]) ++ tail)).
  { intros tail Htail. rewrite Forall_app. split; [|done].
    constructor; [done|]. rewrite Forall_app. split; [done|quiet]. }
  unfold input.
  destruct (stdin g) as [|l rest] eqn:Hin.
  - eexists _, _, _. split; [reflexivity|]. game_simpl.
    split; [done|]. split; [done|]. split; [apply Hout; quiet|by left].
  - destruct (door_options !! strip l) as [[[dir_name ny] nx]|] eqn:Hsel.
    + destruct (randint_ok 1 100 (rand (with_stdin rest g))) as (n & -> & _);
        [lia|].
      cbn [mbind result_bind]. cbv zeta.
      destruct (Hlook _ _ Hsel) as [Hin'|Hempty];
        [|by rewrite lookup_empty in Hempty].
      apply Hns in Hin' as (d & Hd & -> & -> & ->).
      destruct (n =? 1); eexists _, _, _; (split; [reflexivity|]); game_simpl.
      * split; [done|]. split; [done|]. split; [apply Hout; quiet|].
        right; left. done.
      * split; [done|]. split; [done|]. split.
        -- rewrite <- (app_nil_r (_ :: _)). apply Hout. constructor.
        -- right; right. by exists d.
    + eexists _, _, _. split; [reflexivity|]. game_simpl.
      split; [done|]. split; [done|]. split; [apply Hout; quiet|by left].
Qed.

(** ** What one iteration changes *)

Lemma stats_mono_refl p : stats_mono p p.
Proof. by repeat split. Qed.

Lemma door_outcome (p1 p2 : Player) (cell : list Z) y x :
  position p1 = (y, x) →
  (p2 = p1 ∨ p2 = set_health 0 p1 ∨
   ∃ d, d ∈ cell ∧
        p2 = move_to (dir_name_of d) (toward y x d).1 (toward y x d).2 p1) →
  stats_mono p1 p2 ∧
  ((position p2 = (y, x) ∧ previous_door p2 = previous_door p1) ∨
   ∃ d, d ∈ cell ∧ position p2 = toward y x d ∧
        previous_door p2 = Some (dir_name_of d)).
Proof.
  intros Hp [->|[->|(d & Hd & ->)]].
  - split; [apply stats_mono_refl|by left].
  - split; [summ|by left].
  - split; [summ|]. right. exists d. game_simpl.
    split; [done|]. split; [by destruct (toward y x d)|done].
Qed.

Lemma loop_body_summary g y x c g' out :
  game_ok g → position (player g) = (y, x) →
  loop_body g = Ret (c, g', out) →
  maze g' = maze g ∧ stats_mono (player g) (player g') ∧
  ((visited_rooms g' = visited_rooms g ∧
    Forall (fun l => plain_line l = true) out) ∨
   (((y, x) ∉ visited_rooms g) ∧ (y, x) ≠ exit_room (maze g) ∧
    visited_rooms g' = {[ (y, x) ]} ∪ visited_rooms g ∧
    ∃ description rest,
      index room_descriptions (y * 5 + x) = Ret description ∧
      out = RoomDescription description :: rest ∧
      Forall (fun l => plain_line l = true) rest)) ∧
  ((position (player g') = (y, x) ∧
    previous_door (player g') = previous_door (player g)) ∨
   ∃ d, d ∈ cell_at (cells (maze g)) y x ∧
        position (player g') = toward y x d ∧
        previous_door (player g') = Some (dir_name_of d)).
Proof.
  intros Hok Hp Hbody. unfold loop_body in Hbody. rewrite Hp in Hbody.
  pose proof (gk_pos _ Hok) as Hpos. rewrite Hp in Hpos. simpl in Hpos.
  case_bool_decide as Hexit.
  { inversion Hbody; subst. split; [done|]. split; [apply stats_mono_refl|].
    split; [left; split; [done|quiet]|by left]. }
  rewrite (gk_width _ Hok) in Hbody. unfold room_phase in Hbody.
  case_bool_decide as Hnew.
  - destruct (room_event_summary g y x (y * 5 + x))
      as (c1 & g1 & d & rest & Hev & Hd & Hm1 & Hv1 & Hp1 & Hdoor1 & Hs1 & Hq1);
      [by apply room_id_range|apply Hok|].
    rewrite Hev in Hbody. cbn [mbind result_bind] in Hbody.
    assert (Hok1 : game_ok g1).
    { apply (game_ok_steady g); [done|done| |by rewrite Hp1, Hp].
      destruct Hs1 as (Hs & _). pose proof (gk_strength _ Hok). lia. }
    destruct c1.
    + destruct (door_phase_summary g1 y x Hok1 Hpos)
        as (c2 & g2 & out2 & Hdp & Hm2 & Hv2 & Hq2 & Hpl).
      rewrite Hdp in Hbody. cbn [mbind result_bind] in Hbody.
      inversion Hbody; subst c g' out.
      destruct (door_outcome _ _ _ y x (eq_trans Hp1 Hp) Hpl) as [Hs2 Hmv].
      rewrite Hm1 in Hmv. rewrite Hdoor1 in Hmv.
      split; [congruence|]. split; [by eapply stats_mono_trans|].
      split; [|done]. right. split; [done|]. split; [done|].
      split; [congruence|]. exists d, (rest ++ out2).
      split; [done|]. split; [done|]. by apply Forall_app.
    + inversion Hbody; subst c g' out.
      split; [done|]. split; [done|]. split.
      * right. split; [done|]. split; [done|]. split; [done|]. by exists d, rest.
      * left. split; congruence.
    + inversion Hbody; subst c g' out.
      split; [done|]. split; [done|]. split.
      * right. split; [done|]. split; [done|]. split; [done|]. by exists d, rest.
      * left. split; congruence.
  - cbn [mbind result_bind] in Hbody.
    destruct (door_phase_summary g y x Hok Hpos)
      as (c2 & g2 & out2 & Hdp & Hm2 & Hv2 & Hq2 & Hpl).
    rewrite Hdp in Hbody. cbn [mbind result_bind] in Hbody.
    inversion Hbody; subst c g' out.
    destruct (door_outcome _ _ _ y x Hp Hpl) as [Hs2 Hmv].
    split; [done|]. split; [done|]. split; [|done]. left. done.
Qed.

(** ** The session invariant *)

Lemma narrated_plain out :
  Forall (fun l => plain_line l = true) out → narrated out = [].
Proof.
  induction 1 as [|l out Hl _ IH]; [done|].
  unfold narrated in *. cbn [omap list_omap]. by destruct l.
Qed.

Lemma narrated_app out1 out2 :
  narrated (out1 ++ out2) = narrated out1 ++ narrated out2.
Proof. apply omap_app. Qed.

Lemma plain_no_doors_error out :
  Forall (fun l => plain_line l = true) out → Forall (fun l => l ≠ NoDoors) out.
Proof. intros H. eapply Forall_impl; [done|]. by intros [] ?. Qed.

Lemma room_descriptions_NoDup : NoDup room_descriptions.
Proof. apply (bool_decide_unpack _). vm_compute. reflexivity. Qed.

Lemma description_inj p q d :
  inb 5 5 p.1 p.2 → inb 5 5 q.1 q.2 →
  index room_descriptions (p.1 * 5 + p.2) = Ret d →
  index room_descriptions (q.1 * 5 + q.2) = Ret d →
  p = q.
Proof.
  destruct p as [py px], q as [qy qx]. cbn [fst snd]. intros Hp Hq Hdp Hdq.
  destruct (index_inb room_descriptions (py * 5 + px)) as (d1 & Hd1 & Hl1);
    [by apply room_id_range|].
  destruct (index_inb room_descriptions (qy * 5 + qx)) as (d2 & Hd2 & Hl2);
    [by apply room_id_range|].
  assert (d1 = d) as -> by congruence. assert (d2 = d) as -> by congruence.
  pose proof (NoDup_lookup _ _ _ _ room_descriptions_NoDup Hl1 Hl2) as Heq.
  unfold inb in *. f_equal; lia.
Qed.

Lemma new_game_session_inv r lines :
  ∃ g0, new_game r lines = Ret g0 ∧ session_inv g0 [] ∧ stdin g0 = lines.
Proof.
  destruct (new_game_ok r lines) as (g0 & Hnew & Hok & Hin & Hpl & Hvis).
  exists g0. split; [done|]. split; [|done].
  split; rewrite ?Hpl, ?Hvis; cbn; try done; try lia.
  - exists []. split; [constructor|]. split; [|split; constructor].
    intros p. rewrite elem_of_nil. set_solver.
  - destruct (Maze_init_full 5 5 r) as (m & r' & Hm & _ & _ & _ & _ & _ & _ & He);
      [lia|lia|].
    unfold new_game in Hnew. rewrite Hm in Hnew. cbn [mbind result_bind] in Hnew.
    by inversion Hnew; subst g0.
Qed.

Lemma loop_body_inv g out0 :
  session_inv g out0 →
  ∃ c g' out, loop_body g = Ret (c, g', out) ∧ session_inv g' (out0 ++ out) ∧
    maze g' = maze g ∧
    (c ≠ Break → (length (stdin g') < length (stdin g))%nat).
Proof.
  intros [Hok Hst Hgold Hexp (rooms & Hnd & Hrooms & Hin & Hdesc) Hexit Hexin
          Hnone].
  destruct (loop_body_ok g Hok) as (c & g' & out & Hbody & Hok' & Hne & _ & Hcont).
  exists c, g', out. split; [done|].
  pose proof (gk_pos _ Hok) as Hpos.
  destruct (position (player g)) as [y x] eqn:Hp. simpl in Hpos.
  destruct (loop_body_summary g y x c g' out Hok Hp Hbody)
    as (Hm & (Hs1 & Hs2 & Hs3 & Hs4) & Hnarr & _).
  split; [|split; [done|intros Hc; destruct c; try done; by apply Hcont]].
  destruct Hnarr as [[Hv Hq]|(Hnew & Hnex & Hv & d & rest & Hd & -> & Hq)].
  - split; try done; try lia; try (by apply Hs4).
    + exists rooms. rewrite narrated_app, (narrated_plain out Hq), app_nil_r.
      rewrite Hv. done.
    + by rewrite Hm, Hv.
    + by rewrite Hm.
    + apply Forall_app. split; [done|by apply plain_no_doors_error].
  - split; try done; try lia; try (by apply Hs4).
    + exists (rooms ++ [(y, x)]).
      rewrite narrated_app. unfold narrated at 2. cbn [omap list_omap].
      fold (narrated rest). rewrite (narrated_plain rest Hq).
      split; [|split; [|split]].
      * apply NoDup_app. split; [done|]. split; [|apply NoDup_singleton].
        intros p Hp1 Hp2%list_elem_of_singleton. subst p.
        by apply Hnew, Hrooms.
      * intros p. rewrite elem_of_app, list_elem_of_singleton, Hv, Hrooms.
        rewrite elem_of_union, elem_of_singleton. tauto.
      * apply Forall_app. split; [done|]. by constructor.
      * apply Forall2_app; [done|]. by constructor.
    + rewrite Hm, Hv. intros [Heq%elem_of_singleton|Hold]%elem_of_union;
        [by rewrite Heq in Hnex|done].
    + by rewrite Hm.
    + apply Forall_app. split; [done|]. constructor; [done|].
      by apply plain_no_doors_error.
Qed.

Lemma game_loop_inv : ∀ fuel g out0,
  session_inv g out0 → (length (stdin g) < fuel)%nat →
  ∃ g' out, game_loop fuel g = Ret (g', out) ∧ session_inv g' (out0 ++ out) ∧
            maze g' = maze g.
Proof.
  induction fuel as [|fuel IH]; intros g out0 Hinv Hfuel; [lia|].
  cbn [game_loop]. destruct (is_alive (player g)).
  - destruct (loop_body_inv g out0 Hinv)
      as (c & g1 & out1 & -> & Hinv1 & Hm1 & Hlt).
    cbn [mbind result_bind].
    assert (Hrec : c ≠ Break →
              ∃ g' out, (game_loop fuel g1 ≫= λ '(g'', out'),
                           Ret (g'', out1 ++ out')) = Ret (g', out) ∧
                        session_inv g' (out0 ++ out) ∧ maze g' = maze g).
    { intros Hc. specialize (Hlt Hc).
      destruct (IH g1 (out0 ++ out1) Hinv1) as (g' & out & -> & Hinv' & Hm');
        [lia|].
      cbn [mbind result_bind]. eexists _, _. split; [reflexivity|].
      split; [by rewrite app_assoc|congruence]. }
    destruct c; [by apply Hrec|by apply Hrec|by eexists _, _].
  - eexists _, _. split; [reflexivity|]. by rewrite app_nil_r.
Qed.

Lemma iterates_inv g0 n g out :
  session_inv g0 [] → iterates g0 n g out →
  session_inv g out ∧ maze g = maze g0.
Proof.
  intros Hinv0. induction 1 as [|n g out c g' out' _ IH Halive Hbody Hc];
    [done|].
  destruct IH as [Hinv Hm].
  destruct (loop_body_inv g out Hinv) as (c2 & g2 & out2 & Hbody2 & Hinv2 & Hm2 & _).
  rewrite Hbody in Hbody2. inversion Hbody2; subst c2 g2 out2.
  split; [done|congruence].
Qed.

Lemma play_game_inv r lines :
  ∃ g0 g out, new_game r lines = Ret g0 ∧
    play_game r lines = Ret (player g, Welcome :: out ++ report (player g)) ∧
    session_inv g out ∧ maze g = maze g0.
Proof.
  unfold play_game, play_game_fuel.
  destruct (new_game_session_inv r lines) as (g0 & Hnew & Hinv & Hin).
  rewrite Hnew. cbn [mbind result_bind]. unfold session.
  destruct (game_loop_inv (S (length lines)) g0 [] Hinv)
    as (g' & out & -> & Hinv' & Hm); [rewrite Hin; lia|].
  cbn [mbind result_bind]. by exists g0, g', out.
Qed.

Lemma narrated_session out p :
  narrated (Welcome :: out ++ report p) = narrated out.
Proof.
  change (Welcome :: out ++ report p) with ([Welcome] ++ out ++ report p).
  rewrite !narrated_app.
  rewrite (narrated_plain [Welcome]) by quiet.
  rewrite (narrated_plain (report p)); [by rewrite app_nil_r|].
  unfold report. destruct (is_alive p); quiet.
Qed.

Lemma all_rooms_spec p : inb 5 5 p.1 p.2 → p ∈ all_rooms.
Proof.
  destruct p as [y x]. unfold inb. cbn [fst snd]. intros [Hy Hx].
  assert (Ey : y = 0 ∨ y = 1 ∨ y = 2 ∨ y = 3 ∨ y = 4) by lia.
  assert (Ex : x = 0 ∨ x = 1 ∨ x = 2 ∨ x = 3 ∨ x = 4) by lia.
  destruct Ey as [->|[->|[->|[->| ->]]]];
    destruct Ex as [->|[->|[->|[->| ->]]]];
    apply (bool_decide_unpack _); vm_compute; reflexivity.
Qed.

Lemma narrated_bounds g out :
  session_inv g out →
  NoDup (narrated out) ∧ (length (narrated out) <= 24)%nat ∧
  ∀ d, index room_descriptions
         ((exit_room (maze g)).1 * 5 + (exit_room (maze g)).2) = Ret d →
       d ∉ narrated out.
Proof.
  intros [_ _ _ _ (rooms & Hnd & Hrooms & Hin & Hdesc) Hexit Hexin _].
  assert (Hex : exit_room (maze g) ∉ rooms) by (by rewrite Hrooms).
  split; [|split].
  - clear Hrooms Hex. induction Hdesc as [|p d rooms ds Hd Hdesc IH];
      [constructor|].
    apply NoDup_cons in Hnd as [Hp Hnd]. apply Forall_cons in Hin as [Hpi Hin].
    constructor; [|by apply IH].
    intros Hd'. apply Hp.
    destruct (proj1 (list_elem_of_lookup _ _) Hd') as [i Hi].
    destruct (Forall2_lookup_r _ _ _ _ _ Hdesc Hi) as (q & Hq & Hqd).
    assert (Hqi : inb 5 5 q.1 q.2)
      by (apply (proj1 (Forall_lookup _ _) Hin i q Hq)).
    rewrite (description_inj p q d Hpi Hqi Hd Hqd).
    by eapply list_elem_of_lookup_2.
  - rewrite <- (Forall2_length _ _ _ Hdesc).
    assert (Hsub : rooms ++ [exit_room (maze g)] ⊆+ all_rooms).
    { apply NoDup_submseteq.
      - apply NoDup_app. split; [done|]. split; [|apply NoDup_singleton].
        by intros p Hp ->%list_elem_of_singleton.
      - intros p [Hp| ->%list_elem_of_singleton]%elem_of_app.
        + apply all_rooms_spec. by apply (proj1 (Forall_forall _ _) Hin).
        + by apply all_rooms_spec. }
    apply submseteq_length in Hsub. rewrite length_app in Hsub.
    change (length all_rooms) with 25%nat in Hsub. simpl in Hsub. lia.
  - intros d Hd Hd'.
    destruct (proj1 (list_elem_of_lookup _ _) Hd') as [i Hi].
    destruct (Forall2_lookup_r _ _ _ _ _ Hdesc Hi) as (q & Hq & Hqd).
    assert (Hqi : inb 5 5 q.1 q.2)
      by (apply (proj1 (Forall_lookup _ _) Hin i q Hq)).
    apply Hex. rewrite (description_inj _ q d Hexin Hqi Hd Hqd).
    by eapply list_elem_of_lookup_2.
Qed.

(** ** Properties of every session *)

(** In every session the player's strength never falls below the 10 it
    starts with, so the range of [random.randint(1, self.strength)] in
    [combat] is never empty, and gold and experience never become
    negative: at the head of every iteration, and in the player the
    session ends with. *)
Theorem session_statistics (r : rng) (lines : list string) :
  ∃ g0, new_game r lines = Ret g0 ∧
    (∀ n g out, iterates g0 n g out →
       10 <= strength (player g) ∧ 0 <= gold (player g) ∧
       0 <= experience (player g)) ∧
    ∃ p out, play_game r lines = Ret (p, out) ∧
      10 <= strength p ∧ 0 <= gold p ∧ 0 <= experience p.
Proof.
  destruct (play_game_inv r lines) as (g0 & g & out & Hnew & Hplay & Hinv & _).
  exists g0. split; [done|]. split.
  - intros n g1 out1 Hit.
    destruct (new_game_session_inv r lines) as (g0' & Hnew' & Hinv0 & _).
    rewrite Hnew in Hnew'. inversion Hnew'; subst g0'.
    destruct (iterates_inv g0 n g1 out1 Hinv0 Hit) as [[] _]. done.
  - eexists _, _. split; [exact Hplay|]. by destruct Hinv.
Qed.

(** No room is described twice in a session: the descriptions printed are
    pairwise different, there are at most 24 of them, and the description
    of the exit room is never among them. *)
Theorem rooms_described_once (r : rng) (lines : list string) :
  ∃ g0 p out, new_game r lines = Ret g0 ∧ play_game r lines = Ret (p, out) ∧
    NoDup (narrated out) ∧ (length (narrated out) <= 24)%nat ∧
    ∀ d, index room_descriptions
           ((exit_room (maze g0)).1 * 5 + (exit_room (maze g0)).2) = Ret d →
         d ∉ narrated out.
Proof.
  destruct (play_game_inv r lines) as (g0 & g & out & Hnew & Hplay & Hinv & Hm).
  exists g0. eexists _, _. split; [done|]. split; [exact Hplay|].
  rewrite narrated_session, <- Hm. by apply narrated_bounds.
Qed.

(** The branch of line 285 is dead code in [play_game]: every room of the
    generated maze has a door, so no session prints the no-doors error. *)
Theorem no_doors_error_unreachable (r : rng) (lines : list string) :
  ∃ p out, play_game r lines = Ret (p, out) ∧ NoDoors ∉ out.
Proof.
  destruct (play_game_inv r lines) as (g0 & g & out & _ & Hplay & Hinv & _).
  eexists _, _. split; [exact Hplay|].
  pose proof (si_no_doors_error _ _ Hinv) as Hnone.
  intros [H|[H|H]%elem_of_app]%elem_of_cons; [done| |].
  - by apply (proj1 (Forall_forall _ _) Hnone NoDoors H).
  - unfold report in H. destruct (is_alive (player g));
      apply elem_of_cons in H as [H|H%list_elem_of_singleton]; done.
Qed.

(** The maze is never modified after it is built, and an iteration either
    leaves the player in the room or moves it through one of the doors
    stored for that room, to the adjacent room on that side, which has the
    door back; [previous_door] is the name of the door taken. *)
Theorem moves_follow_doors (r : rng) (lines : list string) :
  ∃ g0, new_game r lines = Ret g0 ∧
    ∀ n g out c g' out' y x,
      iterates g0 n g out → loop_body g = Ret (c, g', out') →
      position (player g) = (y, x) →
      maze g' = maze g0 ∧
      ((position (player g') = (y, x) ∧
        previous_door (player g') = previous_door (player g)) ∨
       ∃ d, d ∈ cell_at (cells (maze g0)) y x ∧
            position (player g') = toward y x d ∧
            previous_door (player g') = Some (dir_name_of d) ∧
            opposite d ∈ cell_at (cells (maze g0))
                                 (toward y x d).1 (toward y x d).2).
Proof.
  destruct (new_game_session_inv r lines) as (g0 & Hnew & Hinv0 & _).
  exists g0. split; [done|].
  intros n g out c g' out' y x Hit Hbody Hp.
  destruct (iterates_inv g0 n g out Hinv0 Hit) as [Hinv Hm].
  pose proof (si_game _ _ Hinv) as Hok.
  destruct (loop_body_summary g y x c g' out' Hok Hp Hbody)
    as (Hm' & _ & _ & Hmv).
  split; [congruence|].
  destruct Hmv as [Hstay|(d & Hd & Hpos & Hdoor)]; [by left|].
  right. exists d. rewrite <- Hm. split; [done|]. split; [done|].
  split; [done|].
  apply (ok_sym _ _ _ (gk_doors _ Hok)); [|done].
  pose proof (gk_pos _ Hok) as Hin. by rewrite Hp in Hin.
Qed.

Lemma moves_follow_doors_witness :
  ∃ g0, new_game (constant_stream 7000000000000003) ["no"; "2"]%string = Ret g0 ∧
    ∃ c g' out', loop_body g0 = Ret (c, g', out') ∧
      ∃ d, d ∈ cell_at (cells (maze g0)) 0 0 ∧
           position (player g') = toward 0 0 d ∧
           previous_door (player g') = Some (dir_name_of d) ∧
           opposite d ∈ cell_at (cells (maze g0))
                                (toward 0 0 d).1 (toward 0 0 d).2.
Proof.
  destruct (moves_follow_doors (constant_stream 7000000000000003)
              ["no"; "2"]%string) as (g0 & Hnew & Hmoves).
  exists g0. split; [exact Hnew|].
  vm_compute in Hnew. injection Hnew as <-.
  match type of Hmoves with
  | ∀ n g, ∀ out c g' out' y x, iterates ?g0 _ _ _ → _ =>
      eassert (Hbody : loop_body g0 = Ret (_, _, _)) by (vm_compute; reflexivity);
      destruct (Hmoves 0%nat g0 [] _ _ _ 0 0 (iterates_O g0) Hbody eq_refl)
        as [_ [[Hstay _]|Hmove]]
  end.
  - vm_compute in Hstay. discriminate.
  - eexists _, _, _. split; [exact Hbody|exact Hmove].
Defined.

(** ** Choosing a door *)

Lemma door_listing_menu (cell : list Z) (y x : Z) :
  AvailableDoors ::
    (door_menu 1 ((fun d => (dir_name_of d, (toward y x d).1, (toward y x d).2))
                    <$> cell) ∅).2 ++ [DoorPrompt]
  = door_listing cell.
Proof. rewrite door_menu_lines, imap_fmap. reflexivity. Qed.

(** The door phase with a line of input left, in a room of the grid.  The
    doors stored for the room are listed in their stored order, numbered
    from 1.  An answer that, stripped, is the decimal numeral shown next
    to a door takes that door: the next draw decides between the deadly
    trap (1 in 100) and the move.  Any other answer is consumed, changes
    nothing else and is answered with the number of doors. *)
Theorem door_choice (g : Game) (y x : Z) (l : string) (rest : list string) :
  game_ok g → inb 5 5 y x → stdin g = l :: rest →
  (∀ i d, cell_at (cells (maze g)) y x !! i = Some d →
     strip l = pretty (1 + Z.of_nat i) →
     door_phase g y x =
     Ret (if rand g 0%nat mod 100 =? 0 then
            (Break,
             with_player (set_health 0 (player g))
               (with_rand (fun n => rand g (S n)) (with_stdin rest g)),
             door_listing (cell_at (cells (maze g)) y x) ++ [Trap])
          else
            (Continue,
             with_player
               (move_to (dir_name_of d) (toward y x d).1 (toward y x d).2
                  (player g))
               (with_rand (fun n => rand g (S n)) (with_stdin rest g)),
             door_listing (cell_at (cells (maze g)) y x)))) ∧
  ((∀ i, (i < length (cell_at (cells (maze g)) y x))%nat →
         strip l ≠ pretty (1 + Z.of_nat i)) →
   door_phase g y x =
   Ret (Continue, with_stdin rest g,
        door_listing (cell_at (cells (maze g)) y x) ++
        [PleaseNumber (Z.of_nat (length (cell_at (cells (maze g)) y x)))])).
Proof.
  intros Hok Hi Hin. unfold door_phase.
  rewrite get_neighbors_ok
    by (rewrite (gk_width _ Hok), (gk_height _ Hok); apply Hok || done).
  cbn [mbind result_bind].
  pose proof (gk_degree _ Hok y x Hi) as Hdeg.
  pose proof (door_listing_menu (cell_at (cells (maze g)) y x) y x) as Hmenu.
  set (cell := cell_at (cells (maze g)) y x) in *.
  set (ns := _ <$> cell) in *.
  assert (Hlen : length ns = length cell) by apply length_fmap.
  assert (Hns : ∀ i d, cell !! i = Some d →
            ns !! i = Some (dir_name_of d, (toward y x d).1, (toward y x d).2)).
  { intros i d Hd. unfold ns. by rewrite list_lookup_fmap, Hd. }
  destruct ns as [|n0 ns'] eqn:Ens; [simpl in Hlen; lia|].
  rewrite <- Ens in *. clear Ens.
  pose proof (door_menu_hit ns 1 ∅) as Hhit.
  pose proof (door_menu_inv ns 1 ∅) as Hinv.
  pose proof (door_menu_size ns 1 ∅) as Hsize.
  destruct (door_menu 1 ns ∅) as [door_options menu].
  cbn [fst snd] in Hhit, Hinv, Hsize, Hmenu.
  rewrite Hmenu. unfold input. rewrite Hin. split.
  - intros i d Hd Hkey. rewrite Hkey, (Hhit _ _ (Hns _ _ Hd)).
    destruct (randint_ok 1 100 (rand (with_stdin rest g)))
      as (n & -> & _ & Hn); [lia|].
    cbn [mbind result_bind]. cbv zeta. game_simpl.
    change (100 - 1 + 1) with 100 in Hn.
    destruct (Z.eqb_spec n 1), (Z.eqb_spec (rand g 0%nat mod 100) 0);
      try lia; reflexivity.
  - intros Hmiss.
    destruct (door_options !! strip l) as [v|] eqn:Hsel.
    + destruct (Hinv _ _ Hsel) as [(i & Hi' & Hkey)|He];
        [|by rewrite lookup_empty in He].
      exfalso. apply (Hmiss i); [|done].
      apply lookup_lt_Some in Hi'. lia.
    + rewrite Hsize by (intros; apply lookup_empty).
      rewrite map_size_empty, Hlen. reflexivity.
Qed.

Lemma door_choice_witness :
  ∃ g0, new_game (constant_stream 7000000000000003) [" 2" ++ nbsp; "02"]%string = Ret g0 ∧
    ∃ g1 g2,
      door_phase g0 0 0
      = Ret (Continue, g1, [AvailableDoors; DoorOption 1 "East";
                            DoorOption 2 "South"; DoorPrompt]) ∧
      position (player g1) = (1, 0) ∧
      door_phase g1 1 0
      = Ret (Continue, g2, [AvailableDoors; DoorOption 1 "East";
                            DoorOption 2 "South"; DoorOption 3 "North";
                            DoorPrompt; PleaseNumber 3]) ∧
      player g2 = player g1.
Proof.
  destruct (new_game_ok (constant_stream 7000000000000003) [" 2" ++ nbsp; "02"]%string)
    as (g0 & Hnew & Hok0 & Hin0 & _).
  exists g0. split; [exact Hnew|].
  assert (Hi0 : inb 5 5 0 0) by (unfold inb; lia).
  assert (Hi1 : inb 5 5 1 0) by (unfold inb; lia).
  destruct (door_choice g0 0 0 (" 2" ++ nbsp)%string ["02"%string] Hok0 Hi0 Hin0)
    as [Hhit _].
  specialize (Hhit 1%nat 1).
  set (g1 := with_player (move_to "South" 1 0 (player g0))
               (with_rand (fun _ => 7000000000000003) (with_stdin ["02"%string] g0))).
  assert (Hok1 : game_ok g1).
  { apply (game_ok_steady g0); [done|reflexivity|apply Hok0|exact Hi1]. }
  destruct (door_choice g1 1 0 "02"%string [] Hok1 Hi1 eq_refl) as [_ Hmiss].
  exists g1, (with_stdin [] g1). split; [|split; [|split]].
  - etrans; [apply Hhit|].
    + vm_compute in Hnew. injection Hnew as <-. vm_compute; reflexivity.
    + vm_compute; reflexivity.
    + vm_compute in Hnew. injection Hnew as <-. vm_compute. reflexivity.
  - reflexivity.
  - etrans; [apply Hmiss|].
    + intros i Hi.
      assert (Hlen : length (cell_at (cells (maze g1)) 1 0) = 3%nat)
        by (vm_compute in Hnew; injection Hnew as <-; reflexivity).
      rewrite Hlen in Hi.
      destruct i as [|[|[|i]]]; [vm_compute; discriminate..|lia].
    + vm_compute in Hnew. injection Hnew as <-. vm_compute. reflexivity.
  - reflexivity.
Defined.

(** ** An answer at the fight prompt that is neither yes nor no *)

Lemma combat_encounter_invalid g l rest :
  stdin g = l :: rest →
  str_in (lower (strip l)) (yes_options ++ no_options) = false →
  ∃ monster g',
    combat_encounter g = Ret (Continue, g', [Text monster; FightPrompt; PleaseYesNo]) ∧
    monster ∈ combat_outcomes ∧
    player g' = player g ∧ visited_rooms g' = visited_rooms g ∧
    maze g' = maze g ∧ stdin g' = rest.
Proof.
  intros Hin Hbad. unfold combat_encounter.
  destruct (choice_elem combat_outcomes (rand g)) as (text & r & -> & Htext);
    [done|].
  cbn [mbind result_bind]. cbv zeta. unfold input. game_simpl.
  rewrite Hin, Hbad. cbn [negb].
  eexists _, _. split; [reflexivity|]. done.
Qed.

(** A monster appears (the draws select the combat branch of lines
    232-249) in a room entered for the first time, and the answer at the
    fight prompt is neither yes nor no.  The iteration ends there: the
    player neither fights nor pays the 10 health of fleeing, and since the
    room is already marked as visited the next iteration goes straight to
    its doors. *)
Theorem invalid_fight_answer (g : Game) (y x : Z) (l1 l2 : string)
  (rest : list string) :
  game_ok g →
  position (player g) = (y, x) →
  (y, x) ≠ exit_room (maze g) →
  (y, x) ∉ visited_rooms g →
  stdin g = l1 :: l2 :: rest →
  str_in (lower (strip l1)) yes_options = true →
  rand g 0%nat mod 100 ≠ 0 →
  float_lt (rand g 1%nat mod 2 ^ 53) f_0_1 = true →
  str_in (lower (strip l2)) (yes_options ++ no_options) = false →
  ∃ description choice_text monster g',
    loop_body g
    = Ret (Continue, g',
           [RoomDescription description; ChoicePrompt choice_text;
            Text monster; FightPrompt; PleaseYesNo]) ∧
    monster ∈ combat_outcomes ∧
    player g' = player g ∧
    stdin g' = rest ∧
    room_phase g' y x (y * width (maze g') + x) = Ret (Fallthrough, g', []).
Proof.
  intros Hok Hp Hexit Hfirst Hin Hyes Hn H01 Hbad.
  destruct (room_tables g y x Hok Hp) as (d & ch & Hd & Hch).
  set (g1 := with_stdin (l2 :: rest)
               (with_visited ({[ (y, x) ]} ∪ visited_rooms g) g)).
  set (g2 := with_rand (fun n => rand g (S (S n))) g1).
  destruct (combat_encounter_invalid g2 l2 rest eq_refl Hbad)
    as (monster & g' & Hce & Hmon & Hpl & Hvis & Hmz & Hrest).
  exists d, ch, monster, g'.
  assert (Hacc : accept_choice g1
                 = Ret (Continue, g', [Text monster; FightPrompt; PleaseYesNo])).
  { unfold accept_choice.
    destruct (randint_ok 1 100 (rand g1)) as (n & -> & _ & Hnv); [lia|].
    cbn [mbind result_bind]. cbv zeta.
    change (100 - 1 + 1) with 100 in Hnv. subst g1. game_simpl.
    destruct (Z.eqb_spec n 1) as [Heq|_]; [lia|].
    unfold random, draw. game_simpl. rewrite H01.
    match goal with
    | |- context [combat_encounter ?G] => change G with g2
    end.
    rewrite Hce. reflexivity. }
  split; [|split; [done|split; [done|split; [done|]]]].
  - apply (loop_body_first_visit g y x); try done.
    unfold room_event. rewrite Hd, Hch. cbn [mbind result_bind]. cbv zeta.
    unfold input. game_simpl. rewrite Hin.
    rewrite str_in_app, Hyes. cbn [orb negb].
    fold g1. rewrite Hacc. reflexivity.
  - unfold room_phase. rewrite Hvis.
    rewrite bool_decide_eq_false_2; [done|].
    intros Hnot. apply Hnot. subst g2 g1. game_simpl.
    apply elem_of_union_l. by apply elem_of_singleton.
Qed.

Lemma invalid_fight_answer_witness :
  ∃ g0, new_game (constant_stream 7) ["yes"; "maybe"]%string = Ret g0 ∧
    ∃ description choice_text monster g',
      loop_body g0
      = Ret (Continue, g',
             [RoomDescription description; ChoicePrompt choice_text;
              Text monster; FightPrompt; PleaseYesNo]) ∧
      monster ∈ combat_outcomes ∧
      player g' = player g0 ∧
      stdin g' = [] ∧
      room_phase g' 0 0 (0 * width (maze g') + 0) = Ret (Fallthrough, g', []).
Proof.
  destruct (new_game_ok (constant_stream 7) ["yes"; "maybe"]%string)
    as (g0 & Hnew & Hok & Hin & Hpl & Hvis).
  exists g0. split; [exact Hnew|].
  apply (invalid_fight_answer g0 0 0 "yes"%string "maybe"%string [] Hok).
  - by rewrite Hpl.
  - vm_compute in Hnew. injection Hnew as <-. vm_compute. congruence.
  - rewrite Hvis. apply not_elem_of_empty.
  - exact Hin.
  - vm_compute. reflexivity.
  - vm_compute in Hnew. injection Hnew as <-. vm_compute. congruence.
  - vm_compute in Hnew. injection Hnew as <-. vm_compute. reflexivity.
  - vm_compute. reflexivity.
Defined.

(** ** The loop condition *)

Lemma combat_encounter_alive g c g' out :
  combat_encounter g = Ret (c, g', out) → c = Continue →
  player g' = player g.
Proof.
  unfold combat_encounter. intros H Hc.
  apply bind_Ret in H as ([text r] & _ & H). cbv zeta in H.
  unfold input in H. game_simpl.
  destruct (stdin g) as [|l rest]; [inversion H; congruence|].
  destruct (negb _); [by inversion H|].
  destruct (str_in _ yes_options).
  - apply bind_Ret in H as ([[[won p] r'] fight] & _ & H).
    inversion H. destruct won; congruence.
  - inversion H. congruence.
Qed.

Lemma accept_choice_alive g c g' out :
  accept_choice g = Ret (c, g', out) → c ≠ Break →
  is_alive (player g) = true → is_alive (player g') = true.
Proof.
  unfold accept_choice. intros H Hc Halive.
  apply bind_Ret in H as ([n r] & _ & H). cbv zeta in H.
  destruct (n =? 1); [inversion H; congruence|].
  destruct (random _) as [rnd r'].
  apply bind_Ret in H as ([[c1 g1] out1] & Hev & H).
  destruct c1.
  - destruct (is_alive (player g1)) eqn:Hal; inversion H; congruence.
  - inversion H; subst c g' out.
    destruct (float_lt rnd f_0_1).
    + rewrite (combat_encounter_alive _ _ _ _ Hev eq_refl). by game_simpl.
    + destruct (float_lt rnd f_0_75).
      { apply bind_Ret in Hev as ([? ?] & _ & Hev). by inversion Hev. }
      destruct (float_lt rnd f_0_95).
      { apply bind_Ret in Hev as ([? ?] & _ & Hev).
        apply bind_Ret in Hev as (? & _ & Hev). by inversion Hev. }
      apply bind_Ret in Hev as ([? ?] & _ & Hev). by inversion Hev.
  - inversion H; congruence.
Qed.

Lemma room_event_alive g y x room_id c g' out :
  room_event g y x room_id = Ret (c, g', out) → c ≠ Break →
  is_alive (player g) = true → is_alive (player g') = true.
Proof.
  unfold room_event. intros H Hc Halive.
  apply bind_Ret in H as (d & _ & H). apply bind_Ret in H as (ch & _ & H).
  cbv zeta in H. unfold input in H. game_simpl.
  destruct (stdin g) as [|l rest]; [inversion H; congruence|].
  destruct (negb _); [inversion H; by subst|].
  destruct (str_in _ yes_options); [|inversion H; by subst].
  apply bind_Ret in H as ([[c1 g1] out1] & Hacc & H).
  inversion H; subst c g' out.
  by apply (accept_choice_alive _ _ _ _ Hacc).
Qed.

Lemma door_phase_alive g y x c g' out :
  door_phase g y x = Ret (c, g', out) → c ≠ Break →
  is_alive (player g) = true → is_alive (player g') = true.
Proof.
  unfold door_phase. intros H Hc Halive.
  apply bind_Ret in H as (ns & _ & H).
  destruct ns as [|n0 ns']; [inversion H; congruence|].
  destruct (door_menu 1 _ ∅) as [door_options menu].
  unfold input in H.
  destruct (stdin g) as [|l rest]; [inversion H; congruence|].
  destruct (door_options !! strip l) as [[[dir_name ny] nx]|];
    [|inversion H; by subst].
  apply bind_Ret in H as ([n r] & _ & H). cbv zeta in H.
  destruct (n =? 1); inversion H; [congruence|by subst].
Qed.

Lemma loop_body_alive g c g' out :
  loop_body g = Ret (c, g', out) → c ≠ Break →
  is_alive (player g) = true → is_alive (player g') = true.
Proof.
  unfold loop_body. intros H Hc Halive.
  destruct (position (player g)) as [y x].
  case_bool_decide; [inversion H; congruence|].
  apply bind_Ret in H as ([[c1 g1] out1] & Hroom & H).
  assert (Hal1 : c1 ≠ Break → is_alive (player g1) = true).
  { intros Hc1. unfold room_phase in Hroom. case_bool_decide.
    - by apply (room_event_alive _ _ _ _ _ _ _ Hroom).
    - inversion Hroom. by subst. }
  destruct c1.
  - apply bind_Ret in H as ([[c2 g2] out2] & Hdoor & H).
    inversion H; subst c g' out.
    apply (door_phase_alive _ _ _ _ _ _ Hdoor Hc). by apply Hal1.
  - inversion H; subst c g' out. by apply Hal1.
  - inversion H; congruence.
Qed.

Lemma iterates_alive g0 n g out :
  is_alive (player g0) = true → iterates g0 n g out →
  is_alive (player g) = true.
Proof.
  intros Halive0. induction 1 as [|n g out c g' out' _ IH Halive Hbody Hc];
    [done|].
  by apply (loop_body_alive _ _ _ _ Hbody).
Qed.

(** The condition of [while player.is_alive()] holds every time it is
    evaluated: the player is alive at the head of every iteration, so the
    loop is only ever left through a [break], and every death (trap,
    catastrophe, lost combat, health used up by an outcome or by fleeing)
    takes one. *)
Theorem loop_left_by_break (r : rng) (lines : list string) :
  ∃ g0, new_game r lines = Ret g0 ∧
    (∀ n g out, iterates g0 n g out → is_alive (player g) = true) ∧
    ∃ n g out g' out',
      iterates g0 n g out ∧ loop_body g = Ret (Break, g', out') ∧
      play_game r lines
      = Ret (player g', Welcome :: (out ++ out') ++ report (player g')).
Proof.
  destruct (new_game_ok r lines) as (g0 & Hnew & Hok0 & Hin0 & Hpl & _).
  exists g0. split; [done|].
  assert (Halive0 : is_alive (player g0) = true) by (by rewrite Hpl).
  split; [intros n g out; by apply iterates_alive|].
  assert (Hrun : ∀ k n g out,
            iterates g0 n g out → (length (stdin g) < k)%nat →
            ∃ n' g1 out1 g' out',
              iterates g0 n' g1 out1 ∧ loop_body g1 = Ret (Break, g', out') ∧
              (length (stdin g1) + n' <= length (stdin g0))%nat).
  { induction k as [|k IH]; intros n g out Hit Hk; [lia|].
    destruct (iterates_ok g0 n g out Hok0 Hit) as (Hok & Hlen & _).
    destruct (loop_body_ok g Hok)
      as (c & g1 & out1 & Hbody & Hok1 & Hne & _ & Hcont).
    destruct c; [done| |by exists n, g, out, g1, out1].
    destruct (Hcont eq_refl) as [Hlt _].
    apply (IH (S n) g1 (out ++ out1)); [|lia].
    eapply iterates_S; [done| |done|done].
    by apply (iterates_alive g0 n g out). }
  destruct (Hrun (S (length (stdin g0))) 0%nat g0 [] (iterates_O g0))
    as (n & g & out & g' & out' & Hit & Hbody & Hlen); [lia|].
  exists n, g, out, g', out'. split; [done|]. split; [done|].
  apply (play_game_break r lines g0 n g out g' out' Hnew Hit); [|done|].
  - by apply (iterates_alive g0 n g out).
  - rewrite Hin0 in Hlen. lia.
Qed.

(** ** Reaching the exit *)

(** When the player stands in the exit room at the head of an iteration,
    the session ends there as an escape: the two escape messages are
    printed, each followed by the same statistics, the player is returned
    as it entered the room, and neither the room's event nor any further
    input is used. *)
Theorem exit_room_ends_session (r : rng) (lines : list string) (g0 g : Game)
  (n : nat) (out : list line) :
  new_game r lines = Ret g0 →
  iterates g0 n g out →
  position (player g) = exit_room (maze g) →
  play_game r lines
  = Ret (player g,
         Welcome :: out ++
           [FoundExit; final_stats (player g);
            Congratulations; final_stats (player g)]) ∧
  exit_room (maze g) = exit_room (maze g0) ∧
  position (player g) ∉ visited_rooms g.
Proof.
  intros Hnew Hit Hexit.
  destruct (new_game_session_inv r lines) as (g0' & Hnew' & Hinv0 & Hin0).
  rewrite Hnew in Hnew'. inversion Hnew'; subst g0'.
  destruct (iterates_inv g0 n g out Hinv0 Hit) as [Hinv Hm].
  destruct (iterates_ok g0 n g out (si_game _ _ Hinv0) Hit) as (_ & Hlen & _).
  assert (Halive0 : is_alive (player g0) = true).
  { destruct (new_game_ok r lines) as (g0' & Hnew'' & _ & _ & Hpl & _).
    rewrite Hnew in Hnew''. inversion Hnew''; subst g0'. by rewrite Hpl. }
  pose proof (iterates_alive g0 n g out Halive0 Hit) as Halive.
  split; [|split; [by rewrite Hm|rewrite Hexit; apply Hinv]].
  rewrite (play_game_break r lines g0 n g out g
             [FoundExit; final_stats (player g)] Hnew Hit Halive).
  - unfold report. rewrite Halive. by rewrite <- app_assoc.
  - unfold loop_body. destruct (position (player g)) as [y x].
    by rewrite bool_decide_eq_true_2.
  - rewrite Hin0 in Hlen. lia.
Qed.

Lemma exit_room_ends_session_witness :
  ∃ out,
    play_game (constant_stream 7000000000000003)
      ["no"; "2"; "no"; "2"; "no"; "2"; "no"; "2";
       "no"; "2"; "no"; "2"; "no"; "2"; "no"; "2"; "unread"]%string
    = Ret ({| health := 100; strength := 10; gold := 0; experience := 0;
              inventory := []; position := (3, 3);
              previous_door := Some "West"%string |},
           Welcome :: out ++
             [FoundExit; FinalStats 100 10 0 0 [];
              Congratulations; FinalStats 100 10 0 0 []]).
Proof.
  destruct (new_game_ok (constant_stream 7000000000000003)
              ["no"; "2"; "no"; "2"; "no"; "2"; "no"; "2";
               "no"; "2"; "no"; "2"; "no"; "2"; "no"; "2"; "unread"]%string)
    as (g0 & Hnew & _).
  assert (Hnew' := Hnew). vm_compute in Hnew'. injection Hnew' as <-.
  match type of Hnew with
  | _ = Ret ?g => eassert (Hit : iterates g 8 _ _) by run_iterations 8%nat
  end.
  destruct (exit_room_ends_session _ _ _ _ _ _ Hnew Hit) as (Hplay & _);
    [vm_compute; reflexivity|].
  eexists. exact Hplay.
Defined.

(** ** Indices outside the grid *)

Lemma index_in_range {A} (l : list A) i :
  - Z.of_nat (length l) <= i < Z.of_nat (length l) →
  ∃ a, index l i = Ret a ∧ a ∈ l.
Proof.
  intros Hi. unfold index, norm_index.
  set (j := if i <? 0 then i + Z.of_nat (length l) else i).
  assert (Hj : 0 <= j < Z.of_nat (length l)).
  { unfold j. destruct (Z.ltb_spec i 0); lia. }
  destruct (Z.leb_spec 0 j); [|lia].
  destruct (Z.ltb_spec j (Z.of_nat (length l))); [|lia].
  cbn [andb].
  destruct (lookup_lt_is_Some_2 l (Z.to_nat j)) as [a Ha]; [lia|].
  rewrite Ha. exists a. split; [done|]. by eapply list_elem_of_lookup_2.
Qed.

Lemma index_out_of_range {A} (l : list A) i :
  ¬ (- Z.of_nat (length l) <= i < Z.of_nat (length l)) →
  index l i = Raise IndexError.
Proof.
  intros Hi. unfold index, norm_index.
  destruct (Z.ltb_spec i 0);
    destruct (Z.leb_spec 0 (i + Z.of_nat (length l)));
    destruct (Z.leb_spec 0 i);
    destruct (Z.ltb_spec (i + Z.of_nat (length l)) (Z.of_nat (length l)));
    destruct (Z.ltb_spec i (Z.of_nat (length l)));
    cbn [andb]; try done; lia.
Qed.

(** [get_neighbors] does not check its arguments, it indexes
    [self.cells[y][x]]: on a generated maze it raises [IndexError] exactly
    when [y] or [x] lies outside Python's index range of the grid, and
    returns a list for every other pair, the negative indices down to
    [-height] and [-width] included. *)
Theorem get_neighbors_index_range (w h : Z) (r : rng) (y x : Z) :
  1 <= w → 1 <= h →
  ∃ m r', Maze_init w h r = Ret (m, r') ∧
    (get_neighbors m y x = Raise IndexError ↔
     ¬ (- h <= y < h ∧ - w <= x < w)) ∧
    (- h <= y < h ∧ - w <= x < w → ∃ ns, get_neighbors m y x = Ret ns).
Proof.
  intros Hw Hh.
  destruct (Maze_init_full w h r Hw Hh) as (m & r' & Hm & _ & _ & Hok & _).
  exists m, r'. split; [done|].
  destruct (ok_shape _ _ _ Hok) as [Hrows Hcols].
  assert (Hin : - h <= y < h ∧ - w <= x < w →
                ∃ ns, get_neighbors m y x = Ret ns).
  { intros [Hy Hx]. unfold get_neighbors, grid_get.
    destruct (index_in_range (cells m) y) as (row & -> & Hrow); [lia|].
    cbn [mbind result_bind].
    pose proof (proj1 (Forall_forall _ _) Hcols row Hrow) as Hlen.
    cbv beta in Hlen.
    destruct (index_in_range row x) as (cell & -> & _); [lia|].
    cbn [mbind result_bind]. by eexists. }
  split; [|done]. split.
  - intros Hraise Hrange. destruct (Hin Hrange) as [ns Hns]. congruence.
  - intros Hout. unfold get_neighbors, grid_get.
    destruct (decide (- h <= y < h)) as [Hy|Hy].
    + destruct (index_in_range (cells m) y) as (row & -> & Hrow); [lia|].
      cbn [mbind result_bind].
      pose proof (proj1 (Forall_forall _ _) Hcols row Hrow) as Hlen.
      cbv beta in Hlen.
      rewrite (index_out_of_range row x); [done|]. lia.
    + rewrite (index_out_of_range (cells m) y); [done|]. lia.
Qed.

Lemma get_neighbors_index_range_witness :
  ∃ m r', Maze_init 2 2 (stream_of [1]) = Ret (m, r') ∧
    get_neighbors m 2 0 = Raise IndexError ∧
    ∃ ns, get_neighbors m (-1) (-2) = Ret ns.
Proof.
  destruct (get_neighbors_index_range 2 2 (stream_of [1]) 2 0)
    as (m & r' & Hm & Hraise & _); [lia|lia|].
  destruct (get_neighbors_index_range 2 2 (stream_of [1]) (-1) (-2))
    as (m2 & r2 & Hm2 & _ & Hret); [lia|lia|].
  assert (m2 = m) as -> by congruence.
  exists m, r'. split; [exact Hm|]. split.
  - apply Hraise. lia.
  - apply Hret. lia.
Defined.

(** ** Statistics across an iteration *)

(** No iteration of a session lowers the player's strength or experience
    or removes an item from the inventory (a Healing Potion, once found,
    is never used), and gold that is not negative stays so. *)
Theorem statistics_never_decrease (r : rng) (lines : list string) :
  ∃ g0, new_game r lines = Ret g0 ∧
    ∀ n g out c g' out',
      iterates g0 n g out → loop_body g = Ret (c, g', out') →
      strength (player g) <= strength (player g') ∧
      experience (player g) <= experience (player g') ∧
      inventory (player g) `prefix_of` inventory (player g') ∧
      0 <= gold (player g').
Proof.
  destruct (new_game_session_inv r lines) as (g0 & Hnew & Hinv0 & _).
  exists g0. split; [done|].
  intros n g out c g' out' Hit Hbody.
  destruct (iterates_inv g0 n g out Hinv0 Hit) as [Hinv _].
  pose proof (si_game _ _ Hinv) as Hok.
  destruct (position (player g)) as [y x] eqn:Hp.
  destruct (loop_body_summary g y x c g' out' Hok Hp Hbody)
    as (_ & (Hs & He & Hi & Hg) & _).
  split; [done|]. split; [done|]. split; [done|].
  apply Hg. apply Hinv.
Qed.
